(** * midi2floppy: a shallow embedding of [midi2floppy.py]

    The development follows the layout of the script: constants, the
    helpers ([get_shortname], [is_generated_dir]), the two directory
    passes ([rename_files], [bucket_files]), the recursive driver
    ([process_directory]) and the manifest written by [main].

    Modelling conventions.
    - Python [int] is [Z]; lengths, slice bounds and list positions that
      the script only ever uses as non-negative offsets are [nat].
    - Python [str] is [string] for the names made of ASCII characters
      ([Str.isascii]): [isalpha], [upper], [lower] and [isdigit] are
      Python's on the code points below 128.  On other characters Python
      consults its character tables and these definitions do not follow it,
      so every statement whose truth depends on the class or the case of a
      character is stated for ASCII names.  [Unicode.get_shortname] is
      [get_shortname] on a [str] of any code points, with the character
      tables as a parameter; on ASCII names the two agree.
    - [pathlib] is modelled with POSIX flavour: a path that the script
      builds with [/] is the list of its components below the filesystem
      root; [Path(filename)] applied to a plain string is parsed first. *)

From Stdlib Require Import ZArith NArith List String Ascii Bool Lia.
From Stdlib Require Import Permutation Sorted.
From Stdlib Require Import Decimal DecimalString DecimalN DecimalZ.
Import ListNotations.

Local Open Scope string_scope.
Local Open Scope list_scope.
Local Open Scope Z_scope.

Set Warnings "-register-all".

(* ------------------------------------------------------------------ *)
(** ** Python [str] methods used by the script *)
(* ------------------------------------------------------------------ *)

Module Str.

Definition code (c : ascii) : N := N_of_ascii c.

Definition char_isupper (c : ascii) : bool :=
  ((65 <=? code c) && (code c <=? 90))%N.

Definition char_islower (c : ascii) : bool :=
  ((97 <=? code c) && (code c <=? 122))%N.

(** [c.isalpha()] for an ASCII character *)
Definition isalpha (c : ascii) : bool := char_isupper c || char_islower c.

(** [c.isdigit()] for one ASCII character *)
Definition char_isdigit (c : ascii) : bool :=
  ((48 <=? code c) && (code c <=? 57))%N.

(** [c.upper()] and [c.lower()] for one ASCII character *)
Definition char_upper (c : ascii) : ascii :=
  if char_islower c then ascii_of_N (code c - 32) else c.

Definition char_lower (c : ascii) : ascii :=
  if char_isupper c then ascii_of_N (code c + 32) else c.

Fixpoint map (f : ascii -> ascii) (s : string) : string :=
  match s with
  | EmptyString => EmptyString
  | String c s' => String (f c) (map f s')
  end.

Fixpoint all (p : ascii -> bool) (s : string) : bool :=
  match s with
  | EmptyString => true
  | String c s' => p c && all p s'
  end.

(** [s.lower()], [s.upper()] for a string of ASCII characters *)
Definition lower (s : string) : string := map char_lower s.
Definition upper (s : string) : string := map char_upper s.

(** [s[:n]] *)
Fixpoint take (n : nat) (s : string) : string :=
  match n, s with
  | S n', String c s' => String c (take n' s')
  | _, _ => EmptyString
  end.

(** [s[n:]] *)
Fixpoint drop (n : nat) (s : string) : string :=
  match n, s with
  | S n', String _ s' => drop n' s'
  | _, _ => s
  end.

(** [s.startswith(p)] *)
Definition startswith (s p : string) : bool := prefix p s.

(** [s.isdigit()] for a string of ASCII characters: non-empty and made
    of the digits [0] to [9] only *)
Definition isdigit (s : string) : bool :=
  negb (s =? "")%string && all char_isdigit s.

(** [s.rfind(c)], with [None] for Python's [-1] *)
Fixpoint rfind (c : ascii) (s : string) : option nat :=
  match s with
  | EmptyString => None
  | String a s' =>
      match rfind c s' with
      | Some i => Some (S i)
      | None => if Ascii.eqb a c then Some O else None
      end
  end.

(** [s.split(sep)] for a one-character separator *)
Fixpoint split (sep : ascii) (s : string) : list string :=
  match s with
  | EmptyString => [EmptyString]
  | String a s' =>
      if Ascii.eqb a sep then EmptyString :: split sep s'
      else match split sep s' with
           | [] => [String a EmptyString]
           | w :: ws => String a w :: ws
           end
  end.

(** [sep.join(ls)] *)
Definition join (sep : string) (ls : list string) : string :=
  String.concat sep ls.

(** The characters of a string, for statements that quantify over them. *)
Definition chars (s : string) : list ascii := list_ascii_of_string s.

(** [s.isascii()]: every code point is below 128 *)
Definition isascii (s : string) : bool := all (fun c => (code c <? 128)%N) s.

End Str.

(* ------------------------------------------------------------------ *)
(** ** [pathlib] *)
(* ------------------------------------------------------------------ *)

Module PathLib.

(** [Path(s).name] for a string [s]: the last component that is neither
    empty nor ["."], and [""] when there is none. *)
Definition parts (s : string) : list string :=
  filter (fun x => negb (x =? "")%string && negb (x =? ".")%string)
         (Str.split "/" s).

Definition name_of (s : string) : string := last (parts s) "".

(** [.stem] and [.suffix] of a final component: the split is at the last
    dot, unless that dot is the first or the last character. *)
Definition stem_of (name : string) : string :=
  match Str.rfind "." name with
  | Some i =>
      if (0 <? i)%nat && (i <? String.length name - 1)%nat
      then Str.take i name else name
  | None => name
  end.

Definition suffix_of (name : string) : string :=
  match Str.rfind "." name with
  | Some i =>
      if (0 <? i)%nat && (i <? String.length name - 1)%nat
      then Str.drop i name else ""
  | None => ""
  end.

(** [Path(s).stem], [Path(s).suffix] *)
Definition stem (s : string) : string := stem_of (name_of s).
Definition suffix (s : string) : string := suffix_of (name_of s).

(** A path object built by the script: its components below [/]. *)
Definition path := list string.

(** [p.name], [p.parent], [p / child] *)
Definition name (p : path) : string := last p "".
Definition parent (p : path) : path := removelast p.
Definition joinpath (p : path) (child : string) : path := p ++ [child].

Definition eqb (p q : path) : bool :=
  if list_eq_dec string_dec p q then true else false.

End PathLib.

(* ------------------------------------------------------------------ *)
(** ** Constants *)
(* ------------------------------------------------------------------ *)

Definition SECTOR_SIZE : Z := 512.
Definition TOTAL_SECTORS : Z := 1440.
Definition SYSTEM_SECTORS : Z := 1 + 3 + 3 + 14.
Definition DATA_SECTORS : Z := TOTAL_SECTORS - SYSTEM_SECTORS.
Definition MAX_CLUSTERS : Z := DATA_SECTORS.

Definition MAX_PAYLOAD_BYTES : Z := 600 * 1024.
Definition MAX_FILES_PER_DISK : Z := 60.

Definition VALID_EXTS : list string := [".fil"; ".mid"; ".midi"].
Definition IMAGES_DIRNAME : string := "Images".
Definition MAPPING_FILE : string := "directory_map.txt".

(* ------------------------------------------------------------------ *)
(** ** Helpers *)
(* ------------------------------------------------------------------ *)

(** [''.join(c.upper() for c in stem if c.isalpha())] for a stem of ASCII
    characters *)
Fixpoint upper_letters (stem : string) : string :=
  match stem with
  | EmptyString => EmptyString
  | String c s' =>
      if Str.isalpha c then String (Str.char_upper c) (upper_letters s')
      else upper_letters s'
  end.

Definition get_shortname (filename : string) : string :=
  let stem := PathLib.stem filename in
  let letters := upper_letters stem in
  let letters :=
    if (String.length letters <? 6)%nat then (letters ++ "DKSONG")%string else letters in
  Str.take 6 letters.

(** [str(z)] for an [int] *)
Definition str_of_int (z : Z) : string := NilZero.string_of_int (Z.to_int z).

Fixpoint zeros (n : nat) : string :=
  match n with
  | O => EmptyString
  | S n' => String "0" (zeros n')
  end.

(** [format(z, "0{w}d")], the conversion behind [{idx:02d}] and [{:04d}]:
    the sign, then zeros up to width [w], then the digits. *)
Definition format_0d (w : nat) (z : Z) : string :=
  let sign := if z <? 0 then "-" else "" in
  let digits := str_of_int (Z.abs z) in
  (sign ++ zeros (w - String.length sign - String.length digits) ++ digits)%string.

(** [is_generated_dir].  A [Path] is always truthy, so [par and e] is [e].
    [isdigit] is Python's on names made of ASCII characters; Python also
    takes digits outside ASCII, so among the other names it classifies
    more directories as generated. *)
Definition is_generated_dir (dirpath root : PathLib.path) : bool :=
  if PathLib.eqb dirpath (PathLib.joinpath root IMAGES_DIRNAME) then true
  else
    let par := PathLib.parent dirpath in
    Str.startswith (PathLib.name dirpath) (PathLib.name par ++ "_")
    && Str.isdigit
         (Str.drop (String.length (PathLib.name par) + 1) (PathLib.name dirpath)).

(* ------------------------------------------------------------------ *)
(** ** [get_shortname] on names with any character *)
(* ------------------------------------------------------------------ *)

(** A Python [str] in full is a sequence of code points.  Two methods that
    [get_shortname] calls answer from Python's character tables:
    [c.isalpha()], and [c.upper()], which gives one code point or more.
    Here the tables are a parameter [t]; [Path(filename).stem] splits at
    ["/"] and ["."] only. *)
Module Unicode.

Definition str : Type := list N.

Record tables : Type := mk_tables {
  isalpha : N -> bool;
  upper : N -> str
}.

(** The code points of a string literal. *)
Definition of_string (s : string) : str :=
  List.map N_of_ascii (list_ascii_of_string s).

Definition eqb (a b : str) : bool :=
  if list_eq_dec N.eq_dec a b then true else false.

(** [s.rfind(c)], with [None] for Python's [-1] *)
Fixpoint rfind (c : N) (s : str) : option nat :=
  match s with
  | [] => None
  | a :: s' =>
      match rfind c s' with
      | Some i => Some (S i)
      | None => if (a =? c)%N then Some O else None
      end
  end.

(** [s.split(sep)] for a one-character separator *)
Fixpoint split (sep : N) (s : str) : list str :=
  match s with
  | [] => [[]]
  | a :: s' =>
      if (a =? sep)%N then [] :: split sep s'
      else match split sep s' with
           | [] => [[a]]
           | w :: ws => (a :: w) :: ws
           end
  end.

(** [Path(s).name]: the last component that is neither empty nor ["."] *)
Definition parts (s : str) : list str :=
  filter (fun x => negb (eqb x []) && negb (eqb x (of_string ".")))
         (split 47 s).

Definition name_of (s : str) : str := last (parts s) [].

(** [.stem] of a final component: the split is at the last dot, unless
    that dot is the first or the last character. *)
Definition stem_of (name : str) : str :=
  match rfind 46 name with
  | Some i =>
      if (0 <? i)%nat && (i <? List.length name - 1)%nat
      then firstn i name else name
  | None => name
  end.

(** [Path(s).stem] *)
Definition stem (s : str) : str := stem_of (name_of s).

(** [''.join(c.upper() for c in stem if c.isalpha())] *)
Definition upper_letters (t : tables) (stem : str) : str :=
  flat_map (fun c => if isalpha t c then upper t c else []) stem.

Definition get_shortname (t : tables) (filename : str) : str :=
  let stem := stem filename in
  let letters := upper_letters t stem in
  let letters :=
    if (List.length letters <? 6)%nat then letters ++ of_string "DKSONG"
    else letters in
  firstn 6 letters.

(** [s.isascii()] *)
Definition isascii (s : str) : bool := forallb (fun c => (c <? 128)%N) s.

(** Python's tables on the ASCII characters: the letters are [A-Z] and
    [a-z], and [upper] moves [a-z] onto [A-Z] and leaves the rest. *)
Definition ascii_isalpha (c : N) : bool :=
  ((65 <=? c) && (c <=? 90) || (97 <=? c) && (c <=? 122))%N.

Definition ascii_upper (c : N) : N :=
  if ((97 <=? c) && (c <=? 122))%N then (c - 32)%N else c.

Definition agrees_on_ascii (t : tables) : Prop :=
  forall c, (c < 128)%N ->
            isalpha t c = ascii_isalpha c /\ upper t c = [ascii_upper c].

(** Entries of Python's tables for the examples: the ASCII characters;
    U+01F0 (small j with caron), a letter whose upper-case form is [J]
    followed by U+030C; U+030C (combining caron), not a letter; U+4E2D and
    U+6587 (two CJK ideographs), letters without case.  No statement
    consults this table at another code point. *)
Definition sample_tables : tables :=
  mk_tables
    (fun c => if (c <? 128)%N then ascii_isalpha c
              else existsb (N.eqb c) [496; 20013; 25991]%N)
    (fun c => if (c <? 128)%N then [ascii_upper c]
              else if (c =? 496)%N then [74; 780]%N else [c]).

End Unicode.

(* ------------------------------------------------------------------ *)
(** ** The filesystem as the script sees it *)
(* ------------------------------------------------------------------ *)

(** A directory entry is a regular file with its size or a directory with
    its own entries; a listing keeps the order in which [iterdir] yields. *)
Inductive node : Type :=
| File (st_size : Z)
| Folder (entries : list (string * node)).

Definition listing : Type := list (string * node).

(** A [Path] to a regular file of the directory being processed. *)
Record file : Type := mkfile { fname : string; st_size : Z }.

Definition is_valid_ext (name : string) : bool :=
  existsb (String.eqb (Str.lower (PathLib.suffix_of name))) VALID_EXTS.

(** [[p for p in directory.iterdir()
       if p.is_file() and p.suffix.lower() in VALID_EXTS]] *)
Fixpoint eligible (es : listing) : list file :=
  match es with
  | [] => []
  | (n, File sz) :: es' =>
      if is_valid_ext n then mkfile n sz :: eligible es' else eligible es'
  | (_, Folder _) :: es' => eligible es'
  end.

(** [sorted(l, key=key)] with string keys: a stable sort. *)
Section SortedByKey.
Context {A : Type} (key : A -> string).

Fixpoint insert_by (x : A) (l : list A) : list A :=
  match l with
  | [] => [x]
  | y :: l' =>
      if (key x <=? key y)%string then x :: l else y :: insert_by x l'
  end.

Definition sorted_by (l : list A) : list A := fold_right insert_by [] l.
End SortedByKey.

Definition name_key (f : file) : string := Str.lower (fname f).

(** The sorted list of eligible files both passes start from. *)
Definition sorted_files (es : listing) : list file :=
  sorted_by name_key (eligible es).

(** [enumerate(l)] *)
Fixpoint enumerate_from {A : Type} (i : Z) (l : list A) : list (Z * A) :=
  match l with
  | [] => []
  | x :: l' => (i, x) :: enumerate_from (i + 1) l'
  end.

Definition enumerate {A : Type} (l : list A) : list (Z * A) :=
  enumerate_from 0 l.

(* ------------------------------------------------------------------ *)
(** ** Operations on the entries of one directory (POSIX) *)
(* ------------------------------------------------------------------ *)

Fixpoint lookup (n : string) (es : listing) : option node :=
  match es with
  | [] => None
  | (m, x) :: es' => if (m =? n)%string then Some x else lookup n es'
  end.

Definition remove_entry (n : string) (es : listing) : listing :=
  filter (fun e => negb (fst e =? n)%string) es.

Definition rename_entry (old new : string) (es : listing) : listing :=
  map (fun e => if (fst e =? old)%string then (new, snd e) else e) es.

Definition set_entry (n : string) (x : node) (es : listing) : listing :=
  map (fun e => if (fst e =? n)%string then (n, x) else e) es.

(** [os.rename(old, new)] for two names of the same directory: an existing
    regular file [new] is replaced silently, a directory [new] is refused,
    and renaming a file to itself does nothing.  [None] is a raised
    exception. *)
Definition fs_rename (old new : string) (es : listing) : option listing :=
  match lookup old es with
  | None => None
  | Some _ =>
      if (old =? new)%string then Some es
      else match lookup new es with
           | None => Some (rename_entry old new es)
           | Some (File _) => Some (rename_entry old new (remove_entry new es))
           | Some (Folder _) => None
           end
  end.

(** [(directory / dir).mkdir(exist_ok=True)]: only an existing directory is
    tolerated. *)
Definition fs_mkdir (dir : string) (es : listing) : option listing :=
  match lookup dir es with
  | None => Some (es ++ [(dir, Folder [])])
  | Some (Folder _) => Some es
  | Some (File _) => None
  end.

(** [shutil.move(directory / f, directory / dir / f)] for a regular file
    [f]: the file replaces a regular file of that name in [dir]; when the
    destination is itself a directory the file is moved inside it, unless
    the name is taken there too. *)
Definition fs_move (f dir : string) (es : listing) : option listing :=
  match lookup f es, lookup dir es with
  | Some (File sz), Some (Folder sub) =>
      let es' := remove_entry f es in
      match lookup f sub with
      | None => Some (set_entry dir (Folder (sub ++ [(f, File sz)])) es')
      | Some (File _) => Some (set_entry dir (Folder (set_entry f (File sz) sub)) es')
      | Some (Folder inner) =>
          match lookup f inner with
          | None =>
              Some (set_entry dir
                      (Folder (set_entry f (Folder (inner ++ [(f, File sz)])) sub))
                      es')
          | Some _ => None
          end
      end
  | _, _ => None
  end.

(* ------------------------------------------------------------------ *)
(** ** Renaming *)
(* ------------------------------------------------------------------ *)

(** The body of the loop of [rename_files] up to [new_name]. *)
Definition new_name (idx : Z) (name : string) : string :=
  let short := get_shortname name in
  let short := if idx >? 99 then Str.take 5 short else short in
  let ext :=
    if (Str.lower (PathLib.suffix_of name) =? ".fil")%string
    then ".FIL" else ".MID" in
  (format_0d 2 idx ++ short ++ ext)%string.

(** One iteration: nothing happens when the name is already the computed
    one.  An exception ends the pass. *)
Definition rename_step (acc : option listing) (p : Z * file) : option listing :=
  match acc with
  | None => None
  | Some es =>
      let new := new_name (fst p) (fname (snd p)) in
      if (fname (snd p) =? new)%string then Some es
      else fs_rename (fname (snd p)) new es
  end.

(** [rename_files(directory)] on the entries of [directory]. *)
Definition rename_files (es : listing) : option listing :=
  fold_left rename_step (enumerate (sorted_files es)) (Some es).

(** The new names in the order of the loop, and the renames carried out:
    the pairs (old name, new name) that differ. *)
Definition assigned_names (es : listing) : list string :=
  map (fun p => new_name (fst p) (fname (snd p))) (enumerate (sorted_files es)).

Definition renames_performed (es : listing) : list (string * string) :=
  filter (fun p => negb (fst p =? snd p)%string)
         (map (fun p => (fname (snd p), new_name (fst p) (fname (snd p))))
              (enumerate (sorted_files es))).

(* ------------------------------------------------------------------ *)
(** ** Bucketing *)
(* ------------------------------------------------------------------ *)

Definition rounded_clusters (size : Z) : Z :=
  let q := (size + SECTOR_SIZE - 1) / SECTOR_SIZE in
  if q =? 0 then 1 else q.

(** A bucket directory with the files this pass has moved into it. *)
Record bucket : Type := mkbucket { bucket_dir : string; members : list file }.

(** [f"{base}_{bucket_idx}"] *)
Definition bucket_dirname (base : string) (bucket_idx : Z) : string :=
  (base ++ "_" ++ str_of_int bucket_idx)%string.

(** The variables of the loop of [bucket_files].  [buckets] pairs every
    path of the script's list with what [shutil.move] has put there so
    far; [cur_dir] is the script's [bucket_dir]. *)
Record bstate : Type := mkbstate {
  buckets : list bucket;
  bucket_idx : Z;
  cur_dir : string;
  used_clusters : Z;
  used_bytes : Z;
  file_count : Z
}.

(** [shutil.move(str(f), bucket_dir / f.name)] *)
Definition move_into (dir : string) (f : file) (bs : list bucket) : list bucket :=
  map (fun b => if (bucket_dir b =? dir)%string
                then mkbucket (bucket_dir b) (members b ++ [f]) else b) bs.

(** The test of lines 108-112, on the counters of the open bucket. *)
Definition needs_new_bucket (st : bstate) (f : file) : bool :=
  let size := st_size f in
  let clusters := rounded_clusters size in
  (used_clusters st + clusters >? MAX_CLUSTERS)
  || (used_bytes st + size >? MAX_PAYLOAD_BYTES)
  || (file_count st + 1 >? MAX_FILES_PER_DISK).

(** Lines 115-119: the next bucket directory is made and the counters
    start again from zero. *)
Definition open_bucket (base : string) (st : bstate) : bstate :=
  let bucket_idx := bucket_idx st + 1 in
  let dir := bucket_dirname base bucket_idx in
  mkbstate (buckets st ++ [mkbucket dir []]) bucket_idx dir 0 0 0.

(** Lines 121-124: the file is moved and counted. *)
Definition place_file (st : bstate) (f : file) : bstate :=
  let size := st_size f in
  let clusters := rounded_clusters size in
  mkbstate (move_into (cur_dir st) f (buckets st)) (bucket_idx st) (cur_dir st)
           (used_clusters st + clusters) (used_bytes st + size)
           (file_count st + 1).

(** One iteration of the loop. *)
Definition bucket_step (base : string) (st : bstate) (f : file) : bstate :=
  place_file (if needs_new_bucket st f then open_bucket base st else st) f.

Definition bucket_init (base : string) : bstate :=
  let dir := bucket_dirname base 1 in
  mkbstate [mkbucket dir []] 1 dir 0 0 0.

(** [bucket_files(directory)], with [base = directory.name] and [es] the
    entries of [directory]: the bucket directories in the order in which
    they were opened, each with the files moved into it. *)
Definition bucket_files (base : string) (es : listing) : list bucket :=
  let files := sorted_files es in
  match files with
  | [] => []
  | _ => buckets (fold_left (bucket_step base) files (bucket_init base))
  end.

(** The effect of [bucket_files] on the entries of the directory: every
    bucket directory is made when it is opened and receives its files in
    the order of the loop. *)
Definition place_members (dir : string) (acc : option listing) (f : file)
  : option listing :=
  match acc with
  | None => None
  | Some es => fs_move (fname f) dir es
  end.

Definition place_bucket (acc : option listing) (b : bucket) : option listing :=
  match acc with
  | None => None
  | Some es =>
      fold_left (place_members (bucket_dir b)) (members b)
                (fs_mkdir (bucket_dir b) es)
  end.

Definition place_buckets (bs : list bucket) (es : listing) : option listing :=
  fold_left place_bucket bs (Some es).

(* ------------------------------------------------------------------ *)
(** ** Recursion driver *)
(* ------------------------------------------------------------------ *)

(** What the walk does, in order: the calls of [rename_files] and
    [bucket_files] with the bucket directories returned, every image built
    and converted, and every enumeration of child directories. *)
Inductive event : Type :=
| Renamed (directory : PathLib.path)
| Bucketed (directory : PathLib.path) (created : list PathLib.path)
| Built (folder : string) (bucket : PathLib.path) (img hfe : string)
| Listed (directory : PathLib.path).

(** The state shared by the whole run: [counter[0]], [mapping] (a
    dictionary that keeps insertion order) and the trace. *)
Record run : Type := mkrun {
  counter : Z;
  mapping : list (string * list string);
  log : list event
}.

Inductive result (A : Type) : Type :=
| Done (a : A)
| Raised
| Exhausted.
Arguments Done {A} a.
Arguments Raised {A}.
Arguments Exhausted {A}.

Definition emit (e : event) (st : run) : run :=
  mkrun (counter st) (mapping st) (log st ++ [e]).

(** [mapping[key].append(v)] on a [defaultdict(list)] *)
Fixpoint record (key v : string) (m : list (string * list string))
  : list (string * list string) :=
  match m with
  | [] => [(key, [v])]
  | (k, vs) :: m' =>
      if (k =? key)%string then (k, vs ++ [v]) :: m'
      else (k, vs) :: record key v m'
  end.

(** [str(directory.relative_to(root))]; [None] is the [ValueError]. *)
Fixpoint relative_to (directory root : PathLib.path) : option PathLib.path :=
  match root, directory with
  | [] , _ => Some directory
  | r :: root', d :: directory' =>
      if (r =? d)%string then relative_to directory' root' else None
  | _ :: _, [] => None
  end.

Definition str_of_relative (rel : PathLib.path) : string :=
  match rel with
  | [] => "."
  | _ => Str.join "/" rel
  end.

(** [IMG_TEMPLATE.format(idx)] *)
Definition IMG_TEMPLATE (idx : Z) : string := ("DSKA" ++ format_0d 4 idx)%string.

(** The loop of lines 151-159 over the buckets returned.  [tools] tells
    whether [build_image] and [convert_to_hfe] succeed for an image. *)
Fixpoint build_images (tools : string -> bool) (directory root : PathLib.path)
    (bs : list bucket) (st : run) : run * result unit :=
  match bs with
  | [] => (st, Done tt)
  | b :: bs' =>
      let idx := counter st in
      let st := mkrun (counter st + 1) (mapping st) (log st) in
      let base := IMG_TEMPLATE idx in
      let img := (base ++ ".img")%string in
      let hfe := (base ++ ".hfe")%string in
      match relative_to directory root with
      | None => (st, Raised)
      | Some rel =>
          if tools img then
            let folder := str_of_relative rel in
            let st :=
              mkrun (counter st) (record folder hfe (mapping st))
                    (log st ++ [Built folder (PathLib.joinpath directory (bucket_dir b))
                                      img hfe]) in
            build_images tools directory root bs' st
          else (st, Raised)
      end
  end.

(** [for child in directory.iterdir(): if child.is_dir(): walk(child)] *)
Fixpoint for_children
    (walk : PathLib.path -> listing -> run -> run * result listing)
    (directory : PathLib.path) (es : listing) (st : run) : run * result listing :=
  match es with
  | [] => (st, Done [])
  | (n, File sz) :: es' =>
      match for_children walk directory es' st with
      | (st', Done es'') => (st', Done ((n, File sz) :: es''))
      | other => other
      end
  | (n, Folder sub) :: es' =>
      match walk (PathLib.joinpath directory n) sub st with
      | (st', Done sub') =>
          match for_children walk directory es' st' with
          | (st'', Done es'') => (st'', Done ((n, Folder sub') :: es''))
          | other => other
          end
      | (st', Raised) => (st', Raised)
      | (st', Exhausted) => (st', Exhausted)
      end
  end.

(** [process_directory(directory, root, images_dir, counter, mapping)] on
    the entries [es] of [directory]; it returns the entries as the walk
    leaves them.  The recursion of the script is general, so the model
    counts the depth of the calls down from [fuel]. *)
Fixpoint process_directory (fuel : nat) (tools : string -> bool)
    (directory root : PathLib.path) (es : listing) (st : run)
  : run * result listing :=
  match fuel with
  | O => (st, Exhausted)
  | S fuel' =>
      if is_generated_dir directory root then (st, Done es)
      else
        let st := emit (Renamed directory) st in
        match rename_files es with
        | None => (st, Raised)
        | Some es =>
            let bs := bucket_files (PathLib.name directory) es in
            let st :=
              emit (Bucketed directory
                      (map (fun b => PathLib.joinpath directory (bucket_dir b)) bs))
                   st in
            match place_buckets bs es with
            | None => (st, Raised)
            | Some es =>
                match build_images tools directory root bs st with
                | (st, Done _) =>
                    let st := emit (Listed directory) st in
                    for_children
                      (fun child sub => process_directory fuel' tools child root sub)
                      directory es st
                | (st, Raised) => (st, Raised)
                | (st, Exhausted) => (st, Exhausted)
                end
            end
        end
  end.

(* ------------------------------------------------------------------ *)
(** ** Entry point *)
(* ------------------------------------------------------------------ *)

Definition newline : string := String "010" EmptyString.

(** The lines that [main] writes to the mapping file, one [fp.write] each. *)
Definition render (m : list (string * list string)) : list string :=
  map (fun kv => (fst kv ++ " > " ++ Str.join ", " (snd kv) ++ newline)%string) m.

(** [main] from the creation of the images directory on, for a root
    directory with entries [es]: the final state, and the lines written
    when the walk has completed. *)
Definition main (fuel : nat) (tools : string -> bool) (root : PathLib.path)
    (es : listing) : run * result (list string) :=
  match fs_mkdir IMAGES_DIRNAME es with
  | None => (mkrun 0 [] [], Raised)
  | Some es =>
      match process_directory fuel tools root root es (mkrun 0 [] []) with
      | (st, Done _) => (st, Done (render (mapping st)))
      | (st, Raised) => (st, Raised)
      | (st, Exhausted) => (st, Exhausted)
      end
  end.

(* ------------------------------------------------------------------ *)
(** ** Vocabulary of the statements *)
(* ------------------------------------------------------------------ *)

(** Order of two values by their sort key. *)
Definition key_le {A : Type} (key : A -> string) (x y : A) : Prop :=
  (key x <=? key y)%string = true.

(** The three totals of a list of files: clusters, bytes and count. *)
Definition total_clusters (fs : list file) : Z :=
  fold_right (fun f acc => rounded_clusters (st_size f) + acc) 0 fs.

Definition total_bytes (fs : list file) : Z :=
  fold_right (fun f acc => st_size f + acc) 0 fs.

Definition total_count (fs : list file) : Z := Z.of_nat (List.length fs).

(** A bucket respects a ceiling, or it holds one file that alone is over
    it; the count ceiling cannot be exceeded by one file. *)
Definition within_ceilings (b : bucket) : Prop :=
  (total_clusters (members b) <= MAX_CLUSTERS
   \/ exists f, members b = [f] /\ MAX_CLUSTERS < rounded_clusters (st_size f))
  /\ (total_bytes (members b) <= MAX_PAYLOAD_BYTES
      \/ exists f, members b = [f] /\ MAX_PAYLOAD_BYTES < st_size f)
  /\ total_count (members b) <= MAX_FILES_PER_DISK.

(** The names [base_1 .. base_n]. *)
Definition dirnames (base : string) (n : nat) : list string :=
  map (fun i => bucket_dirname base (Z.of_nat i)) (seq 1 n).

(** Invariant of the loop of [bucket_files] once the files [done] have
    been moved: the closed buckets, then the open one whose totals the
    three counters hold. *)
Definition bucket_inv (base : string) (done : list file) (st : bstate) : Prop :=
  exists closed cur,
    buckets st = closed ++ [cur]
    /\ map bucket_dir closed = dirnames base (List.length closed)
    /\ bucket_dir cur = bucket_dirname base (Z.of_nat (S (List.length closed)))
    /\ bucket_idx st = Z.of_nat (S (List.length closed))
    /\ cur_dir st = bucket_dir cur
    /\ List.concat (map members closed) ++ members cur = done
    /\ used_clusters st = total_clusters (members cur)
    /\ used_bytes st = total_bytes (members cur)
    /\ file_count st = total_count (members cur)
    /\ Forall within_ceilings closed
    /\ within_ceilings cur.

(** The value of a string of decimal digits. *)
Fixpoint digits_value (acc : Z) (s : string) : Z :=
  match s with
  | EmptyString => acc
  | String c s' => digits_value (10 * acc + (Z.of_N (Str.code c) - 48)) s'
  end.

(** The shape that [is_generated_dir] tests: the images directory directly
    under the root, or the name of the parent, then ["_"], then a
    non-empty string of the digits [0] to [9]. *)
Definition generated_shape (dirpath root : PathLib.path) : Prop :=
  dirpath = PathLib.joinpath root IMAGES_DIRNAME
  \/ exists digits,
       PathLib.name dirpath
       = (PathLib.name (PathLib.parent dirpath) ++ "_" ++ digits)%string
       /\ digits <> ""
       /\ Str.all Str.char_isdigit digits = true.

(** The classification as the specification words it: the images
    directory directly under the root, or the name of the parent, then
    ["_"], then a positive integer (written in decimal digits, leading
    zeros tolerated). *)
Definition spec_generated (dirpath root : PathLib.path) : Prop :=
  dirpath = PathLib.joinpath root IMAGES_DIRNAME
  \/ exists digits,
       PathLib.name dirpath
       = (PathLib.name (PathLib.parent dirpath) ++ "_" ++ digits)%string
       /\ Str.isdigit digits = true
       /\ 0 < digits_value 0 digits.

(** The decimal digits a name starts with and what follows them, and the
    number those digits denote. *)
Fixpoint span_digits (s : string) : string * string :=
  match s with
  | EmptyString => (EmptyString, EmptyString)
  | String c s' =>
      if Str.char_isdigit c
      then (String c (fst (span_digits s')), snd (span_digits s'))
      else (EmptyString, s)
  end.

Definition leading_index (s : string) : option Z :=
  option_map Z.of_uint (NilEmpty.uint_of_string (fst (span_digits s))).

(** A string that does not start with a digit. *)
Definition no_leading_digit (s : string) : Prop :=
  match s with
  | EmptyString => True
  | String c _ => Str.char_isdigit c = false
  end.

(** The directory an event works on: the one renamed, bucketed or whose
    children are enumerated. *)
Definition visited (e : event) : option PathLib.path :=
  match e with
  | Renamed d | Bucketed d _ | Listed d => Some d
  | Built _ _ _ _ => None
  end.

(** [d] lies at or below [start], and no directory on the way from
    [start] down to [d], both included, is classified as generated. *)
Definition clear_below (root start d : PathLib.path) : Prop :=
  exists rel,
    d = start ++ rel
    /\ forall k, (k <= List.length rel)%nat ->
                 is_generated_dir (start ++ firstn k rel) root = false.

(** What holds of every event of a walk started at [start]: the directory
    it works on is clear; the bucket directories returned are classified
    as generated; an image is recorded under the root-relative path of
    the directory that holds its bucket. *)
Definition event_ok (root start : PathLib.path) (e : event) : Prop :=
  match e with
  | Renamed d | Listed d => clear_below root start d
  | Bucketed d created =>
      clear_below root start d
      /\ Forall (fun b => PathLib.parent b = d /\ is_generated_dir b root = true)
                created
  | Built folder bucket _ _ =>
      is_generated_dir bucket root = true
      /\ option_map str_of_relative (relative_to (PathLib.parent bucket) root)
         = Some folder
  end.

(** The pairs (directory, container) recorded by a trace, in order. *)
Definition recorded (evs : list event) : list (string * string) :=
  flat_map (fun e => match e with
                     | Built folder _ _ hfe => [(folder, hfe)]
                     | _ => []
                     end) evs.

Definition record_all (rs : list (string * string))
    (m : list (string * list string)) : list (string * list string) :=
  fold_left (fun m kv => record (fst kv) (snd kv) m) rs m.

(** The keys in the order of their first occurrence, and the values
    recorded under a key, in order. *)
Fixpoint first_occurrences (keys : list string) : list string :=
  match keys with
  | [] => []
  | k :: ks => k :: filter (fun x => negb (x =? k)%string) (first_occurrences ks)
  end.

Definition values_of (key : string) (rs : list (string * string)) : list string :=
  map snd (filter (fun kv => (fst kv =? key)%string) rs).

(** The state [st'] comes from [st] by a piece of walk started at
    [start]. *)
Definition extends (root start : PathLib.path) (st st' : run) : Prop :=
  exists evs,
    log st' = log st ++ evs
    /\ mapping st' = record_all (recorded evs) (mapping st)
    /\ Forall (event_ok root start) evs.

(** A small tree to run the script on: two songs and a text file at the
    root, a sub-directory with one song and a bucket directory left by an
    earlier run, and the images directory. *)
Definition example_root : PathLib.path := ["home"; "u"; "Music"].

Definition example_tree : listing :=
  [ ("b.mid", File 300000); ("a.MIDI", File 400000); ("notes.txt", File 10);
    ("Sub", Folder [("x.fil", File 5); ("Sub_7", Folder [("old.mid", File 1)])]);
    ("Images", Folder []) ].

(** The height of a tree of directories: the number of nested levels of
    directories below a listing. *)
Fixpoint depth (x : node) : nat :=
  match x with
  | File _ => O
  | Folder es =>
      S ((fix levels (l : listing) : nat :=
            match l with
            | [] => O
            | (_, y) :: l' => Nat.max (depth y) (levels l')
            end) es)
  end.

Fixpoint listing_depth (es : listing) : nat :=
  match es with
  | [] => O
  | (_, y) :: es' => Nat.max (depth y) (listing_depth es')
  end.

(** Every entry of [es'] carries a node that [es] had. *)
Definition nodes_from (es es' : listing) : Prop :=
  forall n x, In (n, x) es' -> exists n', In (n', x) es.

(** Every directory of [es'] was in [es] as it is, or bears one of the
    names [dirs]. *)
Definition folders_from (dirs : list string) (es es' : listing) : Prop :=
  forall n sub, In (n, Folder sub) es' -> In n dirs \/ In (n, Folder sub) es.

(** The test of [bucket_files] on the files already in the open bucket:
    would one more file exceed a ceiling. *)
Definition overflow_test (ms : list file) (f : file) : bool :=
  (total_clusters ms + rounded_clusters (st_size f) >? MAX_CLUSTERS)
  || (total_bytes ms + st_size f >? MAX_PAYLOAD_BYTES)
  || (total_count ms + 1 >? MAX_FILES_PER_DISK).

(** The partition that the loop of [bucket_files] builds, written on the
    lists of files alone: [ms] is the open bucket. *)
Fixpoint pack (ms : list file) (files : list file) : list (list file) :=
  match files with
  | [] => [ms]
  | f :: rest =>
      if overflow_test ms f then ms :: pack [f] rest
      else pack (ms ++ [f]) rest
  end.

(** A relation that holds of every two neighbours of a list. *)
Fixpoint adjacent {A : Type} (R : A -> A -> Prop) (l : list A) : Prop :=
  match l with
  | x :: ((y :: _) as l') => R x y /\ adjacent R l'
  | _ => True
  end.

(** [mapping[key]] read on the dictionary: the list under [key], empty
    for a key that is not there. *)
Fixpoint mapping_get (key : string) (m : list (string * list string)) : list string :=
  match m with
  | [] => []
  | (k, vs) :: m' => if (k =? key)%string then vs else mapping_get key m'
  end.

(** A path component as a filesystem has them: without ["/"] and not
    ["."]. *)
Definition plain_component (c : string) : Prop :=
  Str.all (fun a => negb (Ascii.eqb a "/")) c = true /\ c <> ".".

(** What a trace says of the images: the pairs (image, converted image)
    built, the bucket directories they were built from, and the bucket
    directories that [bucket_files] returned, all in order. *)
Definition built_images (evs : list event) : list (string * string) :=
  flat_map (fun e => match e with
                     | Built _ _ img hfe => [(img, hfe)]
                     | _ => []
                     end) evs.

Definition built_buckets (evs : list event) : list PathLib.path :=
  flat_map (fun e => match e with
                     | Built _ bucket _ _ => [bucket]
                     | _ => []
                     end) evs.

Definition created_dirs (evs : list event) : list PathLib.path :=
  flat_map (fun e => match e with
                     | Bucketed _ created => created
                     | _ => []
                     end) evs.

(** The [n] image names that follow from the counter value [c]. *)
Definition images_from (c : Z) (n : nat) : list (string * string) :=
  map (fun k => ((IMG_TEMPLATE (c + Z.of_nat k) ++ ".img")%string,
                 (IMG_TEMPLATE (c + Z.of_nat k) ++ ".hfe")%string))
      (seq 0 n).

Definition is_done {A : Type} (r : result A) : bool :=
  match r with
  | Done _ => true
  | _ => false
  end.

(** A piece of run from [st] to [st'] with outcome [r] numbers its images
    from the counter without a gap, builds the buckets in the order in
    which they were returned, and has built all of them when it
    completes. *)
Definition counted {A : Type} (st st' : run) (r : result A) : Prop :=
  exists evs,
    log st' = log st ++ evs
    /\ built_images evs
       = images_from (counter st) (List.length (built_images evs))
    /\ counter st + Z.of_nat (List.length (built_images evs)) <= counter st'
    /\ counter st' <= counter st + Z.of_nat (List.length (built_images evs)) + 1
    /\ (exists rest, created_dirs evs = built_buckets evs ++ rest)
    /\ (is_done r = true ->
        counter st' = counter st + Z.of_nat (List.length (built_images evs))
        /\ created_dirs evs = built_buckets evs).

(** The entry of a regular file, the entry of a bucket directory that holds
    its files and nothing else, and the entries that the two passes treat
    as files to work on. *)
Definition file_entry (f : file) : string * node := (fname f, File (st_size f)).

Definition bucket_entry (b : bucket) : string * node :=
  (bucket_dir b, Folder (map file_entry (members b))).

Definition is_eligible_entry (e : string * node) : bool :=
  match snd e with
  | File _ => is_valid_ext (fst e)
  | Folder _ => false
  end.

(** Between [st] and [st'] no image was built, no bucket directory was
    returned, and the counter and the mapping are as they were. *)
Definition nothing_built (st st' : run) : Prop :=
  counter st' = counter st
  /\ mapping st' = mapping st
  /\ exists evs, log st' = log st ++ evs
                 /\ built_images evs = [] /\ created_dirs evs = [].

(** A walk that builds nothing and leaves the entries [es] as they are,
    when it is not cut short. *)
Definition quiet (st : run) (es : listing) (out : run * result listing) : Prop :=
  nothing_built st (fst out) /\ (snd out = Done es \/ snd out = Exhausted).

(* ================================================================== *)
(** * Properties *)
(* ================================================================== *)

(** ** Strings and decimal numerals *)

Lemma append_inv_head (p a b : string) :
  (p ++ a)%string = (p ++ b)%string -> a = b.
Proof.
  induction p as [|c p IH]; simpl; intros H; [assumption|].
  injection H as H. auto.
Qed.

Lemma to_int_proper (z : Z) : Z.to_int z <> Pos Nil /\ Z.to_int z <> Neg Nil.
Proof.
  destruct z as [|p|p]; simpl; split; try discriminate;
    intros [= H]; exact (DecimalPos.Unsigned.to_uint_nonnil p H).
Qed.

Lemma str_of_int_inj (a b : Z) : str_of_int a = str_of_int b -> a = b.
Proof.
  unfold str_of_int. intros H.
  apply DecimalZ.to_int_inj.
  destruct (to_int_proper a) as [Ha1 Ha2], (to_int_proper b) as [Hb1 Hb2].
  pose proof (NilZero.isi _ Ha1 Ha2) as Ia.
  pose proof (NilZero.isi _ Hb1 Hb2) as Ib.
  rewrite H in Ia. congruence.
Qed.

Lemma bucket_dirname_inj (base : string) (i j : Z) :
  bucket_dirname base i = bucket_dirname base j -> i = j.
Proof.
  unfold bucket_dirname. intros H.
  apply append_inv_head in H. apply append_inv_head in H.
  now apply str_of_int_inj.
Qed.

(** ** Sorting *)

Section SortedByKeyFacts.
Context {A : Type} (key : A -> string).

Local Abbreviation key_le := (key_le key).

Lemma insert_by_perm (x : A) (l : list A) :
  Permutation (insert_by key x l) (x :: l).
Proof.
  induction l as [|y l IH]; simpl; [reflexivity|].
  destruct (key x <=? key y)%string; [reflexivity|].
  rewrite IH. apply perm_swap.
Qed.

Lemma sorted_by_perm (l : list A) : Permutation (sorted_by key l) l.
Proof.
  induction l as [|x l IH]; simpl; [reflexivity|].
  rewrite insert_by_perm. now constructor.
Qed.

Lemma insert_by_hdrel (a x : A) (l : list A) :
  key_le a x -> HdRel key_le a l -> HdRel key_le a (insert_by key x l).
Proof.
  intros Hax Hl. destruct l as [|y l]; simpl; [now constructor|].
  destruct (key x <=? key y)%string; constructor;
    [assumption | now inversion Hl].
Qed.

Lemma insert_by_sorted (x : A) (l : list A) :
  Sorted key_le l -> Sorted key_le (insert_by key x l).
Proof.
  induction 1 as [|y l Hs IH Hhd]; simpl; [repeat constructor|].
  destruct (key x <=? key y)%string eqn:E.
  - constructor; [now constructor | now constructor].
  - constructor; [assumption|].
    apply insert_by_hdrel; [|assumption].
    unfold key_le. destruct (String.leb_total (key x) (key y)); congruence.
Qed.

Lemma sorted_by_sorted (l : list A) : Sorted key_le (sorted_by key l).
Proof.
  induction l as [|x l IH]; simpl; [constructor|].
  now apply insert_by_sorted.
Qed.

Lemma sorted_by_nil_inv (l : list A) : sorted_by key l = [] -> l = [].
Proof.
  intros H. pose proof (sorted_by_perm l) as P. rewrite H in P.
  now apply Permutation_nil in P.
Qed.
End SortedByKeyFacts.

(** ** Bucketing *)

Lemma total_clusters_snoc (fs : list file) (f : file) :
  total_clusters (fs ++ [f]) = total_clusters fs + rounded_clusters (st_size f).
Proof. unfold total_clusters. induction fs; simpl; lia. Qed.

Lemma total_bytes_snoc (fs : list file) (f : file) :
  total_bytes (fs ++ [f]) = total_bytes fs + st_size f.
Proof. unfold total_bytes. induction fs; simpl; lia. Qed.

Lemma total_count_snoc (fs : list file) (f : file) :
  total_count (fs ++ [f]) = total_count fs + 1.
Proof. unfold total_count. rewrite length_app. simpl. lia. Qed.

Lemma dirnames_snoc (base : string) (n : nat) :
  dirnames base (S n) = dirnames base n ++ [bucket_dirname base (Z.of_nat (S n))].
Proof. unfold dirnames. now rewrite seq_S, map_app. Qed.

Lemma dirnames_below (base : string) (n m : nat) (d : string) :
  In d (dirnames base n) -> (n < m)%nat -> d <> bucket_dirname base (Z.of_nat m).
Proof.
  unfold dirnames. intros Hin Hlt ->.
  apply in_map_iff in Hin as (i & Hi & Hseq).
  apply bucket_dirname_inj in Hi. apply in_seq in Hseq. lia.
Qed.

Lemma move_into_other (dir : string) (f : file) (bs : list bucket) :
  Forall (fun b => bucket_dir b <> dir) bs -> move_into dir f bs = bs.
Proof.
  induction 1 as [|b bs Hb _ IH]; simpl; [reflexivity|].
  rewrite IH. apply String.eqb_neq in Hb. now rewrite Hb.
Qed.

Lemma move_into_open (dir : string) (f : file) (bs : list bucket) (cur : bucket) :
  Forall (fun b => bucket_dir b <> dir) bs -> bucket_dir cur = dir ->
  move_into dir f (bs ++ [cur]) = bs ++ [mkbucket dir (members cur ++ [f])].
Proof.
  intros Hbs Hcur. unfold move_into. rewrite map_app.
  fold (move_into dir f bs). rewrite move_into_other by assumption.
  simpl. rewrite Hcur, String.eqb_refl. reflexivity.
Qed.

Lemma closed_dirs_differ (base : string) (closed : list bucket) (m : nat) :
  map bucket_dir closed = dirnames base (List.length closed) ->
  (List.length closed < m)%nat ->
  Forall (fun b => bucket_dir b <> bucket_dirname base (Z.of_nat m)) closed.
Proof.
  intros Hd Hm. apply Forall_forall. intros b Hb.
  apply (dirnames_below base (List.length closed)); [|assumption].
  rewrite <- Hd. now apply in_map.
Qed.

Lemma within_ceilings_single (dir : string) (f : file) :
  within_ceilings (mkbucket dir [f]).
Proof.
  unfold within_ceilings, total_clusters, total_bytes, total_count; simpl.
  repeat split.
  - destruct (Z_le_gt_dec (rounded_clusters (st_size f)) MAX_CLUSTERS);
      [left; lia | right; exists f; split; [reflexivity | lia]].
  - destruct (Z_le_gt_dec (st_size f) MAX_PAYLOAD_BYTES);
      [left; lia | right; exists f; split; [reflexivity | lia]].
  - unfold MAX_FILES_PER_DISK. lia.
Qed.

Lemma bucket_init_inv (base : string) : bucket_inv base [] (bucket_init base).
Proof.
  exists [], (mkbucket (bucket_dirname base 1) []). simpl.
  repeat split; try reflexivity; try constructor;
    unfold total_clusters, total_bytes, total_count,
      MAX_CLUSTERS, DATA_SECTORS, TOTAL_SECTORS, SYSTEM_SECTORS,
      MAX_PAYLOAD_BYTES, MAX_FILES_PER_DISK; simpl; try lia; left; lia.
Qed.

Lemma within_ceilings_empty (dir : string) : within_ceilings (mkbucket dir []).
Proof.
  unfold within_ceilings; simpl. repeat split; try (left; discriminate).
  discriminate.
Qed.

Lemma open_bucket_inv (base : string) (done : list file) (st : bstate) :
  bucket_inv base done st ->
  bucket_inv base done (open_bucket base st) /\ file_count (open_bucket base st) = 0.
Proof.
  intros (closed & cur & Hb & Hdirs & Hcur & Hidx & Hcd & Hdone & Hc & Hy & Hn
          & Hclosed & Hopen).
  split; [|reflexivity].
  exists (closed ++ [cur]), (mkbucket (bucket_dirname base (bucket_idx st + 1)) []).
  unfold open_bucket; cbn [buckets bucket_idx cur_dir used_clusters used_bytes
                            file_count bucket_dir members].
  rewrite !map_app, concat_app, !length_app. simpl List.length.
  replace (List.length closed + 1)%nat with (S (List.length closed)) by lia.
  rewrite dirnames_snoc, Hdirs, Hidx. cbn [map List.concat].
  rewrite !app_nil_r.
  replace (Z.of_nat (S (List.length closed)) + 1)
    with (Z.of_nat (S (S (List.length closed)))) by lia.
  split; [now rewrite Hb|].
  split; [now rewrite Hcur|].
  repeat (split; [reflexivity|]).
  split; [assumption|].
  repeat (split; [reflexivity|]).
  split; [apply Forall_app; split; [assumption | now constructor]|].
  apply within_ceilings_empty.
Qed.

Lemma place_file_inv (base : string) (done : list file) (st : bstate) (f : file) :
  bucket_inv base done st ->
  needs_new_bucket st f = false \/ file_count st = 0 ->
  bucket_inv base (done ++ [f]) (place_file st f).
Proof.
  intros (closed & cur & Hb & Hdirs & Hcur & Hidx & Hcd & Hdone & Hc & Hy & Hn
          & Hclosed & Hopen) Hfit.
  exists closed, (mkbucket (cur_dir st) (members cur ++ [f])).
  unfold place_file; cbn [buckets bucket_idx cur_dir used_clusters used_bytes
                           file_count bucket_dir members].
  rewrite Hb, move_into_open;
    [| rewrite Hcd, Hcur; apply closed_dirs_differ; [assumption | lia]
     | now symmetry ].
  rewrite total_clusters_snoc, total_bytes_snoc, total_count_snoc.
  split; [reflexivity|].
  split; [assumption|].
  split; [congruence|].
  split; [assumption|].
  split; [reflexivity|].
  split; [rewrite <- Hdone; now rewrite app_assoc|].
  split; [congruence|].
  split; [congruence|].
  split; [congruence|].
  split; [assumption|].
  destruct Hfit as [Hfit|Hzero].
  - unfold needs_new_bucket in Hfit.
    apply orb_false_elim in Hfit as [Hfit Gn].
    apply orb_false_elim in Hfit as [Gc Gy].
    destruct (Z.gtb_spec (used_clusters st + rounded_clusters (st_size f))
                MAX_CLUSTERS); [discriminate|].
    destruct (Z.gtb_spec (used_bytes st + st_size f) MAX_PAYLOAD_BYTES);
      [discriminate|].
    destruct (Z.gtb_spec (file_count st + 1) MAX_FILES_PER_DISK); [discriminate|].
    unfold within_ceilings; cbn [members].
    rewrite total_clusters_snoc, total_bytes_snoc, total_count_snoc.
    repeat split; [left; lia | left; lia | lia].
  - assert (members cur = []) as ->.
    { rewrite Hn in Hzero. unfold total_count in Hzero.
      destruct (members cur); [reflexivity | simpl in Hzero; lia]. }
    apply within_ceilings_single.
Qed.

Lemma bucket_step_inv (base : string) (done : list file) (st : bstate) (f : file) :
  bucket_inv base done st -> bucket_inv base (done ++ [f]) (bucket_step base st f).
Proof.
  intros Hinv. unfold bucket_step.
  destruct (needs_new_bucket st f) eqn:E.
  - destruct (open_bucket_inv base done st Hinv) as [Hinv' Hz].
    apply place_file_inv; [assumption | now right].
  - apply place_file_inv; [assumption | now left].
Qed.

Lemma bucket_loop_inv (base : string) (files done : list file) (st : bstate) :
  bucket_inv base done st ->
  bucket_inv base (done ++ files) (fold_left (bucket_step base) files st).
Proof.
  revert done st. induction files as [|f files IH]; simpl; intros done st Hinv.
  - now rewrite app_nil_r.
  - replace (done ++ f :: files) with ((done ++ [f]) ++ files)
      by (now rewrite <- app_assoc).
    apply IH. now apply bucket_step_inv.
Qed.

Lemma bucket_files_inv (base : string) (es : listing) :
  sorted_files es <> [] ->
  bucket_inv base (sorted_files es)
    (fold_left (bucket_step base) (sorted_files es) (bucket_init base))
  /\ bucket_files base es
     = buckets (fold_left (bucket_step base) (sorted_files es) (bucket_init base)).
Proof.
  intros Hne. split.
  - apply (bucket_loop_inv base (sorted_files es) []), bucket_init_inv.
  - unfold bucket_files. destruct (sorted_files es); [contradiction | reflexivity].
Qed.

(** C1 (the script departs from it).  When the only eligible file of a
    directory is larger than the byte ceiling, or needs more clusters than
    the cluster ceiling, the test of lines 108-112 is true on the counters
    of the bucket opened before the loop, all zero: a second bucket is
    opened for the file and the first one is returned empty. *)
Theorem oversized_first_file_leaves_empty_bucket
    (base name : string) (size : Z) :
  is_valid_ext name = true ->
  MAX_PAYLOAD_BYTES < size \/ MAX_CLUSTERS < rounded_clusters size ->
  needs_new_bucket (bucket_init base) (mkfile name size) = true
  /\ bucket_files base [(name, File size)]
     = [ mkbucket (bucket_dirname base 1) [];
         mkbucket (bucket_dirname base 2) [mkfile name size] ].
Proof.
  intros Hext Hbig.
  assert (needs_new_bucket (bucket_init base) (mkfile name size) = true) as Hn.
  { unfold needs_new_bucket; cbn [bucket_init used_clusters used_bytes file_count st_size].
    destruct Hbig as [Hb|Hc].
    - destruct (Z.gtb_spec (0 + size) MAX_PAYLOAD_BYTES); [|lia].
      now rewrite orb_true_r.
    - destruct (Z.gtb_spec (0 + rounded_clusters size) MAX_CLUSTERS); [|lia].
      reflexivity. }
  split; [assumption|].
  unfold bucket_files, sorted_files. cbn [eligible]. rewrite Hext.
  cbn [sorted_by fold_right insert_by fold_left].
  unfold bucket_step. rewrite Hn.
  unfold place_file, open_bucket, bucket_init, move_into.
  cbn -[bucket_dirname String.eqb].
  destruct (String.eqb_spec (bucket_dirname base 1) (bucket_dirname base 2)) as [E|_].
  - apply bucket_dirname_inj in E. discriminate.
  - now rewrite String.eqb_refl.
Qed.

Lemma oversized_first_file_leaves_empty_bucket_witness :
  needs_new_bucket (bucket_init "Songs") (mkfile "big.mid" 700000) = true
  /\ bucket_files "Songs" [("big.mid", File 700000)]
     = [ mkbucket "Songs_1" [];
         mkbucket "Songs_2" [mkfile "big.mid" 700000] ].
Proof.
  apply (oversized_first_file_leaves_empty_bucket "Songs" "big.mid" 700000).
  - reflexivity.
  - left. reflexivity.
Defined.

(** C2.  Every bucket that [bucket_files] returns keeps its cluster total
    within [MAX_CLUSTERS] (1419) and its byte total within
    [MAX_PAYLOAD_BYTES] (600 * 1024), unless it consists of one file that
    alone exceeds that ceiling; its file count is always within
    [MAX_FILES_PER_DISK] (60). *)
Theorem bucket_ceilings (base : string) (es : listing) :
  MAX_CLUSTERS = 1419
  /\ MAX_PAYLOAD_BYTES = 600 * 1024
  /\ MAX_FILES_PER_DISK = 60
  /\ Forall
       (fun b =>
          (total_clusters (members b) <= MAX_CLUSTERS
           \/ exists f, members b = [f]
                        /\ MAX_CLUSTERS < rounded_clusters (st_size f))
          /\ (total_bytes (members b) <= MAX_PAYLOAD_BYTES
              \/ exists f, members b = [f] /\ MAX_PAYLOAD_BYTES < st_size f)
          /\ total_count (members b) <= MAX_FILES_PER_DISK)
       (bucket_files base es).
Proof.
  split; [reflexivity|]. split; [reflexivity|]. split; [reflexivity|].
  destruct (sorted_files es) eqn:E.
  - unfold bucket_files. rewrite E. constructor.
  - assert (sorted_files es <> []) as Hne by (rewrite E; discriminate).
    destruct (bucket_files_inv base es Hne) as [Hinv ->].
    destruct Hinv as (closed & cur & Hb & _ & _ & _ & _ & _ & _ & _ & _ & Hc & Ho).
    rewrite Hb. apply Forall_app. split; [exact Hc | constructor; [exact Ho | constructor]].
Qed.

(** C3.  The members of the buckets, taken bucket after bucket in the
    order of production, are the eligible files of the directory sorted by
    lower-cased name; a directory without eligible files gives no bucket. *)
Theorem bucket_files_preserves_order (base : string) (es : listing) :
  List.concat (map members (bucket_files base es)) = sorted_files es
  /\ Permutation (sorted_files es) (eligible es)
  /\ Sorted (fun f g => (Str.lower (fname f) <=? Str.lower (fname g))%string = true)
            (sorted_files es)
  /\ (eligible es = [] -> bucket_files base es = []).
Proof.
  split; [|split; [|split]].
  - destruct (sorted_files es) eqn:E.
    + unfold bucket_files. now rewrite E.
    + assert (sorted_files es <> []) as Hne by (rewrite E; discriminate).
      destruct (bucket_files_inv base es Hne) as [Hinv ->].
      destruct Hinv as (closed & cur & Hb & _ & _ & _ & _ & Hdone & _).
      rewrite Hb, map_app, concat_app. simpl. rewrite app_nil_r.
      now rewrite Hdone.
  - apply sorted_by_perm.
  - apply (sorted_by_sorted name_key).
  - intros Hnil. unfold bucket_files, sorted_files. now rewrite Hnil.
Qed.

(** C8.  Three eligible files of 200000, 200000 and 250000 bytes, under
    the byte ceiling 614400 and the count ceiling 60, give two buckets:
    the first two files, then the third. *)
Theorem bucket_files_scenario (base : string) (es : listing) (f1 f2 f3 : file) :
  sorted_files es = [f1; f2; f3] ->
  st_size f1 = 200000 -> st_size f2 = 200000 -> st_size f3 = 250000 ->
  MAX_PAYLOAD_BYTES = 614400 /\ MAX_FILES_PER_DISK = 60
  /\ map members (bucket_files base es) = [[f1; f2]; [f3]].
Proof.
  intros Hs H1 H2 H3. split; [reflexivity|]. split; [reflexivity|].
  unfold bucket_files. rewrite Hs. cbn [fold_left].
  unfold bucket_step at 3.
  assert (needs_new_bucket (bucket_init base) f1 = false) as ->
    by (unfold needs_new_bucket; rewrite H1; reflexivity).
  unfold place_file at 1, bucket_init, move_into.
  cbn -[bucket_dirname String.eqb bucket_step Z.add].
  rewrite String.eqb_refl, H1.
  unfold bucket_step at 2.
  match goal with |- context [needs_new_bucket ?s f2] =>
    assert (needs_new_bucket s f2 = false) as ->
      by (unfold needs_new_bucket; rewrite H2; reflexivity) end.
  unfold place_file at 1, move_into.
  cbn -[bucket_dirname String.eqb bucket_step Z.add].
  rewrite String.eqb_refl, H2.
  unfold bucket_step.
  match goal with |- context [needs_new_bucket ?s f3] =>
    assert (needs_new_bucket s f3 = true) as ->
      by (unfold needs_new_bucket; rewrite H3; reflexivity) end.
  unfold place_file, open_bucket, move_into.
  cbn -[bucket_dirname String.eqb].
  rewrite String.eqb_refl.
  destruct (String.eqb_spec (bucket_dirname base 1) (bucket_dirname base 2))
    as [E|_]; [apply bucket_dirname_inj in E; discriminate | reflexivity].
Qed.

Lemma bucket_files_scenario_witness :
  MAX_PAYLOAD_BYTES = 614400 /\ MAX_FILES_PER_DISK = 60
  /\ map members
       (bucket_files "Album"
          [("c.mid", File 250000); ("a.mid", File 200000); ("b.mid", File 200000)])
     = [ [mkfile "a.mid" 200000; mkfile "b.mid" 200000]; [mkfile "c.mid" 250000] ].
Proof.
  apply (bucket_files_scenario "Album"
           [("c.mid", File 250000); ("a.mid", File 200000); ("b.mid", File 200000)]
           (mkfile "a.mid" 200000) (mkfile "b.mid" 200000) (mkfile "c.mid" 250000));
    reflexivity.
Defined.

(** ** Short names *)

Ltac each_ascii c := destruct c as [[] [] [] [] [] [] [] []].

Lemma char_upper_isupper (c : ascii) :
  Str.isalpha c = true -> Str.char_isupper (Str.char_upper c) = true.
Proof. each_ascii c; vm_compute; intros H; (reflexivity || discriminate H). Qed.

Lemma char_isupper_isalpha (c : ascii) :
  Str.char_isupper c = true -> Str.isalpha c = true.
Proof. unfold Str.isalpha. now intros ->. Qed.

Lemma all_app (p : ascii -> bool) (s t : string) :
  Str.all p (s ++ t) = Str.all p s && Str.all p t.
Proof. induction s as [|c s IH]; simpl; [reflexivity|]. now rewrite IH, andb_assoc. Qed.

Lemma all_take (p : ascii -> bool) (n : nat) (s : string) :
  Str.all p s = true -> Str.all p (Str.take n s) = true.
Proof.
  revert s. induction n as [|n IH]; intros [|c s]; simpl; try reflexivity.
  intros H. apply andb_prop in H as [Hc Hs]. now rewrite Hc, IH.
Qed.

Lemma all_Forall (p : ascii -> bool) (s : string) :
  Str.all p s = true <-> Forall (fun c => p c = true) (Str.chars s).
Proof.
  unfold Str.chars. induction s as [|c s IH]; simpl.
  - split; [constructor | reflexivity].
  - rewrite andb_true_iff, IH. split.
    + intros [Hc Hs]. now constructor.
    + intros H. inversion H. now split.
Qed.

Lemma take_length (n : nat) (s : string) :
  String.length (Str.take n s) = Nat.min n (String.length s).
Proof.
  revert s. induction n as [|n IH]; intros [|c s]; simpl; try reflexivity.
  now rewrite IH.
Qed.

Lemma append_length (s t : string) :
  String.length (s ++ t) = (String.length s + String.length t)%nat.
Proof. induction s as [|c s IH]; simpl; [reflexivity|]. now rewrite IH. Qed.

Lemma upper_letters_upper (s : string) :
  Str.all Str.char_isupper (upper_letters s) = true.
Proof.
  induction s as [|c s IH]; simpl; [reflexivity|].
  destruct (Str.isalpha c) eqn:E; [|assumption].
  simpl. now rewrite char_upper_isupper, IH.
Qed.

Lemma get_shortname_length (filename : string) :
  String.length (get_shortname filename) = 6%nat.
Proof.
  unfold get_shortname. rewrite take_length.
  destruct (Nat.ltb_spec (String.length (upper_letters (PathLib.stem filename))) 6).
  - rewrite append_length. change (String.length "DKSONG") with 6%nat. lia.
  - lia.
Qed.

Lemma get_shortname_upper (filename : string) :
  Str.all Str.char_isupper (get_shortname filename) = true.
Proof.
  unfold get_shortname. apply all_take.
  destruct (String.length (upper_letters (PathLib.stem filename)) <? 6)%nat.
  - rewrite all_app, upper_letters_upper. reflexivity.
  - apply upper_letters_upper.
Qed.

(** *** Names with any character *)

Lemma split_incl (sep : N) (s w : Unicode.str) :
  In w (Unicode.split sep s) -> incl w s.
Proof.
  revert w. induction s as [|a s IH]; intros w H.
  - destruct H as [<-|[]]. apply incl_refl.
  - cbn [Unicode.split] in H. destruct (a =? sep)%N.
    + destruct H as [<-|H]; [intros x []|].
      apply incl_tl. now apply IH.
    + destruct (Unicode.split sep s) as [|v vs]; destruct H as [<-|H].
      * intros x [<-|[]]. now left.
      * destruct H.
      * apply incl_cons; [now left|]. apply incl_tl, IH. now left.
      * apply incl_tl, IH. now right.
Qed.

Lemma last_In_or_default {A : Type} (l : list A) (d : A) :
  In (last l d) l \/ last l d = d.
Proof.
  induction l as [|x l IH]; [now right|].
  destruct l as [|y l]; [left; now left|].
  destruct IH as [IH|IH]; [left; now right|].
  change (last (x :: y :: l) d) with (last (y :: l) d). now right.
Qed.

Lemma stem_incl (s : Unicode.str) : incl (Unicode.stem s) s.
Proof.
  unfold Unicode.stem.
  assert (incl (Unicode.name_of s) s) as Hn.
  { unfold Unicode.name_of.
    destruct (last_In_or_default (Unicode.parts s) []) as [H| ->];
      [|intros x []].
    unfold Unicode.parts in H. apply filter_In in H as [H _].
    now apply (split_incl 47). }
  unfold Unicode.stem_of. destruct (Unicode.rfind 46 (Unicode.name_of s)); [|exact Hn].
  destruct (_ && _); [|exact Hn].
  intros x Hx. apply Hn. rewrite <- (firstn_skipn n (Unicode.name_of s)).
  apply in_or_app. now left.
Qed.

Lemma ascii_upper_letter (c : N) :
  Unicode.ascii_isalpha c = true -> (65 <= Unicode.ascii_upper c <= 90)%N.
Proof.
  unfold Unicode.ascii_isalpha, Unicode.ascii_upper. intros H.
  destruct (N.leb_spec 65 c) as [a1|a1], (N.leb_spec c 90) as [a2|a2],
           (N.leb_spec 97 c) as [a3|a3], (N.leb_spec c 122) as [a4|a4];
    cbn [andb orb] in H |- *; try discriminate H; lia.
Qed.

Lemma upper_letters_ascii (t : Unicode.tables) (stem : Unicode.str) :
  Unicode.agrees_on_ascii t -> Unicode.isascii stem = true ->
  Forall (fun c => (65 <= c <= 90)%N) (Unicode.upper_letters t stem).
Proof.
  intros Ht. unfold Unicode.isascii, Unicode.upper_letters.
  induction stem as [|c stem IH]; cbn [forallb flat_map]; intros H; [constructor|].
  apply andb_prop in H as [Hc H]. apply N.ltb_lt in Hc.
  destruct (Ht c Hc) as [Ha Hu]. rewrite Ha, Hu.
  destruct (Unicode.ascii_isalpha c) eqn:E; cbn [app]; [|now apply IH].
  constructor; [now apply ascii_upper_letter | now apply IH].
Qed.

Lemma Forall_take {A : Type} (P : A -> Prop) (n : nat) (l : list A) :
  Forall P l -> Forall P (firstn n l).
Proof.
  intros H. rewrite Forall_forall in *. intros x Hx. apply H.
  rewrite <- (firstn_skipn n l). apply in_or_app. now left.
Qed.

Lemma sample_tables_ascii : Unicode.agrees_on_ascii Unicode.sample_tables.
Proof.
  intros c Hc. apply N.ltb_lt in Hc. unfold Unicode.sample_tables.
  cbn [Unicode.isalpha Unicode.upper]. now rewrite Hc.
Qed.

(** C4, where it holds.  For every file name made of ASCII characters,
    and whatever Python's character tables say of the other characters,
    [get_shortname] returns exactly six characters, each of them one of the
    upper-case letters [A] to [Z]; the function is total. *)
Theorem get_shortname_six_uppercase_letters (t : Unicode.tables)
    (filename : Unicode.str) :
  Unicode.agrees_on_ascii t ->
  Unicode.isascii filename = true ->
  List.length (Unicode.get_shortname t filename) = 6%nat
  /\ Forall (fun c => (65 <= c <= 90)%N) (Unicode.get_shortname t filename).
Proof.
  intros Ht Hf.
  assert (Unicode.isascii (Unicode.stem filename) = true) as Hs.
  { unfold Unicode.isascii in *. rewrite forallb_forall in *.
    intros c Hc. apply Hf. now apply (stem_incl filename). }
  pose proof (upper_letters_ascii t _ Ht Hs) as Hu.
  unfold Unicode.get_shortname.
  set (letters := Unicode.upper_letters t (Unicode.stem filename)) in *.
  destruct (Nat.ltb_spec (List.length letters) 6) as [Hl|Hl].
  - split.
    + rewrite firstn_length_le; [reflexivity|].
      rewrite length_app. change (List.length (Unicode.of_string "DKSONG")) with 6%nat.
      lia.
    + apply Forall_take, Forall_app. split; [exact Hu|].
      repeat constructor; cbn; lia.
  - split; [now apply firstn_length_le | now apply Forall_take].
Qed.

Lemma get_shortname_six_uppercase_letters_witness :
  List.length (Unicode.get_shortname Unicode.sample_tables
                 (Unicode.of_string "My Song (take 2).mid")) = 6%nat
  /\ Forall (fun c => (65 <= c <= 90)%N)
            (Unicode.get_shortname Unicode.sample_tables
               (Unicode.of_string "My Song (take 2).mid")).
Proof.
  apply (get_shortname_six_uppercase_letters Unicode.sample_tables
           (Unicode.of_string "My Song (take 2).mid")).
  - intros c Hc. apply N.ltb_lt in Hc. unfold Unicode.sample_tables.
    cbn [Unicode.isalpha Unicode.upper]. now rewrite Hc.
  - reflexivity.
Defined.

(** The short names of U+01F0 [.mid] (small j with caron) and of U+4E2D
    U+6587 [.mid] (two ideographs): the first holds the combining caron
    that [upper] brings in, which is not a letter; the second holds the
    two ideographs, which have no case. *)
Lemma get_shortname_beyond_ascii :
  Unicode.get_shortname Unicode.sample_tables (496%N :: Unicode.of_string ".mid")
  = [74; 780; 68; 75; 83; 79]%N
  /\ Unicode.get_shortname Unicode.sample_tables
       (20013%N :: 25991%N :: Unicode.of_string ".mid")
     = [20013; 25991; 68; 75; 83; 79]%N.
Proof. split; vm_compute; reflexivity. Qed.

(** Beyond ASCII a short name need not be its own short name: the file
    U+01F0 [.mid] is renamed [00] [J] U+030C [DKSO.MID], whose short name
    is [JDKSOD], the caron being no letter. *)
Lemma short_name_of_short_name_beyond_ascii :
  Unicode.get_shortname Unicode.sample_tables
    (Unicode.of_string "00" ++ [74; 780; 68; 75; 83; 79]%N
     ++ Unicode.of_string ".MID")
  = Unicode.of_string "JDKSOD".
Proof. vm_compute. reflexivity. Qed.

(** C4 as stated fails: the short name of U+01F0 [.mid] has six
    characters of which the second, the combining caron U+030C, is not
    alphabetic. *)
Lemma get_shortname_keeps_combining_mark :
  ~ (forall filename,
       List.length (Unicode.get_shortname Unicode.sample_tables filename) = 6%nat
       /\ Forall (fun c => Unicode.isalpha Unicode.sample_tables c = true
                           /\ Unicode.upper Unicode.sample_tables c = [c])
                 (Unicode.get_shortname Unicode.sample_tables filename)).
Proof.
  intros H.
  destruct (H (496%N :: Unicode.of_string ".mid")) as [_ F].
  destruct get_shortname_beyond_ascii as [E _]. rewrite E in F.
  apply Forall_inv_tail, Forall_inv in F. destruct F as [F _].
  vm_compute in F. discriminate F.
Qed.

(** *** The two definitions of [get_shortname] on ASCII names *)

Lemma of_string_cons (c : ascii) (s : string) :
  Unicode.of_string (String c s) = N_of_ascii c :: Unicode.of_string s.
Proof. reflexivity. Qed.

Lemma of_string_app (a b : string) :
  Unicode.of_string (a ++ b) = Unicode.of_string a ++ Unicode.of_string b.
Proof.
  induction a as [|c a IH]; [reflexivity|].
  cbn [append]. rewrite !of_string_cons, IH. reflexivity.
Qed.

Lemma of_string_length (s : string) :
  List.length (Unicode.of_string s) = String.length s.
Proof. induction s as [|c s IH]; [reflexivity|]. rewrite of_string_cons. simpl. now rewrite IH. Qed.

Lemma of_string_take (n : nat) (s : string) :
  firstn n (Unicode.of_string s) = Unicode.of_string (Str.take n s).
Proof.
  revert s. induction n as [|n IH]; intros [|c s]; try reflexivity.
  rewrite of_string_cons. cbn [firstn Str.take]. now rewrite IH, of_string_cons.
Qed.

Lemma code_eqb (a c : ascii) : (N_of_ascii a =? N_of_ascii c)%N = Ascii.eqb a c.
Proof.
  destruct (Ascii.eqb_spec a c) as [->|Hne]; [apply N.eqb_refl|].
  apply N.eqb_neq. intros E. apply Hne.
  now rewrite <- (ascii_N_embedding a), <- (ascii_N_embedding c), E.
Qed.

Lemma of_string_inj (a b : string) :
  Unicode.of_string a = Unicode.of_string b -> a = b.
Proof.
  revert b. induction a as [|c a IH]; intros [|d b] E; try discriminate;
    [reflexivity|].
  rewrite !of_string_cons in E. injection E as Ec E. f_equal; [|now apply IH].
  now rewrite <- (ascii_N_embedding c), <- (ascii_N_embedding d), Ec.
Qed.

Lemma of_string_eqb (a b : string) :
  Unicode.eqb (Unicode.of_string a) (Unicode.of_string b) = (a =? b)%string.
Proof.
  unfold Unicode.eqb.
  destruct (list_eq_dec N.eq_dec (Unicode.of_string a) (Unicode.of_string b)) as [E|E];
    destruct (String.eqb_spec a b) as [Es|Es]; try reflexivity.
  - now apply of_string_inj in E.
  - now subst.
Qed.

Lemma of_string_rfind (c : ascii) (s : string) :
  Unicode.rfind (N_of_ascii c) (Unicode.of_string s) = Str.rfind c s.
Proof.
  induction s as [|a s IH]; [reflexivity|].
  rewrite of_string_cons. cbn [Unicode.rfind Str.rfind]. now rewrite IH, code_eqb.
Qed.

Lemma of_string_split (sep : ascii) (s : string) :
  Unicode.split (N_of_ascii sep) (Unicode.of_string s)
  = map Unicode.of_string (Str.split sep s).
Proof.
  induction s as [|a s IH]; [reflexivity|].
  rewrite of_string_cons. cbn [Unicode.split Str.split]. rewrite IH, code_eqb.
  destruct (Ascii.eqb a sep); [reflexivity|].
  now destruct (Str.split sep s).
Qed.

Lemma filter_map_swap {A B : Type} (f : A -> B) (p : B -> bool) (l : list A) :
  filter p (map f l) = map f (filter (fun x => p (f x)) l).
Proof.
  induction l as [|x l IH]; simpl; [reflexivity|].
  destruct (p (f x)); simpl; now rewrite IH.
Qed.

Lemma last_map_swap {A B : Type} (f : A -> B) (l : list A) (d : A) :
  last (map f l) (f d) = f (last l d).
Proof.
  induction l as [|x l IH]; [reflexivity|].
  destruct l as [|y l]; [reflexivity|]. exact IH.
Qed.

Lemma of_string_stem (s : string) :
  Unicode.stem (Unicode.of_string s) = Unicode.of_string (PathLib.stem s).
Proof.
  unfold Unicode.stem, PathLib.stem.
  assert (Unicode.name_of (Unicode.of_string s) = Unicode.of_string (PathLib.name_of s))
    as ->.
  { unfold Unicode.name_of, PathLib.name_of, Unicode.parts, PathLib.parts.
    change 47%N with (N_of_ascii "/"). rewrite of_string_split, filter_map_swap.
    change (@nil N) with (Unicode.of_string ""). rewrite last_map_swap.
    f_equal. f_equal. apply filter_ext. intros x. now rewrite !of_string_eqb. }
  unfold Unicode.stem_of, PathLib.stem_of.
  change 46%N with (N_of_ascii "."). rewrite of_string_rfind, of_string_length.
  destruct (Str.rfind "." (PathLib.name_of s)) as [i|]; [|reflexivity].
  destruct (_ && _); [apply of_string_take | reflexivity].
Qed.

Lemma of_string_isascii (s : string) :
  Unicode.isascii (Unicode.of_string s) = Str.isascii s.
Proof.
  induction s as [|c s IH]; [reflexivity|].
  rewrite of_string_cons. cbn [Unicode.isascii forallb]. fold (Unicode.isascii (Unicode.of_string s)).
  now rewrite IH.
Qed.

Lemma code_char_upper (c : ascii) :
  N_of_ascii (Str.char_upper c) = Unicode.ascii_upper (N_of_ascii c).
Proof.
  unfold Str.char_upper, Unicode.ascii_upper, Str.char_islower, Str.code.
  destruct (_ && _); [|reflexivity].
  apply N_ascii_embedding. pose proof (N_ascii_bounded c). lia.
Qed.

Lemma of_string_upper_letters (t : Unicode.tables) (s : string) :
  Unicode.agrees_on_ascii t -> Str.isascii s = true ->
  Unicode.upper_letters t (Unicode.of_string s) = Unicode.of_string (upper_letters s).
Proof.
  intros Ht. induction s as [|c s IH]; intros Hs; [reflexivity|].
  cbn [Str.isascii Str.all] in Hs. apply andb_prop in Hs as [Hc Hs].
  apply N.ltb_lt in Hc. unfold Str.code in Hc. destruct (Ht _ Hc) as [Ha Hu].
  rewrite of_string_cons. cbn [Unicode.upper_letters flat_map upper_letters].
  fold (Unicode.upper_letters t (Unicode.of_string s)).
  rewrite Ha, Hu, (IH Hs).
  change (Unicode.ascii_isalpha (N_of_ascii c)) with (Str.isalpha c).
  destruct (Str.isalpha c); [|reflexivity].
  rewrite of_string_cons, code_char_upper. reflexivity.
Qed.

(** On a name made of ASCII characters [get_shortname] on [string] computes
    what [get_shortname] on code points does, whatever the tables say of
    the other characters. *)
Lemma get_shortname_of_string (t : Unicode.tables) (s : string) :
  Unicode.agrees_on_ascii t -> Str.isascii s = true ->
  Unicode.get_shortname t (Unicode.of_string s)
  = Unicode.of_string (get_shortname s).
Proof.
  intros Ht Hs. unfold Unicode.get_shortname, get_shortname.
  assert (Str.isascii (PathLib.stem s) = true) as Hstem.
  { rewrite <- of_string_isascii, <- of_string_stem.
    rewrite <- of_string_isascii in Hs.
    unfold Unicode.isascii in *. rewrite forallb_forall in *.
    intros c Hc. apply Hs. now apply (stem_incl (Unicode.of_string s)). }
  rewrite of_string_stem, (of_string_upper_letters t _ Ht Hstem), of_string_length.
  destruct (String.length (upper_letters (PathLib.stem s)) <? 6)%nat.
  - now rewrite <- of_string_app, of_string_take.
  - apply of_string_take.
Qed.

(** ** Generated directories *)

Lemma prefix_app (p t : string) : prefix p (p ++ t) = true.
Proof.
  induction p as [|c p IH]; simpl; [now destruct t|].
  destruct (ascii_dec c c); [assumption | contradiction].
Qed.

Lemma prefix_inv (p s : string) :
  prefix p s = true -> s = (p ++ Str.drop (String.length p) s)%string.
Proof.
  revert s. induction p as [|c p IH]; intros s H; [now destruct s|].
  destruct s as [|d s]; simpl in H; [discriminate|].
  destruct (ascii_dec c d) as [->|]; [|discriminate].
  simpl. f_equal. now apply IH.
Qed.

Lemma drop_app (p t : string) : Str.drop (String.length p) (p ++ t) = t.
Proof. induction p as [|c p IH]; simpl; [now destruct t | assumption]. Qed.

Lemma append_assoc (a b c : string) :
  ((a ++ b) ++ c)%string = (a ++ b ++ c)%string.
Proof. induction a as [|x a IH]; simpl; [reflexivity | now rewrite IH]. Qed.

Lemma isdigit_iff (s : string) :
  Str.isdigit s = true <-> s <> "" /\ Str.all Str.char_isdigit s = true.
Proof.
  unfold Str.isdigit. rewrite andb_true_iff, negb_true_iff, String.eqb_neq.
  reflexivity.
Qed.

Lemma path_eqb_eq (p q : PathLib.path) : PathLib.eqb p q = true <-> p = q.
Proof.
  unfold PathLib.eqb. destruct (list_eq_dec string_dec p q); split;
    congruence.
Qed.

Lemma is_generated_dir_iff (dirpath root : PathLib.path) :
  is_generated_dir dirpath root = true <->
  dirpath = PathLib.joinpath root IMAGES_DIRNAME
  \/ exists digits,
       PathLib.name dirpath
       = (PathLib.name (PathLib.parent dirpath) ++ "_" ++ digits)%string
       /\ digits <> ""
       /\ Str.all Str.char_isdigit digits = true.
Proof.
  unfold is_generated_dir.
  destruct (PathLib.eqb dirpath (PathLib.joinpath root IMAGES_DIRNAME)) eqn:E.
  - apply path_eqb_eq in E. split; [now left | reflexivity].
  - assert (dirpath <> PathLib.joinpath root IMAGES_DIRNAME) as Hne
        by (intros H; apply path_eqb_eq in H; congruence).
    set (pn := PathLib.name (PathLib.parent dirpath)).
    set (n := PathLib.name dirpath).
    unfold Str.startswith. rewrite andb_true_iff, isdigit_iff. split.
    + intros [Hp [Hd1 Hd2]]. right.
      exists (Str.drop (String.length pn + 1) n).
      split; [|now split].
      apply prefix_inv in Hp. rewrite append_length in Hp.
      change (String.length "_") with 1%nat in Hp.
      rewrite <- append_assoc. exact Hp.
    + intros [Hc | (digits & Hn & Hd1 & Hd2)]; [contradiction|].
      assert (Str.drop (String.length pn + 1) n = digits) as Hdrop.
      { rewrite Hn, <- append_assoc.
        replace (String.length pn + 1)%nat with (String.length (pn ++ "_"))
          by (rewrite append_length; reflexivity).
        apply drop_app. }
      rewrite Hdrop. split; [|now split].
      rewrite Hn, <- append_assoc. apply prefix_app.
Qed.

(** C5, as the script has it.  A directory is classified as generated
    when it is the ["Images"] directory directly under the root, or its
    name is the name of its parent, then ["_"], then a non-empty string of
    the digits [0] to [9] (zero and leading zeros included); a directory
    whose name is made of ASCII characters is classified as generated in
    these two cases only; and [process_directory] returns at once on every
    directory classified as generated: the entries, the counter, the
    mapping and the trace are as before. *)
Theorem generated_dir_classification (dirpath root : PathLib.path) :
  (generated_shape dirpath root -> is_generated_dir dirpath root = true)
  /\ (Str.isascii (PathLib.name dirpath) = true ->
      is_generated_dir dirpath root = true -> generated_shape dirpath root)
  /\ (is_generated_dir dirpath root = true ->
      forall fuel tools es st,
        process_directory (S fuel) tools dirpath root es st = (st, Done es)).
Proof.
  split; [apply is_generated_dir_iff|].
  split; [intros _; apply is_generated_dir_iff|].
  intros E fuel tools es st. simpl. now rewrite E.
Qed.

Lemma generated_dir_classification_witness :
  is_generated_dir ["r"; "Tracks"; "Tracks_2"] ["r"] = true
  /\ process_directory 1 (fun _ => true) ["r"; "Tracks"; "Tracks_2"] ["r"]
       [("00ADKSON.MID", File 7)] (mkrun 3 [] [])
     = (mkrun 3 [] [], Done [("00ADKSON.MID", File 7)]).
Proof.
  destruct (generated_dir_classification ["r"; "Tracks"; "Tracks_2"] ["r"])
    as (H1 & _ & H3).
  assert (is_generated_dir ["r"; "Tracks"; "Tracks_2"] ["r"] = true) as G.
  { apply H1. right. exists "2".
    split; [reflexivity|]. split; [discriminate | reflexivity]. }
  split; [exact G | apply H3; exact G].
Defined.

(** C5 as stated fails: [Tracks_0] under [Tracks] is classified as
    generated, and 0 is not a positive integer. *)
Lemma generated_dir_zero_suffix :
  ~ (forall dirpath root,
       is_generated_dir dirpath root = true <-> spec_generated dirpath root).
Proof.
  intros H.
  destruct (H ["r"; "Tracks"; "Tracks_0"] ["r"]) as [H1 _].
  destruct (H1 eq_refl) as [Himg | (digits & Hn & Hd & Hpos)].
  - discriminate Himg.
  - simpl in Hn. injection Hn as <-. simpl in Hpos. lia.
Qed.

(** ** Numerals in file names *)

Lemma string_of_uint_digits (u : uint) :
  Str.all Str.char_isdigit (NilEmpty.string_of_uint u) = true.
Proof. induction u; simpl; try reflexivity; assumption. Qed.

Lemma zeros_digits (n : nat) : Str.all Str.char_isdigit (zeros n) = true.
Proof. induction n; simpl; [reflexivity | assumption]. Qed.

Lemma str_of_int_nonneg (i : Z) :
  0 <= i ->
  exists u, u <> Nil /\ str_of_int i = NilEmpty.string_of_uint u /\ Z.of_uint u = i.
Proof.
  intros Hi. unfold str_of_int. destruct i as [|p|p]; [| |lia].
  - exists (D0 Nil). repeat split. discriminate.
  - exists (Pos.to_uint p). split; [apply DecimalPos.Unsigned.to_uint_nonnil|].
    split.
    + simpl. pose proof (DecimalPos.Unsigned.to_uint_nonnil p).
      now destruct (Pos.to_uint p).
    + exact (DecimalZ.of_to (Z.pos p)).
Qed.

Lemma str_of_int_isdigit (i : Z) : 0 <= i -> Str.isdigit (str_of_int i) = true.
Proof.
  intros Hi. destruct (str_of_int_nonneg i Hi) as (u & Hu & -> & _).
  apply isdigit_iff. split; [|apply string_of_uint_digits].
  destruct u; simpl; try discriminate. contradiction.
Qed.

Lemma format_0d_nonneg (w : nat) (i : Z) :
  0 <= i ->
  exists k u, format_0d w i = (zeros k ++ NilEmpty.string_of_uint u)%string
              /\ Z.of_uint u = i.
Proof.
  intros Hi. unfold format_0d.
  destruct (Z.ltb_spec i 0); [lia|].
  rewrite Z.abs_eq by assumption.
  destruct (str_of_int_nonneg i Hi) as (u & _ & -> & Hu).
  simpl. eexists _, u. split; [reflexivity | assumption].
Qed.

Lemma uint_of_string_zeros (k : nat) (u : uint) :
  option_map Z.of_uint
    (NilEmpty.uint_of_string (zeros k ++ NilEmpty.string_of_uint u))
  = Some (Z.of_uint u).
Proof.
  induction k as [|k IH]; simpl.
  - now rewrite NilEmpty.usu.
  - destruct (NilEmpty.uint_of_string (zeros k ++ NilEmpty.string_of_uint u));
      simpl in *; [|discriminate].
    injection IH as IH. now rewrite <- IH.
Qed.

Lemma span_digits_app (ds rest : string) :
  Str.all Str.char_isdigit ds = true -> no_leading_digit rest ->
  span_digits (ds ++ rest) = (ds, rest).
Proof.
  intros Hds Hrest. induction ds as [|c ds IH]; simpl.
  - destruct rest as [|r rest]; [reflexivity|]. simpl in Hrest. simpl.
    now rewrite Hrest.
  - simpl in Hds. apply andb_prop in Hds as [Hc Hds].
    rewrite Hc, IH by assumption. reflexivity.
Qed.

Lemma leading_index_format (w : nat) (i : Z) (rest : string) :
  0 <= i -> no_leading_digit rest ->
  leading_index (format_0d w i ++ rest) = Some i.
Proof.
  intros Hi Hrest.
  destruct (format_0d_nonneg w i Hi) as (k & u & -> & <-).
  unfold leading_index. rewrite span_digits_app; [|now rewrite all_app, zeros_digits, string_of_uint_digits|assumption].
  apply uint_of_string_zeros.
Qed.

(** ** Renaming *)

Lemma char_isupper_not_digit (c : ascii) :
  Str.char_isupper c = true -> Str.char_isdigit c = false.
Proof. each_ascii c; vm_compute; intros H; (reflexivity || discriminate H). Qed.

Lemma short_no_leading_digit (n : nat) (name rest : string) :
  (0 < n)%nat -> no_leading_digit (Str.take n (get_shortname name) ++ rest).
Proof.
  intros Hn.
  pose proof (get_shortname_length name) as Hl.
  pose proof (get_shortname_upper name) as Hu.
  destruct (get_shortname name) as [|c s]; [discriminate|].
  destruct n; [lia|]. simpl. simpl in Hu.
  apply andb_prop in Hu as [Hc _]. now apply char_isupper_not_digit.
Qed.

Lemma take_all (s : string) : Str.take (String.length s) s = s.
Proof. induction s as [|c s IH]; simpl; [reflexivity | now rewrite IH]. Qed.

Lemma leading_index_new_name (idx : Z) (name : string) :
  0 <= idx -> leading_index (new_name idx name) = Some idx.
Proof.
  intros Hi. unfold new_name. apply leading_index_format; [assumption|].
  destruct (idx >? 99).
  - apply short_no_leading_digit. lia.
  - rewrite <- (take_all (get_shortname name)).
    apply short_no_leading_digit. rewrite get_shortname_length. lia.
Qed.

Lemma enumerate_from_lower {A : Type} (k : Z) (l : list A) (p : Z * A) :
  In p (enumerate_from k l) -> k <= fst p.
Proof.
  revert k. induction l as [|x l IH]; simpl; intros k; [contradiction|].
  intros [<- | Hin]; [simpl; lia|]. apply IH in Hin. lia.
Qed.

Lemma enumerate_from_NoDup {A : Type} (k : Z) (l : list A) :
  NoDup (map fst (enumerate_from k l)).
Proof.
  revert k. induction l as [|x l IH]; simpl; intros k; constructor; [|apply IH].
  intros Hin. apply in_map_iff in Hin as (p & Hp & Hin).
  apply enumerate_from_lower in Hin. lia.
Qed.

Lemma assigned_names_index (es : listing) :
  map leading_index (assigned_names es)
  = map (fun p => Some (fst p)) (enumerate (sorted_files es)).
Proof.
  unfold assigned_names. rewrite map_map. apply map_ext_in.
  intros p Hp. apply leading_index_new_name.
  apply enumerate_from_lower in Hp. exact Hp.
Qed.

Lemma format_0d_2_nat (n : nat) :
  (n < 100)%nat ->
  format_0d 2 (Z.of_nat n)
  = String (ascii_of_N (48 + N.of_nat (n / 10)))
           (String (ascii_of_N (48 + N.of_nat (n mod 10))) EmptyString).
Proof.
  intros H.
  do 100 (destruct n as [|n]; [reflexivity|]). lia.
Qed.

Lemma format_0d_2_length (i : Z) :
  0 <= i <= 99 -> String.length (format_0d 2 i) = 2%nat.
Proof.
  intros Hi. rewrite <- (Z2Nat.id i) by lia.
  rewrite format_0d_2_nat by lia. reflexivity.
Qed.

Lemma assigned_names_NoDup (es : listing) : NoDup (assigned_names es).
Proof.
  apply (NoDup_map_inv leading_index). rewrite assigned_names_index.
  rewrite <- (map_map fst Some).
  apply Finite.Injective_map_NoDup; [|apply enumerate_from_NoDup].
  intros a b [= H]. exact H.
Qed.

(** C7.  The name computed for the file at position [idx] of the sorted
    list is the index on at least two digits (exactly two up to 99), then
    the short name (its first five characters from index 100 on), then
    [.FIL] or [.MID]; the names computed in one pass over a directory are
    pairwise distinct. *)
Theorem assigned_names_distinct (es : listing) :
  assigned_names es
  = map (fun p =>
           let idx := fst p in
           let name := fname (snd p) in
           let short :=
             if 100 <=? idx then Str.take 5 (get_shortname name)
             else get_shortname name in
           let ext :=
             if (Str.lower (PathLib.suffix_of name) =? ".fil")%string
             then ".FIL" else ".MID" in
           (format_0d 2 idx ++ short ++ ext)%string)
        (enumerate (sorted_files es))
  /\ Forall (fun p => fst p <= 99 -> String.length (format_0d 2 (fst p)) = 2%nat)
            (enumerate (sorted_files es))
  /\ NoDup (assigned_names es).
Proof.
  split; [|split].
  - unfold assigned_names. apply map_ext. intros [idx f]. unfold new_name.
    cbn [fst snd]. replace (idx >? 99) with (100 <=? idx); [reflexivity|].
    destruct (Z.leb_spec 100 idx), (Z.gtb_spec idx 99); lia || reflexivity.
  - apply Forall_forall. intros p Hp Hi. apply format_0d_2_length.
    apply enumerate_from_lower in Hp. lia.
  - apply assigned_names_NoDup.
Qed.

(** ** The manifest *)

Lemma first_occurrences_In (k : string) (ks : list string) :
  In k (first_occurrences ks) <-> In k ks.
Proof.
  induction ks as [|a ks IH]; simpl; [reflexivity|].
  rewrite filter_In, IH, negb_true_iff, String.eqb_neq.
  destruct (string_dec a k) as [->|Hne]; [tauto|].
  split; [tauto|]. intros [H|H]; [contradiction|]. right. split; congruence.
Qed.

Lemma first_occurrences_snoc (ks : list string) (k : string) :
  first_occurrences (ks ++ [k])
  = if existsb (String.eqb k) ks then first_occurrences ks
    else first_occurrences ks ++ [k].
Proof.
  induction ks as [|a ks IH]; simpl; [reflexivity|].
  rewrite IH. destruct (String.eqb_spec k a) as [->|Hne]; simpl.
  - destruct (existsb (String.eqb a) ks); [reflexivity|].
    rewrite filter_app. simpl. rewrite String.eqb_refl. simpl.
    now rewrite app_nil_r.
  - destruct (existsb (String.eqb k) ks); [reflexivity|].
    rewrite filter_app. simpl.
    apply String.eqb_neq in Hne. now rewrite Hne.
Qed.

Lemma values_of_snoc (key k v : string) (rs : list (string * string)) :
  values_of key (rs ++ [(k, v)])
  = values_of key rs ++ (if (k =? key)%string then [v] else []).
Proof.
  unfold values_of. rewrite filter_app, map_app. simpl.
  now destruct (k =? key)%string.
Qed.

Lemma values_of_absent (key : string) (rs : list (string * string)) :
  ~ In key (map fst rs) -> values_of key rs = [].
Proof.
  unfold values_of. induction rs as [|[k v] rs IH]; simpl; [reflexivity|].
  intros H. destruct (String.eqb_spec k key) as [->|_]; [tauto|].
  apply IH. tauto.
Qed.

Lemma record_absent (k v : string) (m : list (string * list string)) :
  ~ In k (map fst m) -> record k v m = m ++ [(k, [v])].
Proof.
  induction m as [|[k' vs] m IH]; simpl; [reflexivity|].
  intros H. destruct (String.eqb_spec k' k) as [->|_]; [tauto|].
  rewrite IH by tauto. reflexivity.
Qed.

Lemma record_present (k v : string) (f : string -> list string) (ks : list string) :
  In k ks -> NoDup ks ->
  record k v (map (fun x => (x, f x)) ks)
  = map (fun x => (x, f x ++ (if (k =? x)%string then [v] else []))) ks.
Proof.
  induction ks as [|a ks IH]; simpl; [contradiction|].
  intros Hin Hnd. inversion Hnd as [|? ? Ha Hks]; subst.
  destruct (String.eqb_spec a k) as [->|Hne].
  - rewrite String.eqb_refl. f_equal.
    apply map_ext_in. intros x Hx.
    destruct (String.eqb_spec k x) as [->|_]; [contradiction|].
    now rewrite app_nil_r.
  - destruct (String.eqb_spec k a) as [->|_]; [contradiction|].
    rewrite app_nil_r. f_equal. apply IH; [|assumption].
    destruct Hin; [contradiction | assumption].
Qed.

Lemma first_occurrences_NoDup (ks : list string) : NoDup (first_occurrences ks).
Proof.
  induction ks as [|a ks IH]; simpl; constructor.
  - rewrite filter_In, String.eqb_refl. simpl. intros [_ H]. discriminate.
  - now apply NoDup_filter.
Qed.

Lemma existsb_eqb_In (k : string) (ks : list string) :
  existsb (String.eqb k) ks = true <-> In k ks.
Proof.
  rewrite existsb_exists. split.
  - intros (x & Hx & E). apply String.eqb_eq in E. now subst.
  - intros H. exists k. split; [assumption | apply String.eqb_refl].
Qed.

Lemma record_all_grouped (rs : list (string * string)) :
  record_all rs []
  = map (fun k => (k, values_of k rs)) (first_occurrences (map fst rs)).
Proof.
  induction rs as [|[k v] rs IH] using rev_ind; [reflexivity|].
  unfold record_all in *. rewrite fold_left_app. simpl. rewrite IH.
  rewrite map_app. simpl. rewrite first_occurrences_snoc.
  destruct (existsb (String.eqb k) (map fst rs)) eqn:E.
  - apply existsb_eqb_In in E.
    rewrite record_present;
      [| now apply first_occurrences_In | apply first_occurrences_NoDup].
    apply map_ext. intros x. now rewrite values_of_snoc.
  - assert (~ In k (map fst rs)) as Hk.
    { intros H. apply existsb_eqb_In in H. congruence. }
    rewrite record_absent.
    + rewrite map_app. simpl. f_equal.
      * apply map_ext_in. intros x Hx. rewrite values_of_snoc.
        destruct (String.eqb_spec k x) as [->|_]; [|now rewrite app_nil_r].
        apply (proj1 (first_occurrences_In _ _)) in Hx. contradiction.
      * rewrite values_of_snoc, values_of_absent, String.eqb_refl by assumption.
        reflexivity.
    + rewrite map_map. simpl. rewrite map_id.
      now rewrite first_occurrences_In.
Qed.

(** ** The walk *)

Lemma recorded_app (a b : list event) : recorded (a ++ b) = recorded a ++ recorded b.
Proof. unfold recorded. apply flat_map_app. Qed.

Lemma extends_refl (root start : PathLib.path) (st : run) : extends root start st st.
Proof. exists []. rewrite app_nil_r. repeat split. constructor. Qed.

Lemma extends_trans (root start : PathLib.path) (a b c : run) :
  extends root start a b -> extends root start b c -> extends root start a c.
Proof.
  intros (e1 & L1 & M1 & F1) (e2 & L2 & M2 & F2). exists (e1 ++ e2).
  split; [now rewrite L2, L1, app_assoc|].
  split; [|now apply Forall_app].
  rewrite M2, M1, recorded_app. unfold record_all. now rewrite fold_left_app.
Qed.

Lemma extends_emit (root start : PathLib.path) (e : event) (st : run) :
  event_ok root start e -> recorded [e] = [] -> extends root start st (emit e st).
Proof.
  intros Hok Hrec. exists [e]. split; [reflexivity|].
  split; [now rewrite Hrec | now constructor].
Qed.

Lemma clear_below_self (root d : PathLib.path) :
  is_generated_dir d root = false -> clear_below root d d.
Proof.
  intros H. exists []. split; [now rewrite app_nil_r|].
  intros k _. destruct k; simpl; now rewrite app_nil_r.
Qed.

Lemma clear_below_up (root directory d : PathLib.path) (n : string) :
  is_generated_dir directory root = false ->
  clear_below root (PathLib.joinpath directory n) d ->
  clear_below root directory d.
Proof.
  unfold PathLib.joinpath. intros Hd (rel & -> & Hrel). exists (n :: rel).
  split; [now rewrite <- app_assoc|].
  intros [|k] Hk; simpl.
  - now rewrite app_nil_r.
  - simpl in Hk. specialize (Hrel k ltac:(lia)).
    now rewrite <- app_assoc in Hrel.
Qed.

Lemma event_ok_up (root directory : PathLib.path) (n : string) (e : event) :
  is_generated_dir directory root = false ->
  event_ok root (PathLib.joinpath directory n) e -> event_ok root directory e.
Proof.
  intros Hd. destruct e; simpl; try (now apply clear_below_up).
  - intros [H1 H2]. split; [now apply (clear_below_up _ _ _ n) | assumption].
  - trivial.
Qed.

Lemma extends_up (root directory : PathLib.path) (n : string) (a b : run) :
  is_generated_dir directory root = false ->
  extends root (PathLib.joinpath directory n) a b -> extends root directory a b.
Proof.
  intros Hd (evs & L & M & F). exists evs. repeat split; try assumption.
  eapply Forall_impl; [|exact F]. intros e. now apply event_ok_up.
Qed.

Lemma bucket_files_dirs (base : string) (es : listing) :
  map bucket_dir (bucket_files base es)
  = dirnames base (List.length (bucket_files base es)).
Proof.
  destruct (sorted_files es) eqn:E.
  - unfold bucket_files. now rewrite E.
  - assert (sorted_files es <> []) as Hne by (rewrite E; discriminate).
    destruct (bucket_files_inv base es Hne) as [Hinv ->].
    destruct Hinv as (closed & cur & Hb & Hdirs & Hcur & _).
    rewrite Hb, map_app, length_app. simpl.
    replace (List.length closed + 1)%nat with (S (List.length closed)) by lia.
    now rewrite dirnames_snoc, Hdirs, Hcur.
Qed.

Lemma bucket_dir_generated (directory root : PathLib.path) (i : nat) :
  is_generated_dir
    (PathLib.joinpath directory
       (bucket_dirname (PathLib.name directory) (Z.of_nat i))) root = true.
Proof.
  apply is_generated_dir_iff. right. exists (str_of_int (Z.of_nat i)).
  unfold PathLib.joinpath, PathLib.name at 1, PathLib.parent.
  rewrite last_last, removelast_last.
  split; [reflexivity|]. apply isdigit_iff, str_of_int_isdigit. lia.
Qed.

Lemma bucket_files_generated (directory root : PathLib.path) (es : listing) :
  Forall (fun b =>
            PathLib.parent (PathLib.joinpath directory (bucket_dir b)) = directory
            /\ is_generated_dir (PathLib.joinpath directory (bucket_dir b)) root = true)
         (bucket_files (PathLib.name directory) es).
Proof.
  apply Forall_forall. intros b Hb.
  split; [unfold PathLib.parent, PathLib.joinpath; apply removelast_last|].
  assert (In (bucket_dir b) (map bucket_dir (bucket_files (PathLib.name directory) es)))
    as Hin by (now apply in_map).
  rewrite bucket_files_dirs in Hin. unfold dirnames in Hin.
  apply in_map_iff in Hin as (i & <- & _). apply bucket_dir_generated.
Qed.

Lemma build_images_extends (tools : string -> bool)
    (directory root start : PathLib.path) (bs : list bucket) (st : run) :
  Forall (fun b =>
            PathLib.parent (PathLib.joinpath directory (bucket_dir b)) = directory
            /\ is_generated_dir (PathLib.joinpath directory (bucket_dir b)) root = true)
         bs ->
  extends root start st (fst (build_images tools directory root bs st)).
Proof.
  intros Hbs. revert st. induction Hbs as [|b bs [Hpar Hgen] _ IH]; intros st.
  - apply extends_refl.
  - cbn [build_images counter mapping log].
    assert (extends root start st (mkrun (counter st + 1) (mapping st) (log st)))
      as Hcount by (exists []; simpl; rewrite app_nil_r; repeat split; constructor).
    destruct (relative_to directory root) as [rel|] eqn:R; [|exact Hcount].
    destruct (tools _); [|exact Hcount].
    eapply extends_trans; [|apply IH].
    exists [Built (str_of_relative rel) (PathLib.joinpath directory (bucket_dir b))
              (IMG_TEMPLATE (counter st) ++ ".img")
              (IMG_TEMPLATE (counter st) ++ ".hfe")].
    simpl. repeat split; try assumption.
    constructor; [|constructor]. simpl. split; [assumption|].
    now rewrite Hpar, R.
Qed.

Lemma for_children_extends
    (walk : PathLib.path -> listing -> run -> run * result listing)
    (directory root : PathLib.path) (es : listing) (st : run) :
  is_generated_dir directory root = false ->
  (forall n sub st0,
      extends root (PathLib.joinpath directory n) st0
              (fst (walk (PathLib.joinpath directory n) sub st0))) ->
  extends root directory st (fst (for_children walk directory es st)).
Proof.
  intros Hd Hwalk. revert st.
  induction es as [|[n [sz|sub]] es IH]; intros st; simpl.
  - apply extends_refl.
  - specialize (IH st). destruct (for_children walk directory es st) as [st' [a| |]];
      exact IH.
  - pose proof (Hwalk n sub st) as H1.
    destruct (walk (PathLib.joinpath directory n) sub st) as [st1 [sub'| |]];
      simpl in H1; apply (extends_up _ _ n) in H1; try assumption.
    specialize (IH st1).
    destruct (for_children walk directory es st1) as [st2 [a| |]]; simpl in *;
      eapply extends_trans; eassumption.
Qed.

Lemma process_directory_extends (fuel : nat) (tools : string -> bool)
    (directory root : PathLib.path) (es : listing) (st : run) :
  extends root directory st (fst (process_directory fuel tools directory root es st)).
Proof.
  revert directory es st. induction fuel as [|fuel IH]; intros directory es st.
  - apply extends_refl.
  - simpl. destruct (is_generated_dir directory root) eqn:G; [apply extends_refl|].
    assert (extends root directory st (emit (Renamed directory) st)) as H1.
    { apply extends_emit; [|reflexivity]. now apply clear_below_self. }
    destruct (rename_files es) as [es1|]; [|exact H1].
    set (bs := bucket_files (PathLib.name directory) es1).
    set (st2 := emit (Bucketed directory _) (emit (Renamed directory) st)).
    assert (extends root directory st st2) as H2.
    { eapply extends_trans; [exact H1|].
      apply extends_emit; [|reflexivity]. split; [now apply clear_below_self|].
      apply Forall_map. exact (bucket_files_generated directory root es1). }
    destruct (place_buckets bs es1) as [es2|]; [|exact H2].
    pose proof (build_images_extends tools directory root directory bs st2
                  (bucket_files_generated directory root es1)) as H3.
    destruct (build_images tools directory root bs st2) as [st3 [u| |]];
      simpl in H3; try (eapply extends_trans; eassumption).
    eapply extends_trans; [exact H2|].
    eapply extends_trans; [exact H3|].
    eapply extends_trans;
      [apply (extends_emit root directory (Listed directory));
       [now apply clear_below_self | reflexivity]|].
    apply for_children_extends; [assumption|].
    intros n sub st0. apply IH.
Qed.

Lemma clear_below_not_generated (root start d : PathLib.path) :
  clear_below root start d -> is_generated_dir d root = false.
Proof.
  intros (rel & -> & H). specialize (H (List.length rel) (le_n _)).
  now rewrite firstn_all in H.
Qed.

Lemma event_ok_visited (root start : PathLib.path) (e : event) (d : PathLib.path) :
  event_ok root start e -> visited e = Some d -> is_generated_dir d root = false.
Proof.
  destruct e; simpl; intros Hok [= <-];
    apply (clear_below_not_generated root start); tauto.
Qed.

(** C6.  In every walk, complete or cut short, started at any directory
    and over any tree: each directory on which [rename_files] or
    [bucket_files] is called, or whose children are enumerated, is not
    classified as generated and lies below no directory classified as
    generated; every bucket directory that [bucket_files] returns is
    classified as generated, so the enumeration that follows skips it. *)
Theorem generated_dirs_left_alone (fuel : nat) (tools : string -> bool)
    (directory root : PathLib.path) (es : listing) (c : Z)
    (m : list (string * list string)) :
  let untouched start e :=
    (forall d, visited e = Some d ->
               is_generated_dir d root = false /\ clear_below root start d)
    /\ (forall d created, e = Bucketed d created ->
          Forall (fun b => PathLib.parent b = d /\ is_generated_dir b root = true)
                 created) in
  Forall (untouched directory)
         (log (fst (process_directory fuel tools directory root es (mkrun c m []))))
  /\ Forall (untouched root) (log (fst (main fuel tools root es))).
Proof.
  intros untouched.
  assert (forall start evs, Forall (event_ok root start) evs ->
                            Forall (untouched start) evs) as Hok.
  { intros start evs F. eapply Forall_impl; [|exact F].
    intros e Hok. split.
    - intros d Hd. split; [now apply (event_ok_visited root start e)|].
      destruct e; simpl in *; try discriminate Hd; injection Hd as <-; tauto.
    - intros d created ->. simpl in Hok. tauto. }
  split.
  - destruct (process_directory_extends fuel tools directory root es (mkrun c m []))
      as (evs & L & _ & F).
    rewrite L. now apply Hok.
  - unfold main. destruct (fs_mkdir IMAGES_DIRNAME es) as [es1|]; [|constructor].
    destruct (process_directory_extends fuel tools root root es1 (mkrun 0 [] []))
      as (evs & L & _ & F).
    destruct (process_directory fuel tools root root es1 (mkrun 0 [] []))
      as [st1 [a| |]]; simpl in *; rewrite L; now apply Hok.
Qed.

(** ** The manifest of a run *)

(** C9.  When [main] completes, the lines it writes are: one line for each
    directory under which an image was recorded, in the order in which
    those directories were first recorded; the line is the directory's
    path relative to the root, then [" > "], then the containers recorded
    under it, in the order of production and joined by [", "], then a line
    feed.  Nothing is sorted and nothing is dropped. *)
Theorem manifest_lines (fuel : nat) (tools : string -> bool)
    (root : PathLib.path) (es : listing) (st : run) (lines : list string) :
  main fuel tools root es = (st, Done lines) ->
  lines
  = map (fun folder =>
           (folder ++ " > "
            ++ Str.join ", " (values_of folder (recorded (log st)))
            ++ newline)%string)
        (first_occurrences (map fst (recorded (log st))))
  /\ Forall
       (fun e =>
          match e with
          | Built folder bucket _ _ =>
              option_map str_of_relative (relative_to (PathLib.parent bucket) root)
              = Some folder
          | _ => True
          end)
       (log st).
Proof.
  unfold main. destruct (fs_mkdir IMAGES_DIRNAME es) as [es1|]; [|discriminate].
  pose proof (process_directory_extends fuel tools root root es1 (mkrun 0 [] []))
    as (evs & L & M & F).
  destruct (process_directory fuel tools root root es1 (mkrun 0 [] []))
    as [st1 [a| |]]; try discriminate.
  intros [= <- <-]. simpl in L, M. rewrite L, M. split.
  - rewrite record_all_grouped. unfold render. rewrite map_map. reflexivity.
  - eapply Forall_impl; [|exact F].
    intros e Hok. destruct e; simpl in *; tauto.
Qed.

(** The run on the example tree: the directories worked on are the root
    and [Sub]; [Sub_7], [Images] and the bucket directories made on the
    way are not among them. *)
Example example_run_visits :
  map visited (log (fst (main 5 (fun _ => true) example_root example_tree)))
  = [ Some example_root; Some example_root; None; None; Some example_root;
      Some (example_root ++ ["Sub"]); Some (example_root ++ ["Sub"]); None;
      Some (example_root ++ ["Sub"]) ]
  /\ snd (process_directory 5 (fun _ => true) example_root example_root
            example_tree (mkrun 0 [] []))
     = Done [ ("notes.txt", File 10);
              ("Sub", Folder [ ("Sub_7", Folder [("old.mid", File 1)]);
                               ("Sub_1", Folder [("00XDKSON.FIL", File 5)]) ]);
              ("Images", Folder []);
              ("Music_1", Folder [("00ADKSON.MID", File 400000)]);
              ("Music_2", Folder [("01BDKSON.MID", File 300000)]) ].
Proof. split; reflexivity. Qed.

Lemma manifest_lines_witness :
  [ (". > DSKA0000.hfe, DSKA0001.hfe" ++ newline)%string;
    ("Sub > DSKA0002.hfe" ++ newline)%string ]
  = map (fun folder =>
           (folder ++ " > "
            ++ Str.join ", "
                 (values_of folder
                    (recorded
                       (log (fst (main 5 (fun _ => true) example_root example_tree)))))
            ++ newline)%string)
        (first_occurrences
           (map fst
              (recorded
                 (log (fst (main 5 (fun _ => true) example_root example_tree)))))).
Proof.
  apply (manifest_lines 5 (fun _ => true) example_root example_tree
           (fst (main 5 (fun _ => true) example_root example_tree))).
  reflexivity.
Defined.

(** ** Renaming twice *)



(** ** Termination of the walk *)

Lemma fold_option_none {A B : Type} (f : option A -> B -> option A) (l : list B) :
  (forall b, f None b = None) -> fold_left f l None = None.
Proof. intros Hf. induction l as [|b l IH]; simpl; [reflexivity|]. now rewrite Hf. Qed.

Lemma fold_option_preserves {A B : Type} (f : option A -> B -> option A)
    (P : A -> Prop) (l : list B) :
  (forall b, f None b = None) ->
  (forall a b a', P a -> f (Some a) b = Some a' -> P a') ->
  forall a a', P a -> fold_left f l (Some a) = Some a' -> P a'.
Proof.
  intros Hnone Hstep. induction l as [|b l IH]; simpl; intros a a' Pa H.
  - now injection H as <-.
  - destruct (f (Some a) b) as [a1|] eqn:E.
    + eapply IH; [|exact H]. eapply Hstep; eassumption.
    + now rewrite fold_option_none in H.
Qed.

Lemma depth_folder (es : listing) : depth (Folder es) = S (listing_depth es).
Proof.
  reflexivity.
Qed.

Lemma listing_depth_In (n : string) (x : node) (es : listing) :
  In (n, x) es -> (depth x <= listing_depth es)%nat.
Proof.
  induction es as [|[m y] es IH]; simpl; [contradiction|].
  intros [[= -> ->]|H]; [lia|]. apply IH in H. lia.
Qed.

Lemma nodes_from_refl (es : listing) : nodes_from es es.
Proof. intros n x H. now exists n. Qed.

Lemma nodes_from_trans (a b c : listing) :
  nodes_from a b -> nodes_from b c -> nodes_from a c.
Proof. intros H1 H2 n x H. apply H2 in H as [n' H]. now apply H1 in H. Qed.

Lemma rename_entry_nodes (old new : string) (es : listing) :
  nodes_from es (rename_entry old new es).
Proof.
  intros n x H. unfold rename_entry in H. apply in_map_iff in H as ([m y] & E & H).
  simpl in E. destruct (m =? old)%string; injection E as <- <-; now exists m.
Qed.

Lemma remove_entry_subset (n : string) (es : listing) (e : string * node) :
  In e (remove_entry n es) -> In e es.
Proof. unfold remove_entry. intros H. now apply filter_In in H. Qed.

Lemma fs_rename_nodes (old new : string) (es es' : listing) :
  fs_rename old new es = Some es' -> nodes_from es es'.
Proof.
  unfold fs_rename. destruct (lookup old es) as [src|]; [|discriminate].
  destruct (old =? new)%string; [intros [= <-]; apply nodes_from_refl|].
  destruct (lookup new es) as [[sz|sub]|]; try discriminate; intros [= <-].
  - intros n x H. apply rename_entry_nodes in H as [n' H].
    exists n'. now apply remove_entry_subset in H.
  - apply rename_entry_nodes.
Qed.

Lemma rename_files_nodes (es es' : listing) :
  rename_files es = Some es' -> nodes_from es es'.
Proof.
  unfold rename_files.
  apply (fold_option_preserves rename_step (nodes_from es)).
  - reflexivity.
  - intros a [idx f] a' Ha. unfold rename_step. cbn [fst snd].
    destruct (fname f =? new_name idx (fname f))%string.
    + now intros [= <-].
    + intros H. apply fs_rename_nodes in H. eapply nodes_from_trans; eassumption.
  - apply nodes_from_refl.
Qed.

Lemma set_entry_In (dir : string) (x : node) (es : listing) (n : string) (y : node) :
  In (n, y) (set_entry dir x es) -> n = dir \/ In (n, y) es.
Proof.
  unfold set_entry. intros H. apply in_map_iff in H as ([m z] & E & H).
  simpl in E. destruct (String.eqb_spec m dir) as [->|_].
  - injection E as <- <-. now left.
  - injection E as <- <-. now right.
Qed.

Lemma fs_mkdir_folders (dirs : list string) (dir : string) (es0 es es' : listing) :
  In dir dirs -> folders_from dirs es0 es ->
  fs_mkdir dir es = Some es' -> folders_from dirs es0 es'.
Proof.
  intros Hdir Hes. unfold fs_mkdir.
  destruct (lookup dir es) as [[sz|sub]|]; try discriminate; intros [= <-];
    [assumption|].
  intros n sub H. apply in_app_or in H as [H|[[= <- <-]|[]]]; [now apply Hes|].
  now left.
Qed.

Lemma fs_move_folders (dirs : list string) (f dir : string) (es0 es es' : listing) :
  In dir dirs -> folders_from dirs es0 es ->
  fs_move f dir es = Some es' -> folders_from dirs es0 es'.
Proof.
  intros Hdir Hes. unfold fs_move.
  destruct (lookup f es) as [[sz|?]|]; try discriminate.
  destruct (lookup dir es) as [[?|sub]|]; try discriminate.
  assert (forall x, folders_from dirs es0 (set_entry dir x (remove_entry f es))) as H.
  { intros x n s H. apply set_entry_In in H as [->|H]; [now left|].
    apply remove_entry_subset in H. now apply Hes. }
  destruct (lookup f sub) as [[?|inner]|]; [| |intros [= <-]; apply H].
  - intros [= <-]. apply H.
  - destruct (lookup f inner); [discriminate|]. intros [= <-]. apply H.
Qed.

Lemma place_buckets_folders (bs : list bucket) (es es' : listing) :
  place_buckets bs es = Some es' -> folders_from (map bucket_dir bs) es es'.
Proof.
  unfold place_buckets.
  assert (forall all, incl (map bucket_dir bs) all ->
            forall a a', folders_from all es a ->
              fold_left place_bucket bs (Some a) = Some a' ->
              folders_from all es a') as H.
  { induction bs as [|b bs IH]; simpl; intros all Hall a a' Ha Hf.
    - now injection Hf as <-.
    - assert (In (bucket_dir b) all) as Hb by (apply Hall; now left).
      destruct (fold_left (place_members (bucket_dir b)) (members b)
                  (fs_mkdir (bucket_dir b) a)) as [a1|] eqn:E.
      + apply (IH all (fun x Hx => Hall x (or_intror Hx)) a1 a'); [|exact Hf].
        destruct (fs_mkdir (bucket_dir b) a) as [a0|] eqn:M;
          [|now rewrite fold_option_none in E].
        revert E. apply fold_option_preserves.
        * reflexivity.
        * intros x f x' Hx Hm. simpl in Hm. eapply fs_move_folders; eassumption.
        * eapply fs_mkdir_folders; eassumption.
      + now rewrite fold_option_none in Hf. }
  apply (H (map bucket_dir bs) (incl_refl _)).
  intros n sub Hn. now right.
Qed.

Lemma for_children_not_exhausted
    (walk : PathLib.path -> listing -> run -> run * result listing)
    (directory : PathLib.path) (es : listing) (st : run) :
  (forall n sub st0, In (n, Folder sub) es ->
     snd (walk (PathLib.joinpath directory n) sub st0) <> Exhausted) ->
  snd (for_children walk directory es st) <> Exhausted.
Proof.
  revert st. induction es as [|[n [sz|sub]] es IH]; intros st Hw; simpl.
  - discriminate.
  - specialize (IH st (fun n s st0 H => Hw n s st0 (or_intror H))).
    destruct (for_children walk directory es st) as [st' [a| |]]; simpl in *;
      congruence.
  - pose proof (Hw n sub st (or_introl eq_refl)) as H1.
    destruct (walk (PathLib.joinpath directory n) sub st) as [st1 [sub'| |]];
      simpl in *; try congruence.
    specialize (IH st1 (fun n s st0 H => Hw n s st0 (or_intror H))).
    destruct (for_children walk directory es st1) as [st2 [a| |]]; simpl in *;
      congruence.
Qed.

Lemma build_images_not_exhausted (tools : string -> bool)
    (directory root : PathLib.path) (bs : list bucket) (st : run) :
  snd (build_images tools directory root bs st) <> Exhausted.
Proof.
  revert st. induction bs as [|b bs IH]; intros st; cbn [build_images];
    [discriminate|].
  destruct (relative_to directory root); [|discriminate].
  destruct (tools _); [apply IH | discriminate].
Qed.

(** The walk is never cut short when the fuel exceeds the height of the
    tree by two: the directories that bucketing adds are skipped at once. *)
Lemma process_directory_terminates (fuel : nat) (tools : string -> bool)
    (directory root : PathLib.path) (es : listing) (st : run) :
  (listing_depth es + 2 <= fuel)%nat ->
  snd (process_directory fuel tools directory root es st) <> Exhausted.
Proof.
  revert directory es st. induction fuel as [|fuel IH]; intros directory es st Hf;
    [lia|].
  simpl. destruct (is_generated_dir directory root) eqn:G; [discriminate|].
  destruct (rename_files es) as [es1|] eqn:R; [|discriminate].
  destruct (place_buckets (bucket_files (PathLib.name directory) es1) es1)
    as [es2|] eqn:Pl; [|discriminate].
  pose proof (build_images_not_exhausted tools directory root
                (bucket_files (PathLib.name directory) es1)
                (emit (Bucketed directory
                         (map (fun b => PathLib.joinpath directory (bucket_dir b))
                              (bucket_files (PathLib.name directory) es1)))
                      (emit (Renamed directory) st))) as HB.
  destruct (build_images _ _ _ _ _) as [st3 [u| |]]; simpl in HB;
    try congruence; try discriminate.
  apply for_children_not_exhausted. intros n sub st0 Hin.
  apply place_buckets_folders in Pl. apply Pl in Hin as [Hdir|Hin].
  - (* a bucket directory: skipped *)
    apply in_map_iff in Hdir as (b & <- & Hb).
    pose proof (bucket_files_generated directory root es1) as Hgen.
    rewrite Forall_forall in Hgen. destruct (Hgen b Hb) as [_ Hg].
    destruct fuel; [lia|]. simpl. rewrite Hg. discriminate.
  - (* a directory that was there before *)
    apply rename_files_nodes in R. apply R in Hin as [n' Hin].
    apply listing_depth_In in Hin. rewrite depth_folder in Hin.
    apply IH. lia.
Qed.

(** ** The order of strings and the result of [sorted] *)

Lemma ascii_compare_refl (a : ascii) : Ascii.compare a a = Eq.
Proof. unfold Ascii.compare. apply N.compare_refl. Qed.

Lemma string_compare_refl (s : string) : String.compare s s = Eq.
Proof. induction s as [|c s IH]; simpl; [reflexivity|]. now rewrite ascii_compare_refl. Qed.

Lemma string_leb_refl (s : string) : (s <=? s)%string = true.
Proof. unfold String.leb. now rewrite string_compare_refl. Qed.

Lemma string_leb_trans (a b c : string) :
  (a <=? b)%string = true -> (b <=? c)%string = true -> (a <=? c)%string = true.
Proof.
  unfold String.leb. revert b c.
  induction a as [|x a IH]; intros [|y b] [|z c]; simpl; try congruence.
  unfold Ascii.compare.
  destruct (N.compare_spec (N_of_ascii x) (N_of_ascii y)) as [Exy|Lxy|Gxy];
    destruct (N.compare_spec (N_of_ascii y) (N_of_ascii z)) as [Eyz|Lyz|Gyz];
    destruct (N.compare_spec (N_of_ascii x) (N_of_ascii z)) as [Exz|Lxz|Gxz];
    try congruence; try lia.
  apply IH.
Qed.

Section SortedUnique.
Context {A : Type} (key : A -> string).

Local Abbreviation key_le := (key_le key).

Lemma key_le_trans : Relations_1.Transitive key_le.
Proof. intros x y z. apply string_leb_trans. Qed.

Lemma strongly_sorted_unique (l1 l2 : list A) :
  StronglySorted key_le l1 -> StronglySorted key_le l2 ->
  Permutation l1 l2 ->
  (forall a b, In a l1 -> In b l1 -> key a = key b -> a = b) ->
  l1 = l2.
Proof.
  intros S1. revert l2. induction S1 as [|a l1 S1 IH Ha]; intros l2 S2 P Hinj.
  - apply Permutation_nil in P. now subst.
  - destruct S2 as [|b l2 S2 Hb].
    + apply Permutation_sym, Permutation_nil in P. discriminate.
    + assert (a = b) as ->.
      { assert (In a (b :: l2)) as Ia
            by (eapply Permutation_in; [exact P | now left]).
        assert (In b (a :: l1)) as Ib
            by (eapply Permutation_in; [apply Permutation_sym; exact P | now left]).
        destruct Ia as [E|Ia]; [now symmetry|].
        destruct Ib as [E|Ib]; [assumption|].
        rewrite Forall_forall in Ha, Hb.
        apply Hinj; [now left | now right|].
        apply String.leb_antisym; [now apply Ha | now apply Hb]. }
      f_equal. apply IH; [assumption | now apply Permutation_cons_inv in P|].
      intros x y Hx Hy. apply Hinj; now right.
Qed.

Lemma sorted_by_unique (l l' : list A) :
  StronglySorted key_le l' -> Permutation l l' ->
  (forall a b, In a l' -> In b l' -> key a = key b -> a = b) ->
  sorted_by key l = l'.
Proof.
  intros S P Hinj. symmetry. apply strongly_sorted_unique; try assumption.
  - apply Sorted_StronglySorted; [exact key_le_trans | apply sorted_by_sorted].
  - apply Permutation_sym. rewrite sorted_by_perm. exact P.
Qed.
End SortedUnique.

(** ** Names that the rename pass leaves as they are *)


Lemma char_isupper_upper (c : ascii) :
  Str.char_isupper c = true -> Str.char_upper c = c.
Proof. each_ascii c; vm_compute; intros H; (reflexivity || discriminate H). Qed.


Lemma char_plain_not_sep (c : ascii) :
  Str.char_isdigit c || Str.char_isupper c = true ->
  negb (Ascii.eqb c "/") = true /\ negb (Ascii.eqb c ".") = true.
Proof. each_ascii c; vm_compute; intros H; (split; reflexivity) || discriminate H. Qed.

Lemma all_impl (p q : ascii -> bool) (s : string) :
  (forall c, p c = true -> q c = true) -> Str.all p s = true -> Str.all q s = true.
Proof.
  intros Hpq. induction s as [|c s IH]; simpl; [reflexivity|].
  intros H. apply andb_prop in H as [Hc Hs]. now rewrite (Hpq c Hc), IH.
Qed.

Lemma take_app (p t : string) : Str.take (String.length p) (p ++ t) = p.
Proof. induction p as [|c p IH]; simpl; [reflexivity | now rewrite IH]. Qed.

Lemma rfind_none (c : ascii) (s : string) :
  Str.all (fun a => negb (Ascii.eqb a c)) s = true -> Str.rfind c s = None.
Proof.
  induction s as [|a s IH]; simpl; [reflexivity|].
  intros H. apply andb_prop in H as [Ha Hs]. rewrite (IH Hs).
  apply negb_true_iff in Ha. now rewrite Ha.
Qed.

Lemma rfind_last_dot (body e : string) :
  Str.rfind "." e = None ->
  Str.rfind "." (body ++ String "." e) = Some (String.length body).
Proof.
  intros He. induction body as [|c body IH]; simpl.
  - now rewrite He.
  - now rewrite IH.
Qed.

Lemma stem_suffix_shape (body e : string) :
  body <> "" -> e <> "" -> Str.rfind "." e = None ->
  PathLib.stem_of (body ++ String "." e) = body
  /\ PathLib.suffix_of (body ++ String "." e) = String "." e.
Proof.
  intros Hb He Hr. unfold PathLib.stem_of, PathLib.suffix_of.
  rewrite rfind_last_dot by assumption. rewrite append_length. simpl String.length.
  assert ((0 <? String.length body)%nat
          && (String.length body <? String.length body + S (String.length e) - 1)%nat
          = true) as ->.
  { destruct body; [contradiction|]. destruct e; [contradiction|].
    apply andb_true_intro. split; [reflexivity|].
    apply Nat.ltb_lt. simpl. lia. }
  now rewrite take_app, drop_app.
Qed.

Lemma split_no_sep (sep : ascii) (s : string) :
  Str.all (fun a => negb (Ascii.eqb a sep)) s = true -> Str.split sep s = [s].
Proof.
  induction s as [|a s IH]; simpl; [reflexivity|].
  intros H. apply andb_prop in H as [Ha Hs]. apply negb_true_iff in Ha.
  now rewrite Ha, (IH Hs).
Qed.

Lemma name_of_plain (s : string) :
  Str.all (fun a => negb (Ascii.eqb a "/")) s = true ->
  s <> "" -> s <> "." -> PathLib.name_of s = s.
Proof.
  intros Hs H1 H2. unfold PathLib.name_of, PathLib.parts.
  rewrite split_no_sep by assumption. simpl.
  apply String.eqb_neq in H1, H2. now rewrite H1, H2.
Qed.



Lemma upper_letters_fixed (s : string) :
  Str.all Str.char_isupper s = true -> upper_letters s = s.
Proof.
  induction s as [|c s IH]; simpl; [reflexivity|].
  intros H. apply andb_prop in H as [Hc Hs].
  now rewrite (char_isupper_isalpha c Hc), (char_isupper_upper c Hc), IH.
Qed.

Lemma format_0d_digits (w : nat) (i : Z) :
  0 <= i -> Str.all Str.char_isdigit (format_0d w i) = true.
Proof.
  intros Hi. destruct (format_0d_nonneg w i Hi) as (k & u & -> & _).
  now rewrite all_app, zeros_digits, string_of_uint_digits.
Qed.



Lemma shaped_name (body e : string) :
  body <> "" ->
  Str.all (fun c => Str.char_isdigit c || Str.char_isupper c) body = true ->
  e = "FIL" \/ e = "MID" ->
  PathLib.name_of (body ++ String "." e) = (body ++ String "." e)%string
  /\ PathLib.stem_of (body ++ String "." e) = body
  /\ PathLib.suffix_of (body ++ String "." e) = String "." e.
Proof.
  intros Hb Hp He.
  assert (e <> "" /\ Str.rfind "." e = None
          /\ Str.all (fun a => negb (Ascii.eqb a "/")) (String "." e) = true)
    as (He1 & He2 & He3)
    by (destruct He as [-> | ->]; repeat split; discriminate).
  split; [|now apply stem_suffix_shape].
  apply name_of_plain.
  - rewrite all_app, He3, andb_true_r. eapply all_impl; [|exact Hp].
    intros c Hc. now apply char_plain_not_sep.
  - destruct body; [contradiction | discriminate].
  - destruct body as [|c [|c' body]]; simpl; try discriminate; contradiction.
Qed.



(** ** The order of the computed names *)









Lemma enumerate_from_snd {A : Type} (k : Z) (l : list A) :
  map snd (enumerate_from k l) = l.
Proof. revert k. induction l as [|x l IH]; intros k; simpl; [reflexivity | now rewrite IH]. Qed.






(** ** A rename pass that replaces no entry *)

Lemma lookup_Some_In (n : string) (x : node) (es : listing) :
  lookup n es = Some x -> In (n, x) es.
Proof.
  induction es as [|[m y] es IH]; simpl; [discriminate|].
  destruct (String.eqb_spec m n) as [->|_]; [intros [= ->]; now left|].
  intros H. right. now apply IH.
Qed.

Lemma lookup_None_iff (n : string) (es : listing) :
  lookup n es = None <-> ~ In n (map fst es).
Proof.
  induction es as [|[m y] es IH]; simpl; [tauto|].
  destruct (String.eqb_spec m n) as [->|Hne].
  - split; [discriminate | tauto].
  - rewrite IH. tauto.
Qed.

Lemma NoDup_names_functional (es : listing) (n : string) (x y : node) :
  NoDup (map fst es) -> In (n, x) es -> In (n, y) es -> x = y.
Proof.
  induction es as [|[m z] es IH]; simpl; [contradiction|].
  intros Hnd Hx Hy. inversion Hnd as [|? ? Hm Hes]; subst.
  destruct Hx as [Ex|Hx], Hy as [Ey|Hy].
  - congruence.
  - injection Ex as <- <-. exfalso. apply Hm.
    apply in_map_iff. exists (m, y). now split.
  - injection Ey as <- <-. exfalso. apply Hm.
    apply in_map_iff. exists (m, x). now split.
  - now apply IH.
Qed.

Lemma remove_entry_length (n : string) (es : listing) :
  (List.length (remove_entry n es) <= List.length es)%nat.
Proof. unfold remove_entry. apply filter_length_le. Qed.

Lemma remove_entry_shorter (n : string) (x : node) (es : listing) :
  lookup n es = Some x -> (List.length (remove_entry n es) < List.length es)%nat.
Proof.
  induction es as [|[m y] es IH]; simpl; [discriminate|].
  destruct (String.eqb_spec m n) as [->|_]; simpl.
  - intros _. pose proof (remove_entry_length n es). lia.
  - intros H. apply IH in H. lia.
Qed.

Lemma rename_entry_length (old new : string) (es : listing) :
  List.length (rename_entry old new es) = List.length es.
Proof. unfold rename_entry. apply length_map. Qed.

Lemma rename_entry_In (old new n : string) (x : node) (es : listing) :
  In (n, x) (rename_entry old new es)
  <-> (n = new /\ In (old, x) es) \/ (In (n, x) es /\ n <> old).
Proof.
  unfold rename_entry. rewrite in_map_iff. split.
  - intros ([m y] & E & H). simpl in E.
    destruct (String.eqb_spec m old) as [->|Hne]; injection E as <- <-; tauto.
  - intros [[-> H]|[H Hne]].
    + exists (old, x). simpl. now rewrite String.eqb_refl.
    + exists (n, x). simpl. apply String.eqb_neq in Hne. now rewrite Hne.
Qed.

Lemma rename_entry_NoDup (old new : string) (es : listing) :
  NoDup (map fst es) -> ~ In new (map fst es) ->
  NoDup (map fst (rename_entry old new es)).
Proof.
  induction es as [|[m y] es IH]; simpl; [constructor|].
  intros Hnd Hnew. inversion Hnd as [|? ? Hm Hes]; subst.
  assert (forall n, In n (map fst (rename_entry old new es)) ->
                    (n = new /\ In old (map fst es)) \/ In n (map fst es)) as Hin.
  { intros n H. apply in_map_iff in H as ([n' x] & <- & H).
    apply rename_entry_In in H as [[-> H]|[H _]]; simpl.
    - left. split; [reflexivity|]. apply in_map_iff. now exists (old, x).
    - right. apply in_map_iff. now exists (n', x). }
  destruct (String.eqb_spec m old) as [->|Hne]; simpl; constructor;
    try (apply IH; tauto).
  - intros H. apply Hin in H as [[_ H]|H]; tauto.
  - intros H. apply Hin in H as [[-> H]|H]; tauto.
Qed.

Lemma fs_rename_length (old new : string) (es es' : listing) :
  fs_rename old new es = Some es' -> (List.length es' <= List.length es)%nat.
Proof.
  unfold fs_rename. destruct (lookup old es) as [src|]; [|discriminate].
  destruct (old =? new)%string; [intros [= <-]; lia|].
  destruct (lookup new es) as [[sz|sub]|]; try discriminate; intros [= <-];
    rewrite rename_entry_length; [apply remove_entry_length | lia].
Qed.

Lemma fs_rename_kept (old new : string) (es es' : listing) :
  fs_rename old new es = Some es' -> old <> new ->
  (List.length es <= List.length es')%nat ->
  lookup new es = None /\ es' = rename_entry old new es.
Proof.
  unfold fs_rename. destruct (lookup old es) as [src|]; [|discriminate].
  intros H Hne Hl. apply String.eqb_neq in Hne. rewrite Hne in H.
  destruct (lookup new es) as [[sz|sub]|] eqn:L; try discriminate;
    injection H as <-; [|now split].
  rewrite rename_entry_length in Hl.
  pose proof (remove_entry_shorter new _ es L). lia.
Qed.

Lemma rename_pass_length (todo : list (Z * file)) (cur es' : listing) :
  fold_left rename_step todo (Some cur) = Some es' ->
  (List.length es' <= List.length cur)%nat.
Proof.
  apply (fold_option_preserves rename_step
           (fun a => (List.length a <= List.length cur)%nat)).
  - reflexivity.
  - intros a p a' Ha. unfold rename_step.
    destruct (fname (snd p) =? new_name (fst p) (fname (snd p)))%string.
    + now intros [= <-].
    + intros H. apply fs_rename_length in H. lia.
  - lia.
Qed.

Lemma rename_pass_entries (todo : list (Z * file)) (cur es' : listing) :
  NoDup (map fst cur) ->
  NoDup (map (fun p => fname (snd p)) todo) ->
  (forall p, In p todo -> In (fname (snd p)) (map fst cur)) ->
  fold_left rename_step todo (Some cur) = Some es' ->
  List.length es' = List.length cur ->
  NoDup (map fst es')
  /\ forall n x,
       In (n, x) es' <->
       (exists p, In p todo /\ n = new_name (fst p) (fname (snd p))
                  /\ In (fname (snd p), x) cur)
       \/ (In (n, x) cur /\ ~ In n (map (fun p => fname (snd p)) todo)).
Proof.
  revert cur. induction todo as [|p todo IH]; intros cur Hnd Htodo Hin Hfold Hlen.
  - simpl in Hfold. injection Hfold as <-. split; [assumption|].
    intros n x. split; [intros H; right; now split|].
    intros [(p & [] & _)|[H _]]. exact H.
  - cbn [fold_left] in Hfold.
    cbn [map] in Htodo. inversion Htodo as [|? ? Hp Htodo']; subst.
    set (old := fname (snd p)) in *. set (new := new_name (fst p) old) in *.
    assert (forall q, In q todo -> In (fname (snd q)) (map fst cur)) as Hin'
        by (intros q Hq; apply Hin; now right).
    unfold rename_step in Hfold at 2. fold old new in Hfold.
    destruct (String.eqb_spec old new) as [E|Hne].
    + (* the name is already the computed one *)
      destruct (IH cur Hnd Htodo' Hin' Hfold Hlen) as [Hnd' Hiff].
      split; [assumption|]. intros n x. rewrite Hiff. cbn [map In]. fold old.
      split.
      * intros [(q & Hq & -> & Hx)|[Hx Hn]].
        -- left. exists q. tauto.
        -- destruct (string_dec n old) as [->|Hno].
           ++ left. exists p. split; [now left|]. fold old new. now rewrite <- E.
           ++ right. split; [assumption|]. intros [H|H]; [congruence | tauto].
      * intros [(q & [<-|Hq] & Hn & Hx)|[Hx Hn]].
        -- right. fold old new in Hn, Hx. subst n. rewrite <- E.
           split; [assumption|]. exact Hp.
        -- left. exists q. tauto.
        -- right. split; [assumption|]. tauto.
    + (* the file is renamed *)
      destruct (fs_rename old new cur) as [cur1|] eqn:R;
        [|now rewrite fold_option_none in Hfold].
      pose proof (rename_pass_length _ _ _ Hfold) as L1.
      pose proof (fs_rename_length _ _ _ _ R) as L2.
      destruct (fs_rename_kept _ _ _ _ R Hne ltac:(lia)) as [Hfree ->].
      apply lookup_None_iff in Hfree.
      assert (forall q, In q todo -> fname (snd q) <> old /\ fname (snd q) <> new)
        as Hq.
      { intros q Hq. split.
        - intros E. apply Hp. rewrite <- E. now apply (in_map (fun p => fname (snd p))).
        - intros E. apply Hfree. rewrite <- E. now apply Hin'. }
      destruct (IH (rename_entry old new cur)) as [Hnd' Hiff];
        [ now apply rename_entry_NoDup | assumption | | assumption
        | rewrite rename_entry_length in *; lia |].
      { intros q Hqin. destruct (Hq q Hqin) as [Hqo _].
        specialize (Hin' q Hqin). apply in_map_iff in Hin' as ([m y] & Em & Hm).
        simpl in Em. subst m. apply in_map_iff. exists (fname (snd q), y).
        split; [reflexivity|]. apply rename_entry_In. right. now split. }
      split; [assumption|]. intros n x. rewrite Hiff. cbn [map In]. fold old.
      split.
      * intros [(q & Hqin & -> & Hx)|[Hx Hn]].
        -- destruct (Hq q Hqin) as [Hqo Hqn].
           apply rename_entry_In in Hx as [[Ex _]|[Hx _]]; [contradiction|].
           left. exists q. tauto.
        -- apply rename_entry_In in Hx as [[-> Hx]|[Hx Hno]].
           ++ left. exists p. split; [now left|]. now split.
           ++ right. split; [assumption|]. intros [H|H]; [congruence | tauto].
      * intros [(q & [<-|Hqin] & Hn & Hx)|[Hx Hn]].
        -- fold old new in Hn, Hx. subst n. right. split.
           ++ apply rename_entry_In. now left.
           ++ intros H. apply in_map_iff in H as (q & Eq & Hqin).
              destruct (Hq q Hqin) as [_ Hqn]. contradiction.
        -- destruct (Hq q Hqin) as [Hqo Hqn]. left. exists q.
           split; [assumption|]. split; [assumption|].
           apply rename_entry_In. right. now split.
        -- right. split; [|tauto]. apply rename_entry_In. right.
           split; [assumption|]. intros ->. tauto.
Qed.

Lemma eligible_In (f : file) (es : listing) :
  In f (eligible es) <->
  In (fname f, File (st_size f)) es /\ is_valid_ext (fname f) = true.
Proof.
  destruct f as [fn fs]. cbn [fname st_size].
  induction es as [|[n [sz|sub]] es IH]; simpl.
  - tauto.
  - destruct (is_valid_ext n) eqn:V; simpl; rewrite IH; split.
    + intros [[= -> ->]|H]; tauto.
    + intros [[[= -> ->]|H] Hv]; [now left | tauto].
    + tauto.
    + intros [[[= -> ->]|H] Hv]; [congruence | tauto].
  - rewrite IH. split; [tauto|]. intros [[H|H] Hv]; [discriminate | tauto].
Qed.

Lemma eligible_names_NoDup (es : listing) :
  NoDup (map fst es) -> NoDup (map fname (eligible es)).
Proof.
  induction es as [|[n [sz|sub]] es IH]; simpl; intros Hnd;
    inversion Hnd as [|? ? Hn Hes]; subst; [constructor| |now apply IH].
  destruct (is_valid_ext n); [|now apply IH].
  simpl. constructor; [|now apply IH].
  intros H. apply in_map_iff in H as (f & <- & Hf).
  apply eligible_In in Hf as [Hf _]. apply Hn.
  apply in_map_iff. now exists (fname f, File (st_size f)).
Qed.





(** ** Termination of a run *)

Lemma listing_depth_app (a b : listing) :
  listing_depth (a ++ b) = Nat.max (listing_depth a) (listing_depth b).
Proof.
  induction a as [|[n x] a IH]; simpl; [reflexivity|]. rewrite IH. lia.
Qed.

(** A run is never cut short when the fuel exceeds the height of the tree
    by three: it completes or stops on an exception. *)
Lemma main_terminates (fuel : nat) (tools : string -> bool)
    (root : PathLib.path) (es : listing) :
  (listing_depth es + 3 <= fuel)%nat ->
  snd (main fuel tools root es) <> Exhausted.
Proof.
  intros Hf. unfold main, fs_mkdir.
  assert (forall es1, (listing_depth es1 <= listing_depth es + 1)%nat ->
            snd (match process_directory fuel tools root root es1 (mkrun 0 [] []) with
                 | (st, Done _) => (st, Done (render (mapping st)))
                 | (st, Raised) => (st, Raised)
                 | (st, Exhausted) => (st, Exhausted)
                 end) <> Exhausted) as H.
  { intros es1 H1.
    pose proof (process_directory_terminates fuel tools root root es1 (mkrun 0 [] [])
                  ltac:(lia)) as T.
    destruct (process_directory fuel tools root root es1 (mkrun 0 [] []))
      as [st [a| |]]; simpl in *; congruence. }
  destruct (lookup IMAGES_DIRNAME es) as [[sz|sub]|]; [discriminate| |]; apply H.
  - lia.
  - rewrite listing_depth_app. simpl. lia.
Qed.


(* ================================================================== *)
(** * Further properties of the script *)
(* ================================================================== *)

(** ** Clusters *)

(** X1.  For a size that is not negative, [rounded_clusters] is the number
    of sectors of [SECTOR_SIZE] (512) bytes that hold the file, and never
    less than one: an empty file counts for one cluster. *)
Theorem rounded_clusters_ceiling (size : Z) :
  0 <= size ->
  1 <= rounded_clusters size
  /\ size <= SECTOR_SIZE * rounded_clusters size
  /\ (0 < size -> SECTOR_SIZE * (rounded_clusters size - 1) < size)
  /\ (size = 0 -> rounded_clusters size = 1).
Proof.
  intros Hs. unfold rounded_clusters, SECTOR_SIZE.
  pose proof (Z.div_mod (size + 512 - 1) 512 ltac:(lia)) as Hdm.
  pose proof (Z.mod_pos_bound (size + 512 - 1) 512 ltac:(lia)) as Hm.
  destruct (Z.eqb_spec ((size + 512 - 1) / 512) 0) as [E|E]; lia.
Qed.

Lemma rounded_clusters_ceiling_witness :
  1 <= rounded_clusters 513
  /\ 513 <= SECTOR_SIZE * rounded_clusters 513
  /\ (0 < 513 -> SECTOR_SIZE * (rounded_clusters 513 - 1) < 513)
  /\ (513 = 0 -> rounded_clusters 513 = 1).
Proof. apply (rounded_clusters_ceiling 513). lia. Defined.

(** ** The buckets of a directory *)

(** X2.  The bucket directories that [bucket_files] returns are named
    [base_1], [base_2], ... in this order, without a gap, and no name
    comes twice. *)
Theorem bucket_dirs_numbered (base : string) (es : listing) :
  map bucket_dir (bucket_files base es)
  = map (fun i => (base ++ "_" ++ str_of_int (Z.of_nat i))%string)
        (seq 1 (List.length (bucket_files base es)))
  /\ NoDup (map bucket_dir (bucket_files base es)).
Proof.
  pose proof (bucket_files_dirs base es) as H. unfold dirnames in H.
  split; [exact H|]. rewrite H.
  apply Finite.Injective_map_NoDup; [|apply seq_NoDup].
  intros i j E. apply (bucket_dirname_inj base) in E. lia.
Qed.

Lemma needs_new_bucket_test (st : bstate) (cur : bucket) (f : file) :
  used_clusters st = total_clusters (members cur) ->
  used_bytes st = total_bytes (members cur) ->
  file_count st = total_count (members cur) ->
  needs_new_bucket st f = overflow_test (members cur) f.
Proof. intros Hc Hy Hn. unfold needs_new_bucket, overflow_test. now rewrite Hc, Hy, Hn. Qed.

Lemma bucket_step_shape (base : string) (done : list file) (st : bstate) (f : file) :
  bucket_inv base done st ->
  exists closed cur,
    buckets st = closed ++ [cur]
    /\ map members (buckets (bucket_step base st f))
       = if overflow_test (members cur) f
         then map members closed ++ [members cur; [f]]
         else map members closed ++ [members cur ++ [f]].
Proof.
  intros (closed & cur & Hb & Hdirs & Hcur & Hidx & Hcd & Hdone & Hc & Hy & Hn
          & Hclosed & Hopen).
  exists closed, cur. split; [assumption|].
  unfold bucket_step. rewrite (needs_new_bucket_test st cur f Hc Hy Hn).
  destruct (overflow_test (members cur) f).
  - unfold place_file, open_bucket;
      cbn [buckets bucket_idx cur_dir used_clusters used_bytes file_count].
    rewrite Hb.
    rewrite (move_into_open _ f (closed ++ [cur])
               (mkbucket (bucket_dirname base (bucket_idx st + 1)) []));
      [| |reflexivity].
    + rewrite !map_app. cbn [map members app]. now rewrite <- app_assoc.
    + rewrite Hidx.
      replace (Z.of_nat (S (List.length closed)) + 1)
        with (Z.of_nat (S (S (List.length closed)))) by lia.
      apply Forall_app. split; [apply closed_dirs_differ; [assumption | lia]|].
      constructor; [|constructor]. rewrite Hcur.
      intros E. apply bucket_dirname_inj in E. lia.
  - unfold place_file; cbn [buckets]. rewrite Hb, move_into_open;
      [| rewrite Hcd, Hcur; apply closed_dirs_differ; [assumption | lia]
       | now symmetry ].
    rewrite !map_app. reflexivity.
Qed.

Lemma bucket_loop_pack (base : string) (files done : list file) (st : bstate) :
  bucket_inv base done st ->
  exists closed cur,
    buckets st = closed ++ [cur]
    /\ map members (buckets (fold_left (bucket_step base) files st))
       = map members closed ++ pack (members cur) files.
Proof.
  revert done st. induction files as [|f files IH]; intros done st Hinv.
  - destruct Hinv as (closed & cur & Hb & _). exists closed, cur.
    split; [assumption|]. simpl. now rewrite Hb, map_app.
  - destruct (bucket_step_shape base done st f Hinv) as (closed & cur & Hb & Hstep).
    exists closed, cur. split; [assumption|].
    destruct (IH _ _ (bucket_step_inv base done st f Hinv))
      as (closed' & cur' & Hb' & Hrest).
    cbn [fold_left pack]. rewrite Hrest.
    rewrite Hb', map_app in Hstep. cbn [map] in Hstep.
    destruct (overflow_test (members cur) f).
    + change [members cur; [f]] with ([members cur] ++ [[f]]) in Hstep.
      rewrite app_assoc in Hstep. apply app_inj_tail in Hstep as [-> ->].
      now rewrite <- app_assoc.
    + apply app_inj_tail in Hstep as [-> ->]. reflexivity.
Qed.

Lemma bucket_files_pack (base : string) (es : listing) :
  sorted_files es <> [] ->
  map members (bucket_files base es) = pack [] (sorted_files es).
Proof.
  intros Hne.
  destruct (bucket_loop_pack base (sorted_files es) [] _ (bucket_init_inv base))
    as (closed & cur & Hb & H).
  unfold bucket_files. destruct (sorted_files es) eqn:E; [contradiction|].
  rewrite H. unfold bucket_init in Hb. cbn [buckets] in Hb.
  change [mkbucket (bucket_dirname base 1) []]
    with ([] ++ [mkbucket (bucket_dirname base 1) []]) in Hb.
  apply app_inj_tail in Hb as [<- <-]. reflexivity.
Qed.

Lemma pack_all_nonempty (ms files : list file) :
  ms <> [] -> Forall (fun l => l <> []) (pack ms files).
Proof.
  revert ms. induction files as [|f files IH]; intros ms Hms; simpl.
  - now constructor.
  - destruct (overflow_test ms f).
    + constructor; [assumption|]. apply IH. discriminate.
    + apply IH. now destruct ms.
Qed.

Lemma pack_tail_nonempty (ms files : list file) :
  Forall (fun l => l <> []) (tl (pack ms files)).
Proof.
  revert ms. induction files as [|f files IH]; intros ms; simpl; [constructor|].
  destruct (overflow_test ms f); simpl.
  - apply pack_all_nonempty. discriminate.
  - apply IH.
Qed.

Lemma pack_head (ms files : list file) :
  exists more rest, pack ms files = (ms ++ more) :: rest.
Proof.
  revert ms. induction files as [|f files IH]; intros ms; simpl.
  - exists [], []. now rewrite app_nil_r.
  - destruct (overflow_test ms f).
    + exists [], (pack [f] files). now rewrite app_nil_r.
    + destruct (IH (ms ++ [f])) as (more & rest & ->).
      exists (f :: more), rest. now rewrite <- app_assoc.
Qed.

Lemma pack_concat (ms files : list file) :
  List.concat (pack ms files) = ms ++ files.
Proof.
  revert ms. induction files as [|f files IH]; intros ms; simpl.
  - reflexivity.
  - destruct (overflow_test ms f); simpl; rewrite IH;
      [reflexivity | now rewrite <- app_assoc].
Qed.

Lemma pack_adjacent (ms files : list file) :
  adjacent (fun l l' => exists f fs, l' = f :: fs /\ overflow_test l f = true)
           (pack ms files).
Proof.
  revert ms. induction files as [|f files IH]; intros ms; simpl; [exact I|].
  destruct (overflow_test ms f) eqn:T; [|apply IH].
  specialize (IH [f]). destruct (pack_head [f] files) as (more & rest & E).
  rewrite E in *. simpl. split; [|exact IH].
  exists f, more. now split.
Qed.

Lemma adjacent_map {A B : Type} (g : A -> B) (R : B -> B -> Prop) (l : list A) :
  adjacent R (map g l) -> adjacent (fun x y => R (g x) (g y)) l.
Proof.
  induction l as [|x [|y l] IH]; simpl; tauto.
Qed.

Lemma nonempty_lists_length {A : Type} (ls : list (list A)) :
  Forall (fun l => l <> []) ls ->
  (List.length ls <= List.length (List.concat ls))%nat.
Proof.
  induction 1 as [|l ls Hl _ IH]; simpl; [lia|].
  rewrite length_app. destruct l; [contradiction|]. simpl. lia.
Qed.

(** X3.  Of the buckets that [bucket_files] returns only the first can be
    empty, and it is empty exactly when the first file of the sorted list
    already fails the test against an empty bucket; so there are at most
    as many buckets as eligible files, plus one. *)
Theorem only_first_bucket_can_be_empty (base : string) (es : listing) :
  Forall (fun b => members b <> []) (tl (bucket_files base es))
  /\ (hd_error (map members (bucket_files base es)) = Some []
      <-> exists f rest, sorted_files es = f :: rest /\ overflow_test [] f = true)
  /\ (List.length (bucket_files base es) <= List.length (eligible es) + 1)%nat.
Proof.
  destruct (sorted_files es) as [|f rest] eqn:E.
  - unfold bucket_files. rewrite E. simpl. repeat split; try constructor.
    + discriminate.
    + intros (f & rest & H & _). discriminate.
    + lia.
  - assert (sorted_files es <> []) as Hne by (rewrite E; discriminate).
    pose proof (bucket_files_pack base es Hne) as Hp. rewrite E in Hp.
    split; [|split].
    + pose proof (pack_tail_nonempty [] (f :: rest)) as T. rewrite <- Hp in T.
      destruct (bucket_files base es) as [|b bs]; [constructor|].
      simpl in *. exact (proj1 (Forall_map _ _ _) T).
    + rewrite Hp. cbn [pack]. destruct (overflow_test [] f) eqn:T.
      * split; [|reflexivity]. intros _. now exists f, rest.
      * destruct (pack_head ([] ++ [f]) rest) as (more & tail & ->). simpl.
        split; [discriminate|]. intros (f' & rest' & [= <- <-] & H). congruence.
    + pose proof (pack_tail_nonempty [] (f :: rest)) as T.
      apply nonempty_lists_length in T.
      pose proof (pack_concat [] (f :: rest)) as C.
      assert (List.length (eligible es) = List.length (f :: rest)) as ->.
      { rewrite <- E. symmetry. apply Permutation_length, sorted_by_perm. }
      rewrite <- (length_map members (bucket_files base es)), Hp.
      destruct (pack [] (f :: rest)) as [|l ls]; [simpl; lia|].
      simpl in T, C. rewrite <- C, length_app.
      cbn [List.length]. lia.
Qed.

(** X4.  No bucket is opened without need: each bucket after the first
    starts with a file that the test refused for the bucket before it, as
    that bucket was left. *)
Theorem buckets_opened_on_overflow (base : string) (es : listing) :
  adjacent
    (fun b b' => exists f fs, members b' = f :: fs
                              /\ overflow_test (members b) f = true)
    (bucket_files base es).
Proof.
  destruct (sorted_files es) eqn:E.
  - unfold bucket_files. rewrite E. exact I.
  - assert (sorted_files es <> []) as Hne by (rewrite E; discriminate).
    apply (adjacent_map members
             (fun l l' => exists f fs, l' = f :: fs /\ overflow_test l f = true)).
    rewrite (bucket_files_pack base es Hne). apply pack_adjacent.
Qed.

(** ** The names given by the rename pass *)

Lemma new_name_body_any (idx : Z) (name : string) :
  0 <= idx ->
  let short := if idx >? 99 then Str.take 5 (get_shortname name)
               else get_shortname name in
  let body := (format_0d 2 idx ++ short)%string in
  body <> ""
  /\ Str.all (fun c => Str.char_isdigit c || Str.char_isupper c) body = true.
Proof.
  intros Hi short body.
  pose proof (get_shortname_length name) as Hl.
  pose proof (get_shortname_upper name) as Hu.
  pose proof (format_0d_digits 2 idx Hi) as Hd.
  assert (Str.all Str.char_isupper short = true /\ short <> "") as [Hs Hne].
  { unfold short. destruct (idx >? 99).
    - split; [now apply all_take|].
      destruct (get_shortname name); [discriminate | discriminate].
    - split; [assumption|]. destruct (get_shortname name); discriminate. }
  split.
  - unfold body. destruct (format_0d 2 idx); simpl; [assumption | discriminate].
  - unfold body. rewrite all_app. apply andb_true_intro. split.
    + eapply all_impl; [|exact Hd]. intros c ->. reflexivity.
    + eapply all_impl; [|exact Hs]. intros c ->. apply orb_true_r.
Qed.

Lemma new_name_parts (idx : Z) (name : string) :
  0 <= idx ->
  PathLib.stem_of (new_name idx name)
  = (format_0d 2 idx
     ++ (if idx >? 99 then Str.take 5 (get_shortname name)
         else get_shortname name))%string
  /\ PathLib.suffix_of (new_name idx name)
     = (if (Str.lower (PathLib.suffix_of name) =? ".fil")%string
        then ".FIL" else ".MID").
Proof.
  intros Hi. destruct (new_name_body_any idx name Hi) as [Hb Hp].
  unfold new_name. rewrite <- append_assoc.
  set (body := (format_0d 2 idx ++ _)%string) in *.
  destruct (Str.lower (PathLib.suffix_of name) =? ".fil")%string.
  - destruct (shaped_name body "FIL" Hb Hp (or_introl eq_refl)) as (_ & N2 & N3).
    change (body ++ ".FIL")%string with (body ++ String "." "FIL")%string.
    now rewrite N2, N3.
  - destruct (shaped_name body "MID" Hb Hp (or_intror eq_refl)) as (_ & N2 & N3).
    change (body ++ ".MID")%string with (body ++ String "." "MID")%string.
    now rewrite N2, N3.
Qed.

(** X5.  Whatever the index, the computed name splits at its only dot into
    the digits and letters before it and the extension [.FIL] or [.MID]
    after it; the extension is [.FIL] exactly for a file whose suffix
    lower-cased is [.fil], so [.mid] and [.midi] both become [.MID]; and
    the computed name is again the name of an eligible file. *)
Theorem new_name_extension (idx : Z) (name : string) :
  0 <= idx ->
  PathLib.stem_of (new_name idx name)
  = (format_0d 2 idx
     ++ (if idx >? 99 then Str.take 5 (get_shortname name)
         else get_shortname name))%string
  /\ PathLib.suffix_of (new_name idx name)
     = (if (Str.lower (PathLib.suffix_of name) =? ".fil")%string
        then ".FIL" else ".MID")
  /\ is_valid_ext (new_name idx name) = true.
Proof.
  intros Hi. destruct (new_name_parts idx name Hi) as [Hs Hx].
  split; [exact Hs|]. split; [exact Hx|].
  unfold is_valid_ext. rewrite Hx.
  destruct (Str.lower (PathLib.suffix_of name) =? ".fil")%string; reflexivity.
Qed.

Lemma new_name_extension_witness :
  PathLib.stem_of (new_name 7 "My Song.midi") = "07MYSONG"
  /\ PathLib.suffix_of (new_name 7 "My Song.midi") = ".MID"
  /\ is_valid_ext (new_name 7 "My Song.midi") = true.
Proof. apply (new_name_extension 7 "My Song.midi"). lia. Defined.

Lemma format_0d_2_lengths :
  forallb (fun n => Nat.eqb (String.length (format_0d 2 (Z.of_nat n))) 3)
          (seq 100 900)
  && forallb (fun n => Nat.eqb (String.length (format_0d 2 (Z.of_nat n))) 4)
             (seq 1000 (3000 + 3000 + 3000))
  = true.
Proof. vm_compute. reflexivity. Qed.

Lemma format_0d_2_length_3 (i : Z) :
  100 <= i <= 999 -> String.length (format_0d 2 i) = 3%nat.
Proof.
  intros Hi. pose proof format_0d_2_lengths as H.
  apply andb_prop in H as [H _]. rewrite forallb_forall in H.
  specialize (H (Z.to_nat i)). rewrite Z2Nat.id in H by lia.
  apply Nat.eqb_eq, H, in_seq. lia.
Qed.

Lemma format_0d_2_length_4 (i : Z) :
  1000 <= i <= 9999 -> String.length (format_0d 2 i) = 4%nat.
Proof.
  intros Hi. pose proof format_0d_2_lengths as H.
  apply andb_prop in H as [_ H]. rewrite forallb_forall in H.
  specialize (H (Z.to_nat i)). rewrite Z2Nat.id in H by lia.
  apply Nat.eqb_eq, H, in_seq. lia.
Qed.

(** X6.  The computed name keeps to eight characters before the dot and
    three after it for the first thousand files of a directory, and only
    for them: from index 1000 on (up to 9999) it has nine characters
    before the dot. *)
Theorem new_name_eight_dot_three (idx : Z) (name : string) :
  (0 <= idx <= 999 ->
   String.length (PathLib.stem_of (new_name idx name)) = 8%nat
   /\ String.length (PathLib.suffix_of (new_name idx name)) = 4%nat)
  /\ (1000 <= idx <= 9999 ->
      String.length (PathLib.stem_of (new_name idx name)) = 9%nat).
Proof.
  split; intros Hi.
  - destruct (new_name_parts idx name ltac:(lia)) as (-> & ->).
    split.
    + rewrite append_length. destruct (Z.gtb_spec idx 99).
      * rewrite take_length, get_shortname_length, format_0d_2_length_3 by lia.
        reflexivity.
      * rewrite get_shortname_length, format_0d_2_length by lia. reflexivity.
    + now destruct (Str.lower (PathLib.suffix_of name) =? ".fil")%string.
  - destruct (new_name_parts idx name ltac:(lia)) as (-> & _).
    rewrite append_length. destruct (Z.gtb_spec idx 99); [|lia].
    rewrite take_length, get_shortname_length, format_0d_2_length_4 by lia.
    reflexivity.
Qed.

Lemma new_name_eight_dot_three_witness :
  (String.length (PathLib.stem_of (new_name 123 "a.mid")) = 8%nat
   /\ String.length (PathLib.suffix_of (new_name 123 "a.mid")) = 4%nat)
  /\ String.length (PathLib.stem_of (new_name 1000 "a.mid")) = 9%nat.
Proof.
  split.
  - apply (proj1 (new_name_eight_dot_three 123 "a.mid")). lia.
  - apply (proj2 (new_name_eight_dot_three 1000 "a.mid")). lia.
Defined.

(** ** Short names *)

Lemma take_app_long (n : nat) (s t : string) :
  (n <= String.length s)%nat -> Str.take n (s ++ t) = Str.take n s.
Proof.
  revert s. induction n as [|n IH]; intros s H; [now destruct s, t|].
  destruct s as [|c s]; simpl in *; [lia|]. rewrite IH by lia. reflexivity.
Qed.

Lemma char_isupper_plain (c : ascii) :
  Str.char_isupper c = true ->
  negb (Ascii.eqb c "/") = true /\ negb (Ascii.eqb c ".") = true.
Proof. intros H. apply char_plain_not_sep. rewrite H. apply orb_true_r. Qed.

Lemma stem_of_letters (s : string) :
  Str.all Str.char_isupper s = true -> s <> "" -> PathLib.stem s = s.
Proof.
  intros Hu Hne. unfold PathLib.stem.
  rewrite name_of_plain; [| |assumption|].
  - unfold PathLib.stem_of. rewrite rfind_none; [reflexivity|].
    eapply all_impl; [|exact Hu]. intros c Hc. now apply char_isupper_plain.
  - eapply all_impl; [|exact Hu]. intros c Hc. now apply char_isupper_plain.
  - intros ->. discriminate.
Qed.

(** X7.  For a file name made of ASCII characters, the short name is the
    first six characters of the upper-cased letters of the stem followed by
    the filler [DKSONG]: the filler only completes what the letters leave
    open, a stem without a letter gives [DKSONG], and a short name is its
    own short name. *)
Theorem get_shortname_filler (filename : string) :
  Str.isascii filename = true ->
  get_shortname filename
  = Str.take 6 (upper_letters (PathLib.stem filename) ++ "DKSONG")
  /\ ((6 <= String.length (upper_letters (PathLib.stem filename)))%nat ->
      get_shortname filename = Str.take 6 (upper_letters (PathLib.stem filename)))
  /\ (upper_letters (PathLib.stem filename) = "" -> get_shortname filename = "DKSONG")
  /\ get_shortname (get_shortname filename) = get_shortname filename.
Proof.
  intros _.
  assert (get_shortname filename
          = Str.take 6 (upper_letters (PathLib.stem filename) ++ "DKSONG")) as H1.
  { unfold get_shortname.
    destruct (Nat.ltb_spec (String.length (upper_letters (PathLib.stem filename))) 6);
      [reflexivity | now rewrite take_app_long]. }
  split; [exact H1|]. split; [|split].
  - intros H. rewrite H1. now apply take_app_long.
  - intros H. rewrite H1, H. reflexivity.
  - pose proof (get_shortname_length filename) as Hl.
    pose proof (get_shortname_upper filename) as Hu.
    set (s := get_shortname filename) in *.
    assert (Str.take 6 s = s) as Ht by (rewrite <- Hl; apply take_all).
    unfold get_shortname. rewrite stem_of_letters; [|assumption|].
    + rewrite upper_letters_fixed by assumption. rewrite Hl.
      change (6 <? 6)%nat with false. exact Ht.
    + intros E. rewrite E in Hl. discriminate.
Qed.

Lemma get_shortname_filler_witness :
  get_shortname "Aria in G (take 2).mid" = Str.take 6 "ARIAINGTAKE"
  /\ get_shortname "1812.mid" = "DKSONG".
Proof.
  split.
  - apply (proj1 (proj2 (get_shortname_filler "Aria in G (take 2).mid" eq_refl))).
    simpl. lia.
  - apply (proj1 (proj2 (proj2 (get_shortname_filler "1812.mid" eq_refl)))).
    reflexivity.
Defined.

(** *** Letter case *)

Lemma char_lower_facts (c : ascii) :
  Ascii.eqb (Str.char_lower c) "/" = Ascii.eqb c "/"
  /\ Ascii.eqb (Str.char_lower c) "." = Ascii.eqb c "."
  /\ Str.isalpha (Str.char_lower c) = Str.isalpha c
  /\ Str.char_upper (Str.char_lower c) = Str.char_upper c
  /\ Str.char_lower (Str.char_lower c) = Str.char_lower c.
Proof. each_ascii c; vm_compute; repeat split. Qed.

Lemma lower_length (s : string) : String.length (Str.lower s) = String.length s.
Proof. unfold Str.lower. induction s as [|c s IH]; simpl; [reflexivity | now rewrite IH]. Qed.

Lemma lower_take (n : nat) (s : string) :
  Str.take n (Str.lower s) = Str.lower (Str.take n s).
Proof.
  unfold Str.lower. revert s. induction n as [|n IH]; intros [|c s]; simpl;
    try reflexivity. now rewrite IH.
Qed.

Lemma lower_drop (n : nat) (s : string) :
  Str.drop n (Str.lower s) = Str.lower (Str.drop n s).
Proof.
  unfold Str.lower. revert s. induction n as [|n IH]; intros [|c s]; simpl;
    try reflexivity. now rewrite IH.
Qed.

Lemma lower_lower (s : string) : Str.lower (Str.lower s) = Str.lower s.
Proof.
  unfold Str.lower. induction s as [|c s IH]; simpl; [reflexivity|].
  rewrite IH. now destruct (char_lower_facts c) as (_ & _ & _ & _ & ->).
Qed.

Lemma lower_rfind_dot (s : string) : Str.rfind "." (Str.lower s) = Str.rfind "." s.
Proof.
  unfold Str.lower. induction s as [|c s IH]; simpl; [reflexivity|].
  rewrite IH. now destruct (char_lower_facts c) as (_ & -> & _).
Qed.

Lemma lower_split (s : string) :
  Str.split "/" (Str.lower s) = map Str.lower (Str.split "/" s).
Proof.
  unfold Str.lower. induction s as [|c s IH]; simpl; [reflexivity|].
  rewrite IH. destruct (char_lower_facts c) as (-> & _).
  destruct (Ascii.eqb c "/"); [reflexivity|].
  now destruct (Str.split "/" s).
Qed.

Lemma lower_eqb_plain (x : string) :
  (Str.lower x =? "")%string = (x =? "")%string
  /\ (Str.lower x =? ".")%string = (x =? ".")%string.
Proof.
  destruct x as [|c x]; [split; reflexivity|]. split; [reflexivity|].
  unfold Str.lower. cbn [Str.map String.eqb].
  destruct (char_lower_facts c) as (_ & -> & _).
  now destruct x.
Qed.

Lemma lower_name_of (s : string) :
  PathLib.name_of (Str.lower s) = Str.lower (PathLib.name_of s).
Proof.
  unfold PathLib.name_of, PathLib.parts. rewrite lower_split.
  induction (Str.split "/" s) as [|x l IH]; [reflexivity|].
  cbn [map filter]. destruct (lower_eqb_plain x) as [-> ->].
  destruct (negb (x =? "")%string && negb (x =? ".")%string); [|exact IH].
  cbn [last]. rewrite IH.
  destruct (filter _ (map Str.lower l)) eqn:E1, (filter _ l) eqn:E2;
    try reflexivity.
  - clear IH. exfalso. revert E1 E2. induction l as [|y l IHl]; simpl; [discriminate|].
    destruct (lower_eqb_plain y) as [-> ->].
    destruct (negb (y =? "")%string && negb (y =? ".")%string);
      [discriminate | exact IHl].
  - clear IH. exfalso. revert E1 E2. induction l as [|y l IHl]; simpl; [discriminate|].
    destruct (lower_eqb_plain y) as [-> ->].
    destruct (negb (y =? "")%string && negb (y =? ".")%string);
      [discriminate | exact IHl].
Qed.

Lemma lower_stem_suffix (name : string) :
  PathLib.stem_of (Str.lower name) = Str.lower (PathLib.stem_of name)
  /\ PathLib.suffix_of (Str.lower name) = Str.lower (PathLib.suffix_of name).
Proof.
  unfold PathLib.stem_of, PathLib.suffix_of.
  rewrite lower_rfind_dot, lower_length.
  destruct (Str.rfind "." name) as [i|]; [|split; reflexivity].
  destruct ((0 <? i)%nat && (i <? String.length name - 1)%nat);
    [split; [apply lower_take | apply lower_drop] | split; reflexivity].
Qed.

Lemma upper_letters_lower (s : string) :
  upper_letters (Str.lower s) = upper_letters s.
Proof.
  unfold Str.lower. induction s as [|c s IH]; simpl; [reflexivity|].
  destruct (char_lower_facts c) as (_ & _ & -> & -> & _). now rewrite IH.
Qed.

(** X8.  In names made of ASCII characters letter case does not count: a
    name and its lower-cased form have the same short name and are eligible
    together, and the rename pass computes the same name for both at a
    given index. *)
Theorem names_ignore_case (idx : Z) (name : string) :
  Str.isascii name = true ->
  get_shortname (Str.lower name) = get_shortname name
  /\ is_valid_ext (Str.lower name) = is_valid_ext name
  /\ new_name idx (Str.lower name) = new_name idx name.
Proof.
  intros _.
  assert (get_shortname (Str.lower name) = get_shortname name) as H1.
  { unfold get_shortname, PathLib.stem.
    rewrite lower_name_of.
    destruct (lower_stem_suffix (PathLib.name_of name)) as [-> _].
    now rewrite upper_letters_lower. }
  assert (Str.lower (PathLib.suffix_of (Str.lower name))
          = Str.lower (PathLib.suffix_of name)) as H2.
  { destruct (lower_stem_suffix name) as [_ ->]. apply lower_lower. }
  split; [exact H1|]. split.
  - unfold is_valid_ext. now rewrite H2.
  - unfold new_name. now rewrite H1, H2.
Qed.

Lemma names_ignore_case_witness :
  get_shortname (Str.lower "Aria.MID") = get_shortname "Aria.MID"
  /\ is_valid_ext (Str.lower "Aria.MID") = is_valid_ext "Aria.MID"
  /\ new_name 3 (Str.lower "Aria.MID") = new_name 3 "Aria.MID".
Proof. apply (names_ignore_case 3 "Aria.MID"). reflexivity. Defined.


(** ** The mapping and its keys *)

(** X9.  [mapping[key].append(v)] keeps the keys in their order and adds a
    new key at the end; afterwards the list under [key] is what it was,
    followed by [v], the lists of the other keys are as before, and no key
    comes twice if none did. *)
Theorem record_appends (key v : string) (m : list (string * list string)) :
  map fst (record key v m)
  = (if existsb (String.eqb key) (map fst m) then map fst m
     else map fst m ++ [key])
  /\ mapping_get key (record key v m) = mapping_get key m ++ [v]
  /\ (forall k, k <> key -> mapping_get k (record key v m) = mapping_get k m)
  /\ (NoDup (map fst m) -> NoDup (map fst (record key v m))).
Proof.
  assert (map fst (record key v m)
          = (if existsb (String.eqb key) (map fst m) then map fst m
             else map fst m ++ [key])) as Hkeys.
  { induction m as [|[k vs] m IH]; simpl; [reflexivity|].
    rewrite (String.eqb_sym key k).
    destruct (k =? key)%string; simpl; [reflexivity|].
    rewrite IH. now destruct (existsb (String.eqb key) (map fst m)). }
  split; [exact Hkeys|]. split; [|split].
  - clear Hkeys. induction m as [|[k vs] m IH]; simpl.
    + now rewrite String.eqb_refl.
    + destruct (k =? key)%string eqn:E; simpl; rewrite E; [reflexivity | exact IH].
  - intros k Hk. clear Hkeys. induction m as [|[k' vs] m IH]; simpl.
    + apply String.eqb_neq in Hk. rewrite String.eqb_sym. now rewrite Hk.
    + destruct (String.eqb_spec k' key) as [->|Hne]; simpl.
      * destruct (String.eqb_spec key k); [congruence | reflexivity].
      * now rewrite IH.
  - intros Hnd. rewrite Hkeys.
    destruct (existsb (String.eqb key) (map fst m)) eqn:E; [assumption|].
    apply NoDup_app; [assumption | repeat constructor; intros [] |].
    intros x Hx [Ex|[]]. subst x.
    assert (existsb (String.eqb key) (map fst m) = true) as Hin
        by (now apply existsb_eqb_In).
    congruence.
Qed.

(** X10.  [directory.relative_to(root)] succeeds exactly on the paths at or
    below [root] and returns what follows [root]; and two relative paths
    whose components have no ["/"] and are not ["."] are written
    differently, so two directories never share a key of the mapping. *)
Theorem relative_to_round_trip (directory root rel rel' : PathLib.path) :
  (relative_to directory root = Some rel <-> directory = root ++ rel)
  /\ (Forall plain_component rel -> Forall plain_component rel' ->
      str_of_relative rel = str_of_relative rel' -> rel = rel').
Proof.
  split.
  - revert directory. induction root as [|r root IH]; intros directory.
    + destruct directory; simpl; split; congruence.
    + destruct directory as [|d directory]; simpl; [split; discriminate|].
      destruct (String.eqb_spec r d) as [->|Hne].
      * rewrite IH. split; congruence.
      * split; [discriminate | congruence].
  - assert (forall l, Forall plain_component l -> l <> [] ->
                      Str.split "/" (Str.join "/" l) = l) as Hsplit.
    { induction l as [|c l IHl]; intros Hl Hne; [contradiction|].
      inversion Hl as [|? ? [Hc _] Hl']; subst.
      assert (forall t, Str.split "/" (c ++ String "/" t)
                        = c :: Str.split "/" t) as Happ.
      { intros t. clear - Hc. induction c as [|a c IHc]; simpl; [reflexivity|].
        simpl in Hc. apply andb_prop in Hc as [Ha Hc].
        apply negb_true_iff in Ha. now rewrite Ha, IHc. }
      unfold Str.join in *. destruct l as [|c' l]; simpl.
      - now apply split_no_sep.
      - rewrite Happ. f_equal. apply IHl; [assumption | discriminate]. }
    intros Hr Hr' E. unfold str_of_relative in E.
    assert (forall l, Forall plain_component l -> l <> [] -> Str.join "/" l <> ".")
      as Hdot.
    { intros l Hl Hne E'. apply (f_equal (Str.split "/")) in E'.
      rewrite Hsplit in E' by assumption. simpl in E'. subst l.
      inversion Hl as [|? ? [_ Hc] _]; subst. now apply Hc. }
    destruct rel as [|c l], rel' as [|c' l']; try reflexivity.
    + exfalso. symmetry in E. revert E. apply Hdot; [assumption | discriminate].
    + exfalso. revert E. apply Hdot; [assumption | discriminate].
    + apply (f_equal (Str.split "/")) in E.
      rewrite !Hsplit in E; (assumption || discriminate).
Qed.

Lemma relative_to_round_trip_witness :
  (relative_to ["home"; "u"; "Music"; "Sub"] ["home"; "u"; "Music"] = Some ["Sub"]
   <-> ["home"; "u"; "Music"; "Sub"] = ["home"; "u"; "Music"] ++ ["Sub"])
  /\ (str_of_relative ["a"; "b"] = str_of_relative ["a"; "b"] -> ["a"; "b"] = ["a"; "b"]).
Proof.
  destruct (relative_to_round_trip ["home"; "u"; "Music"; "Sub"]
              ["home"; "u"; "Music"] ["Sub"] ["Sub"]) as [H1 _].
  destruct (relative_to_round_trip [] [] ["a"; "b"] ["a"; "b"]) as [_ H2].
  split; [exact H1|].
  apply H2; repeat constructor; discriminate.
Defined.

(** ** Numbers in names *)

Lemma append_empty (s : string) : (s ++ "")%string = s.
Proof. induction s as [|c s IH]; simpl; [reflexivity | now rewrite IH]. Qed.

Lemma zeros_length (n : nat) : String.length (zeros n) = n.
Proof. induction n; simpl; [reflexivity | now f_equal]. Qed.

(** X11.  The zero-padded decimal form behind [{idx:02d}] and [{:04d}], for
    a number that is not negative: it is made of digits only, has at least
    the asked width, starts with no sign, and reads back as the number, so
    different numbers have different forms. *)
Theorem format_0d_round_trip (w : nat) (i j : Z) :
  0 <= i ->
  Str.all Str.char_isdigit (format_0d w i) = true
  /\ (w <= String.length (format_0d w i))%nat
  /\ leading_index (format_0d w i) = Some i
  /\ (0 <= j -> format_0d w i = format_0d w j -> i = j).
Proof.
  intros Hi.
  assert (forall k, 0 <= k -> leading_index (format_0d w k) = Some k) as Hread.
  { intros k Hk. rewrite <- (append_empty (format_0d w k)).
    now apply leading_index_format. }
  split; [now apply format_0d_digits|]. split; [|split].
  - unfold format_0d. destruct (Z.ltb_spec i 0); [lia|].
    rewrite !append_length, zeros_length. simpl. lia.
  - now apply Hread.
  - intros Hj E. apply (f_equal leading_index) in E.
    rewrite !Hread in E by assumption. congruence.
Qed.

Lemma format_0d_round_trip_witness :
  Str.all Str.char_isdigit (format_0d 4 17) = true
  /\ (4 <= String.length (format_0d 4 17))%nat
  /\ leading_index (format_0d 4 17) = Some 17
  /\ (0 <= 17 -> format_0d 4 17 = format_0d 4 17 -> 17 = 17).
Proof. apply (format_0d_round_trip 4 17 17). lia. Defined.


(** ** Images and their numbers *)

Lemma map_seq_from {A : Type} (f : nat -> A) (n m : nat) :
  map f (seq n m) = map (fun k => f (n + k)%nat) (seq 0 m).
Proof.
  revert n f. induction m as [|m IH]; intros n f; simpl; [reflexivity|].
  rewrite Nat.add_0_r. f_equal. rewrite (IH (S n)), (IH 1%nat).
  apply map_ext. intros k. f_equal. lia.
Qed.

Lemma images_from_app (c : Z) (n m : nat) :
  images_from c (n + m) = images_from c n ++ images_from (c + Z.of_nat n) m.
Proof.
  unfold images_from. rewrite seq_app, map_app. f_equal.
  rewrite map_seq_from. apply map_ext. intros k.
  now replace (c + Z.of_nat (0 + n + k)) with (c + Z.of_nat n + Z.of_nat k) by lia.
Qed.

Lemma images_from_S (c : Z) (n : nat) :
  images_from c (S n)
  = ((IMG_TEMPLATE c ++ ".img")%string, (IMG_TEMPLATE c ++ ".hfe")%string)
      :: images_from (c + 1) n.
Proof.
  change (S n) with (1 + n)%nat. rewrite images_from_app.
  unfold images_from at 1. cbn [seq map app Z.of_nat]. now rewrite Z.add_0_r.
Qed.

Lemma built_images_app (a b : list event) :
  built_images (a ++ b) = built_images a ++ built_images b.
Proof. apply flat_map_app. Qed.

Lemma built_buckets_app (a b : list event) :
  built_buckets (a ++ b) = built_buckets a ++ built_buckets b.
Proof. apply flat_map_app. Qed.

Lemma created_dirs_app (a b : list event) :
  created_dirs (a ++ b) = created_dirs a ++ created_dirs b.
Proof. apply flat_map_app. Qed.

Lemma counted_refl {A : Type} (st : run) (r : result A) : counted st st r.
Proof.
  exists []. rewrite app_nil_r. simpl. repeat split; try lia.
  now exists [].
Qed.

Lemma counted_quiet {A : Type} (st : run) (e : event) (r : result A) :
  built_images [e] = [] -> built_buckets [e] = [] -> created_dirs [e] = [] ->
  counted st (emit e st) r.
Proof.
  intros H1 H2 H3. exists [e]. rewrite H1, H2, H3. simpl.
  repeat split; try lia. now exists [].
Qed.

Lemma counted_trans {A B : Type} (st st1 st2 : run) (a : A) (r : result B) :
  counted st st1 (Done a) -> counted st1 st2 r -> counted st st2 r.
Proof.
  intros (e1 & L1 & I1 & Lo1 & Hi1 & P1 & D1) (e2 & L2 & I2 & Lo2 & Hi2 & P2 & D2).
  destruct (D1 eq_refl) as [C1 B1].
  exists (e1 ++ e2).
  rewrite built_images_app, built_buckets_app, created_dirs_app, length_app.
  split; [now rewrite L2, L1, app_assoc|].
  split; [rewrite images_from_app, <- I1, <- C1, <- I2; reflexivity|].
  split; [lia|]. split; [lia|]. split.
  - destruct P2 as [rest P2]. exists rest. now rewrite B1, P2, app_assoc.
  - intros Hd. destruct (D2 Hd) as [C2 B2]. split; [lia|]. now rewrite B1, B2.
Qed.

Lemma counted_outcome {A B : Type} (st st' : run) (r : result A) (r' : result B) :
  (is_done r' = true -> is_done r = true) -> counted st st' r -> counted st st' r'.
Proof.
  intros Hr (evs & L & I & Lo & Hi & P & D). exists evs.
  split; [assumption|]. split; [assumption|]. split; [assumption|].
  split; [assumption|]. split; [assumption|].
  intros Hd. now apply D, Hr.
Qed.

Lemma build_images_counted (tools : string -> bool)
    (directory root : PathLib.path) (bs : list bucket) (st : run) :
  exists evs,
    log (fst (build_images tools directory root bs st)) = log st ++ evs
    /\ created_dirs evs = []
    /\ built_images evs
       = images_from (counter st) (List.length (built_images evs))
    /\ counter st + Z.of_nat (List.length (built_images evs))
       <= counter (fst (build_images tools directory root bs st))
    /\ counter (fst (build_images tools directory root bs st))
       <= counter st + Z.of_nat (List.length (built_images evs)) + 1
    /\ (exists rest,
          map (fun b => PathLib.joinpath directory (bucket_dir b)) bs
          = built_buckets evs ++ rest)
    /\ (is_done (snd (build_images tools directory root bs st)) = true ->
        counter (fst (build_images tools directory root bs st))
        = counter st + Z.of_nat (List.length (built_images evs))
        /\ map (fun b => PathLib.joinpath directory (bucket_dir b)) bs
           = built_buckets evs).
Proof.
  revert st. induction bs as [|b bs IH]; intros st.
  - exists []. simpl. rewrite app_nil_r. repeat split; try lia. now exists [].
  - cbn [build_images counter mapping log].
    assert (exists evs : list event,
               log st = log st ++ evs /\ created_dirs evs = []
               /\ built_images evs
                  = images_from (counter st) (List.length (built_images evs))
               /\ counter st + Z.of_nat (List.length (built_images evs))
                  <= counter st + 1
               /\ counter st + 1
                  <= counter st + Z.of_nat (List.length (built_images evs)) + 1
               /\ (exists rest,
                     map (fun b => PathLib.joinpath directory (bucket_dir b)) (b :: bs)
                     = built_buckets evs ++ rest)) as Hstop.
    { exists []. simpl. rewrite app_nil_r. repeat split; try lia. now eexists. }
    destruct (relative_to directory root) as [rel|].
    2: { destruct Hstop as (evs & H1 & H2 & H3 & H4 & H5 & H6). exists evs.
         cbn [fst snd counter log is_done]. repeat split; try assumption;
           discriminate. }
    destruct (tools _).
    2: { destruct Hstop as (evs & H1 & H2 & H3 & H4 & H5 & H6). exists evs.
         cbn [fst snd counter log is_done]. repeat split; try assumption;
           discriminate. }
    match goal with |- context [build_images tools directory root bs ?s] =>
      destruct (IH s) as (evs & L & C & I & Lo & Hi & P & D) end.
    cbn [counter log] in *.
    exists (Built (str_of_relative rel) (PathLib.joinpath directory (bucket_dir b))
              (IMG_TEMPLATE (counter st) ++ ".img")
              (IMG_TEMPLATE (counter st) ++ ".hfe") :: evs).
    match goal with |- context [built_images (?e :: evs)] =>
      change (built_images (e :: evs))
        with ((IMG_TEMPLATE (counter st) ++ ".img", IMG_TEMPLATE (counter st) ++ ".hfe")%string
                :: built_images evs);
      change (built_buckets (e :: evs))
        with (PathLib.joinpath directory (bucket_dir b) :: built_buckets evs);
      change (created_dirs (e :: evs)) with (created_dirs evs)
    end.
    cbn [List.length map app].
    split; [now rewrite L, <- app_assoc|]. split; [assumption|].
    split.
    { rewrite images_from_S, <- I. reflexivity. }
    split; [lia|]. split; [lia|]. split.
    { destruct P as [rest P]. exists rest. now rewrite P. }
    intros Hd. destruct (D Hd) as [D1 D2]. split; [lia | now rewrite D2].
Qed.

Lemma for_children_counted
    (walk : PathLib.path -> listing -> run -> run * result listing)
    (directory : PathLib.path) :
  (forall child sub st, counted st (fst (walk child sub st)) (snd (walk child sub st))) ->
  forall es st,
    counted st (fst (for_children walk directory es st))
            (snd (for_children walk directory es st)).
Proof.
  intros Hwalk. induction es as [|[n [sz|sub]] es IH]; intros st.
  - apply counted_refl.
  - cbn [for_children]. specialize (IH st).
    destruct (for_children walk directory es st) as [st' [es''| |]];
      cbn [fst snd] in *; assumption.
  - cbn [for_children].
    pose proof (Hwalk (PathLib.joinpath directory n) sub st) as Hc.
    destruct (walk (PathLib.joinpath directory n) sub st) as [st' [sub'| |]];
      cbn [fst snd] in *; try assumption.
    specialize (IH st').
    destruct (for_children walk directory es st') as [st'' [es''| |]];
      cbn [fst snd] in *.
    + apply (counted_trans _ _ _ _ _ Hc IH).
    + apply (counted_trans _ _ _ _ _ Hc IH).
    + apply (counted_trans _ _ _ _ _ Hc IH).
Qed.

Lemma bucket_and_build_counted (tools : string -> bool)
    (directory root : PathLib.path) (bs : list bucket) (st : run) :
  let st2 :=
    emit (Bucketed directory
            (map (fun b => PathLib.joinpath directory (bucket_dir b)) bs))
         (emit (Renamed directory) st) in
  counted st (fst (build_images tools directory root bs st2))
          (snd (build_images tools directory root bs st2)).
Proof.
  intros st2.
  destruct (build_images_counted tools directory root bs st2)
    as (evs & L & C & I & Lo & Hi & P & D).
  exists ([Renamed directory;
           Bucketed directory
             (map (fun b => PathLib.joinpath directory (bucket_dir b)) bs)] ++ evs).
  rewrite built_images_app, built_buckets_app, created_dirs_app, C.
  change (built_images [Renamed directory; Bucketed directory _]) with (@nil (string * string)).
  change (built_buckets [Renamed directory; Bucketed directory _]) with (@nil PathLib.path).
  cbn [created_dirs flat_map app]. rewrite !app_nil_r.
  change (counter st2) with (counter st) in *.
  split; [rewrite L; unfold st2, emit; cbn [log]; now rewrite <- !app_assoc|].
  split; [assumption|]. split; [assumption|]. split; [assumption|].
  split; [assumption|]. assumption.
Qed.

Lemma process_directory_counted (tools : string -> bool) (root : PathLib.path)
    (fuel : nat) :
  forall directory es st,
    counted st (fst (process_directory fuel tools directory root es st))
            (snd (process_directory fuel tools directory root es st)).
Proof.
  induction fuel as [|fuel IH]; intros directory es st.
  - apply counted_refl.
  - cbn [process_directory].
    destruct (is_generated_dir directory root); [apply counted_refl|].
    destruct (rename_files es) as [es1|].
    2: { apply counted_quiet; reflexivity. }
    pose proof (bucket_and_build_counted tools directory root
                  (bucket_files (PathLib.name directory) es1) st) as Hb.
    cbv zeta in Hb.
    destruct (place_buckets _ es1) as [es2|].
    2: { cbn [fst snd].
         exists [Renamed directory;
                 Bucketed directory
                   (map (fun b => PathLib.joinpath directory (bucket_dir b))
                        (bucket_files (PathLib.name directory) es1))].
         unfold emit; cbn [log counter]. rewrite <- app_assoc.
         split; [reflexivity|]. split; [reflexivity|].
         split; [simpl; lia|]. split; [simpl; lia|].
         split; [now eexists|]. discriminate. }
    destruct (build_images tools directory root _ _) as [st3 [[]| |]];
      cbn [fst snd] in Hb |- *; try assumption.
    apply (counted_trans _ _ _ _ _ Hb).
    apply (counted_trans _ (emit (Listed directory) st3) _ tt).
    + apply counted_quiet; reflexivity.
    + apply for_children_counted. intros child sub st'. apply IH.
Qed.

Lemma image_name_inj (ext : string) (i j : Z) :
  no_leading_digit ext -> 0 <= i -> 0 <= j ->
  (IMG_TEMPLATE i ++ ext)%string = (IMG_TEMPLATE j ++ ext)%string -> i = j.
Proof.
  intros He Hi Hj E. unfold IMG_TEMPLATE in E. rewrite !append_assoc in E.
  apply append_inv_head in E. apply (f_equal leading_index) in E.
  rewrite !leading_index_format in E by assumption. congruence.
Qed.

Lemma images_from_NoDup (n : nat) :
  NoDup (map fst (images_from 0 n)) /\ NoDup (map snd (images_from 0 n)).
Proof.
  unfold images_from. rewrite !map_map. cbn [fst snd].
  split; (apply Finite.Injective_map_NoDup; [|apply seq_NoDup]); intros a b E;
    apply image_name_inj in E; try lia; reflexivity.
Qed.

Lemma main_counted (fuel : nat) (tools : string -> bool) (root : PathLib.path)
    (es : listing) :
  counted (mkrun 0 [] []) (fst (main fuel tools root es))
          (snd (main fuel tools root es)).
Proof.
  unfold main. destruct (fs_mkdir IMAGES_DIRNAME es) as [es1|];
    [|apply counted_refl].
  pose proof (process_directory_counted tools root fuel root es1 (mkrun 0 [] [])) as H.
  destruct (process_directory fuel tools root root es1 (mkrun 0 [] []))
    as [st [a| |]]; exact H.
Qed.

(** X12.  The images of a run are numbered from 0 without a gap, in the
    order in which they are built: the k-th one is [DSKA{k:04d}.img] with the
    container [DSKA{k:04d}.hfe].  No two images and no two containers share
    a name.  The counter ends at the number of images built or, when the
    external tools fail, one above it; after a run that completes it is the
    number of images built, which is the number the script reports. *)
Theorem image_numbers_consecutive (fuel : nat) (tools : string -> bool)
    (root : PathLib.path) (es : listing) :
  let st := fst (main fuel tools root es) in
  let images := built_images (log st) in
  images = images_from 0 (List.length images)
  /\ NoDup (map fst images) /\ NoDup (map snd images)
  /\ Z.of_nat (List.length images) <= counter st <= Z.of_nat (List.length images) + 1
  /\ (is_done (snd (main fuel tools root es)) = true ->
      counter st = Z.of_nat (List.length images)).
Proof.
  intros st images.
  destruct (main_counted fuel tools root es) as (evs & L & I & Lo & Hi & P & D).
  cbn [log counter app] in *. fold st in L, Lo, Hi, D.
  assert (images = built_images evs) as -> by (unfold images; now rewrite L).
  split; [assumption|]. rewrite I.
  split; [apply images_from_NoDup|]. split; [apply images_from_NoDup|].
  rewrite <- I. split; [lia|]. intros Hd. destruct (D Hd) as [C _]. lia.
Qed.

(** X13.  Every bucket directory gets one image, in the order in which
    [bucket_files] returned the directories: the buckets that a run has
    built images from are an initial part of the bucket directories that
    its calls of [bucket_files] have returned, one image each, and all of
    them when the run completes. *)
Theorem every_bucket_gets_an_image (fuel : nat) (tools : string -> bool)
    (root : PathLib.path) (es : listing) :
  let st := fst (main fuel tools root es) in
  (exists rest, created_dirs (log st) = built_buckets (log st) ++ rest)
  /\ List.length (built_buckets (log st)) = List.length (built_images (log st))
  /\ (is_done (snd (main fuel tools root es)) = true ->
      created_dirs (log st) = built_buckets (log st)).
Proof.
  intros st.
  destruct (main_counted fuel tools root es) as (evs & L & I & Lo & Hi & P & D).
  cbn [log counter app] in *. fold st in L, Lo, Hi, D. rewrite L.
  split; [assumption|]. split; [|intros Hd; now apply D].
  clear. induction evs as [|[| | |] evs IH]; simpl; auto.
Qed.

(** ** The manifest and the images *)

Lemma main_mapping (fuel : nat) (tools : string -> bool) (root : PathLib.path)
    (es : listing) :
  mapping (fst (main fuel tools root es))
  = record_all (recorded (log (fst (main fuel tools root es)))) [].
Proof.
  unfold main. destruct (fs_mkdir IMAGES_DIRNAME es) as [es1|]; [|reflexivity].
  pose proof (process_directory_extends fuel tools root root es1 (mkrun 0 [] []))
    as (evs & L & M & _).
  destruct (process_directory fuel tools root root es1 (mkrun 0 [] []))
    as [st1 [a| |]]; cbn [fst snd log mapping app] in *; now rewrite L, M.
Qed.

Lemma record_values (k v : string) (m : list (string * list string)) :
  Permutation (List.concat (map snd (record k v m)))
              (List.concat (map snd m) ++ [v]).
Proof.
  induction m as [|[k' vs] m IH]; simpl; [reflexivity|].
  destruct (k' =? k)%string; simpl.
  - rewrite <- !app_assoc. apply Permutation_app_head, Permutation_app_comm.
  - rewrite <- app_assoc. now apply Permutation_app_head.
Qed.

Lemma record_all_values (rs : list (string * string))
    (m : list (string * list string)) :
  Permutation (List.concat (map snd (record_all rs m)))
              (List.concat (map snd m) ++ map snd rs).
Proof.
  revert m. induction rs as [|[k v] rs IH]; intros m; simpl.
  - now rewrite app_nil_r.
  - unfold record_all in *. simpl. rewrite IH, record_values.
    now rewrite <- app_assoc.
Qed.

Lemma recorded_containers (evs : list event) :
  map snd (recorded evs) = map snd (built_images evs).
Proof.
  induction evs as [|[| | |] evs IH]; simpl; auto. now f_equal.
Qed.

Lemma values_of_nonempty (k : string) (rs : list (string * string)) :
  In k (map fst rs) -> values_of k rs <> [].
Proof.
  unfold values_of. induction rs as [|[k' v] rs IH]; simpl; [tauto|].
  intros [->|H].
  - now rewrite String.eqb_refl.
  - destruct (k' =? k)%string; [discriminate | now apply IH].
Qed.

(** X14.  In the mapping from which the manifest is written no directory
    comes twice and no directory has an empty list; the containers listed,
    all lines together, are the containers of the images built: each one is
    listed once, under one directory. *)
Theorem manifest_lists_each_container_once (fuel : nat) (tools : string -> bool)
    (root : PathLib.path) (es : listing) :
  let st := fst (main fuel tools root es) in
  NoDup (map fst (mapping st))
  /\ Forall (fun kv => snd kv <> []) (mapping st)
  /\ Permutation (List.concat (map snd (mapping st)))
                 (map snd (built_images (log st)))
  /\ NoDup (List.concat (map snd (mapping st))).
Proof.
  intros st.
  assert (Permutation (List.concat (map snd (mapping st)))
                      (map snd (built_images (log st)))) as Hp.
  { unfold st. rewrite main_mapping, record_all_values. simpl.
    now rewrite recorded_containers. }
  split; [|split; [|split; [exact Hp|]]].
  - unfold st. rewrite main_mapping, record_all_grouped, map_map. simpl.
    rewrite map_id. apply first_occurrences_NoDup.
  - unfold st. rewrite main_mapping, record_all_grouped.
    apply Forall_forall. intros kv Hkv. apply in_map_iff in Hkv as (k & <- & Hk).
    simpl. apply values_of_nonempty. now apply (proj1 (first_occurrences_In _ _)).
  - apply (Permutation_NoDup (Permutation_sym Hp)).
    destruct (main_counted fuel tools root es) as (evs & L & I & _).
    cbn [log app] in L. fold st in L. rewrite L.
    change ([] ++ evs) with evs. rewrite I.
    apply images_from_NoDup.
Qed.

(** ** The end of the walk *)

Lemma for_children_more
    (walk1 walk2 : PathLib.path -> listing -> run -> run * result listing)
    (directory : PathLib.path) :
  (forall child sub st,
      snd (walk1 child sub st) <> Exhausted ->
      walk2 child sub st = walk1 child sub st) ->
  forall es st,
    snd (for_children walk1 directory es st) <> Exhausted ->
    for_children walk2 directory es st = for_children walk1 directory es st.
Proof.
  intros Hw. induction es as [|[n [sz|sub]] es IH]; intros st; [reflexivity| |].
  - cbn [for_children]. specialize (IH st).
    destruct (for_children walk1 directory es st) as [st' [es''| |]];
      cbn [snd] in *; intros H; try congruence;
      rewrite IH by discriminate; reflexivity.
  - cbn [for_children]. specialize (Hw (PathLib.joinpath directory n) sub st).
    destruct (walk1 (PathLib.joinpath directory n) sub st) as [st' [sub'| |]];
      cbn [snd] in *; intros H; try congruence;
      rewrite Hw by discriminate; [|reflexivity].
    specialize (IH st').
    destruct (for_children walk1 directory es st') as [st'' [es''| |]];
      cbn [snd] in *; try congruence;
      rewrite IH by discriminate; reflexivity.
Qed.

Lemma process_directory_more (tools : string -> bool) (root : PathLib.path)
    (fuel : nat) :
  forall directory es st,
    snd (process_directory fuel tools directory root es st) <> Exhausted ->
    process_directory (S fuel) tools directory root es st
    = process_directory fuel tools directory root es st.
Proof.
  induction fuel as [|fuel IH]; intros directory es st; [simpl; congruence|].
  remember (S fuel) as k eqn:Ek.
  cbn [process_directory]. subst k. cbn [process_directory].
  destruct (is_generated_dir directory root); [reflexivity|].
  destruct (rename_files es) as [es1|]; [|reflexivity].
  destruct (place_buckets _ es1) as [es2|]; [|reflexivity].
  destruct (build_images tools directory root _ _) as [st3 [[]| |]];
    try reflexivity.
  apply for_children_more. intros child sub st'. apply IH.
Qed.

Lemma process_directory_fuel (tools : string -> bool) (root : PathLib.path)
    (fuel fuel' : nat) (directory : PathLib.path) (es : listing) (st : run) :
  (fuel <= fuel')%nat ->
  snd (process_directory fuel tools directory root es st) <> Exhausted ->
  process_directory fuel' tools directory root es st
  = process_directory fuel tools directory root es st.
Proof.
  intros Hle Hne. induction Hle as [|m Hle IH]; [reflexivity|].
  rewrite process_directory_more; [exact IH | now rewrite IH].
Qed.

(** X15.  The walk ends on every tree: the recursion of
    [process_directory] goes no deeper than the height of the tree plus the
    bucket directories and the images directory that the run adds.  A run
    whose depth allowance exceeds the height of the tree by three is not
    cut short, and a larger allowance changes nothing of its final state
    and outcome. *)
Theorem run_independent_of_fuel (fuel : nat) (tools : string -> bool)
    (root : PathLib.path) (es : listing) :
  (listing_depth es + 3 <= fuel)%nat ->
  snd (main fuel tools root es) <> Exhausted
  /\ main fuel tools root es = main (listing_depth es + 3) tools root es.
Proof.
  intros Hf. split; [now apply main_terminates|].
  unfold main.
  destruct (fs_mkdir IMAGES_DIRNAME es) as [es1|] eqn:Hm; [|reflexivity].
  assert (listing_depth es1 <= listing_depth es + 1)%nat as Hd.
  { unfold fs_mkdir in Hm.
    destruct (lookup IMAGES_DIRNAME es) as [[sz|sub]|]; try discriminate;
      injection Hm as <-; [lia|].
    rewrite listing_depth_app. simpl. lia. }
  rewrite (process_directory_fuel tools root (listing_depth es + 3) fuel);
    [reflexivity | assumption |].
  apply process_directory_terminates. lia.
Qed.

Lemma run_independent_of_fuel_witness :
  snd (main 10 (fun _ => true) example_root example_tree) <> Exhausted
  /\ main 10 (fun _ => true) example_root example_tree
     = main (listing_depth example_tree + 3) (fun _ => true) example_root example_tree.
Proof.
  apply (run_independent_of_fuel 10 (fun _ => true) example_root example_tree).
  vm_compute. lia.
Defined.

(** ** The renaming pass on the directory *)

Lemma rename_entry_names (old new : string) (es : listing) :
  map fst (rename_entry old new es)
  = map (fun n => if (n =? old)%string then new else n) (map fst es).
Proof.
  unfold rename_entry. rewrite !map_map. apply map_ext. intros [n x]. simpl.
  now destruct (n =? old)%string.
Qed.

Lemma rename_pass_free (todo : list (Z * file)) :
  forall cur : listing,
    NoDup (map (fun p => new_name (fst p) (fname (snd p))) todo) ->
    NoDup (map (fun p => fname (snd p)) todo) ->
    (forall p, In p todo -> In (fname (snd p)) (map fst cur)) ->
    (forall p, In p todo ->
               new_name (fst p) (fname (snd p)) <> fname (snd p) ->
               ~ In (new_name (fst p) (fname (snd p))) (map fst cur)) ->
    exists es', fold_left rename_step todo (Some cur) = Some es'
                /\ List.length es' = List.length cur.
Proof.
  induction todo as [|q todo IH]; intros cur Hnew Hold Hin Hfree;
    [now exists cur|].
  cbn [fold_left]. unfold rename_step at 2.
  cbn [map] in Hnew, Hold. apply NoDup_cons_iff in Hnew as [Hn1 Hn2].
  apply NoDup_cons_iff in Hold as [Ho1 Ho2].
  destruct (String.eqb_spec (fname (snd q)) (new_name (fst q) (fname (snd q))))
    as [E|E].
  - apply IH; try assumption; intros p Hp; [apply Hin | apply Hfree]; now right.
  - unfold fs_rename.
    destruct (lookup (fname (snd q)) cur) as [x|] eqn:L.
    2: { apply lookup_None_iff in L. exfalso. apply L, Hin. now left. }
    apply String.eqb_neq in E as E'. rewrite E'.
    assert (lookup (new_name (fst q) (fname (snd q))) cur = None) as ->.
    { apply lookup_None_iff. apply Hfree; [now left | congruence]. }
    destruct (IH (rename_entry (fname (snd q)) (new_name (fst q) (fname (snd q))) cur))
      as (es' & F & Len); try assumption.
    + intros p Hp. rewrite rename_entry_names. apply in_map_iff.
      exists (fname (snd p)). split; [|apply Hin; now right].
      destruct (String.eqb_spec (fname (snd p)) (fname (snd q))) as [Eq|]; [|reflexivity].
      exfalso. apply Ho1. rewrite <- Eq.
      now apply (in_map (fun p => fname (snd p))).
    + intros p Hp Hne. rewrite rename_entry_names. intros Hcontra.
      apply in_map_iff in Hcontra as (m & Hm & Hmin).
      destruct (m =? fname (snd q))%string.
      * apply Hn1. rewrite Hm.
        now apply (in_map (fun p => new_name (fst p) (fname (snd p)))).
      * subst m. revert Hmin. apply Hfree; [now right | assumption].
    + exists es'. split; [exact F|]. now rewrite Len, rename_entry_length.
Qed.

(** X16.  When the entries of a directory bear distinct names and no
    rename of the pass lands on a name present in the directory,
    [rename_files] completes and loses nothing: the directory has as many
    entries as before, still under distinct names; every eligible file is
    found under the name computed for it, with the content it had; every
    other entry is found under its own name; and there is nothing else. *)
Theorem rename_files_completes (es : listing) :
  NoDup (map fst es) ->
  Forall (fun r => ~ In (snd r) (map fst es)) (renames_performed es) ->
  exists es',
    rename_files es = Some es'
    /\ List.length es' = List.length es
    /\ NoDup (map fst es')
    /\ (forall p, In p (enumerate (sorted_files es)) ->
                  In (new_name (fst p) (fname (snd p)), File (st_size (snd p))) es')
    /\ (forall n x, In (n, x) es -> ~ In n (map fname (sorted_files es)) ->
                    In (n, x) es')
    /\ (forall n x, In (n, x) es' ->
                    In n (assigned_names es) \/ In (n, x) es).
Proof.
  intros Hnd Hfree.
  set (todo := enumerate (sorted_files es)).
  assert (map (fun p : Z * file => fname (snd p)) todo = map fname (sorted_files es))
    as Hnames.
  { rewrite <- (map_map snd fname). unfold todo, enumerate.
    now rewrite enumerate_from_snd. }
  assert (forall p, In p todo -> In (snd p) (eligible es)) as Hel.
  { intros p Hp. apply (Permutation_in _ (sorted_by_perm name_key (eligible es))).
    fold (sorted_files es). rewrite <- (enumerate_from_snd 0 (sorted_files es)).
    now apply in_map. }
  assert (NoDup (map (fun p : Z * file => fname (snd p)) todo)) as Hold.
  { rewrite Hnames.
    apply (Permutation_NoDup
             (Permutation_map fname
                (Permutation_sym (sorted_by_perm name_key (eligible es))))).
    now apply eligible_names_NoDup. }
  assert (forall p, In p todo -> In (fname (snd p), File (st_size (snd p))) es) as Hfile.
  { intros p Hp. now apply eligible_In, Hel. }
  destruct (rename_pass_free todo es) as (es' & F & Len).
  - apply assigned_names_NoDup.
  - exact Hold.
  - intros p Hp. exact (in_map fst _ _ (Hfile p Hp)).
  - intros p Hp Hne. rewrite Forall_forall in Hfree.
    apply (Hfree (fname (snd p), new_name (fst p) (fname (snd p)))).
    unfold renames_performed. apply filter_In. split.
    + now apply (in_map (fun p => (fname (snd p), new_name (fst p) (fname (snd p))))).
    + simpl. apply negb_true_iff, String.eqb_neq. congruence.
  - destruct (rename_pass_entries todo es es' Hnd Hold) as [Hnd' Hchar];
      try assumption.
    { intros p Hp. exact (in_map fst _ _ (Hfile p Hp)). }
    exists es'. split; [exact F|]. split; [exact Len|]. split; [exact Hnd'|].
    split; [|split].
    + intros p Hp. apply Hchar. left. exists p. auto.
    + intros n x Hin Hn. apply Hchar. right. now rewrite Hnames.
    + intros n x Hin. apply Hchar in Hin as [(p & Hp & -> & _)|[Hin _]];
        [left | now right].
      now apply (in_map (fun p => new_name (fst p) (fname (snd p)))).
Qed.

Lemma rename_files_completes_witness :
  exists es',
    rename_files [("tune.mid", File 10); ("Sub", Folder []); ("air.MIDI", File 20)]
    = Some es'
    /\ List.length es' = 3%nat.
Proof.
  destruct (rename_files_completes
              [("tune.mid", File 10); ("Sub", Folder []); ("air.MIDI", File 20)])
    as (es' & H1 & H2 & _).
  - repeat constructor; simpl; intuition discriminate.
  - vm_compute. repeat constructor; intuition discriminate.
  - exists es'. split; assumption.
Defined.

(** ** The bucketing pass on the directory *)

Lemma lookup_app (n : string) (a b : listing) :
  lookup n (a ++ b)
  = match lookup n a with Some x => Some x | None => lookup n b end.
Proof.
  induction a as [|[m x] a IH]; simpl; [reflexivity|].
  now destruct (m =? n)%string.
Qed.

Lemma lookup_In_NoDup (n : string) (x : node) (es : listing) :
  NoDup (map fst es) -> In (n, x) es -> lookup n es = Some x.
Proof.
  intros Hnd Hin. destruct (lookup n es) as [y|] eqn:L.
  - apply lookup_Some_In in L. f_equal.
    now apply (NoDup_names_functional es n y x).
  - apply lookup_None_iff in L. exfalso. apply L.
    now apply (in_map fst) in Hin.
Qed.

Lemma set_entry_absent (n : string) (x : node) (es : listing) :
  ~ In n (map fst es) -> set_entry n x es = es.
Proof.
  intros H. unfold set_entry. rewrite <- (map_id es) at 2.
  apply map_ext_in. intros [m y] Hin. simpl.
  destruct (String.eqb_spec m n) as [->|]; [|reflexivity].
  exfalso. apply H. now apply (in_map fst) in Hin.
Qed.

Lemma filter_names_incl (p : string * node -> bool) (es : listing) (n : string) :
  In n (map fst (filter p es)) -> In n (map fst es).
Proof.
  intros H. apply in_map_iff in H as (e & <- & He).
  apply filter_In in He as [He _]. now apply in_map.
Qed.

Lemma filter_names_NoDup (p : string * node -> bool) (es : listing) :
  NoDup (map fst es) -> NoDup (map fst (filter p es)).
Proof.
  induction es as [|e es IH]; simpl; intros H; [constructor|].
  apply NoDup_cons_iff in H as [H1 H2].
  destruct (p e); simpl; [|now apply IH].
  constructor; [|now apply IH]. intros Hin. apply H1.
  now apply (filter_names_incl p).
Qed.

Lemma filter_filter {A : Type} (p q : A -> bool) (l : list A) :
  filter p (filter q l) = filter (fun x => q x && p x) l.
Proof.
  induction l as [|x l IH]; simpl; [reflexivity|].
  destruct (q x); simpl; [destruct (p x)|]; now rewrite IH.
Qed.

Lemma filter_all {A : Type} (p : A -> bool) (l : list A) :
  (forall x, p x = true) -> filter p l = l.
Proof.
  intros H. induction l as [|x l IH]; simpl; [reflexivity|]. now rewrite H, IH.
Qed.

Lemma NoDup_snoc {A : Type} (l : list A) (x : A) :
  NoDup l -> ~ In x l -> NoDup (l ++ [x]).
Proof.
  intros Hl Hx. apply (Permutation_NoDup (Permutation_cons_append l x)).
  now constructor.
Qed.

Lemma place_members_into (dir : string) (fs : list file) :
  forall (rem sub : listing),
    ~ In dir (map fst rem) -> NoDup (map fst rem) ->
    NoDup (map fname fs) ->
    (forall f, In f fs -> In (file_entry f) rem) ->
    (forall f, In f fs -> ~ In (fname f) (map fst sub)) ->
    fold_left (place_members dir) fs (Some (rem ++ [(dir, Folder sub)]))
    = Some (filter (fun e => negb (existsb (String.eqb (fst e)) (map fname fs))) rem
            ++ [(dir, Folder (sub ++ map file_entry fs))]).
Proof.
  induction fs as [|f fs IH]; intros rem sub Hdir Hnd Hfs Hin Hsub.
  - cbn [fold_left map]. rewrite app_nil_r, filter_all; reflexivity.
  - cbn [fold_left]. unfold place_members at 2. unfold fs_move.
    cbn [map] in Hfs. apply NoDup_cons_iff in Hfs as [Hf1 Hf2].
    pose proof (Hin f (or_introl eq_refl)) as Hf. unfold file_entry in Hf.
    assert (fname f <> dir) as Hne.
    { intros E. apply Hdir. rewrite <- E. now apply (in_map fst) in Hf. }
    rewrite !lookup_app, (lookup_In_NoDup _ _ _ Hnd Hf).
    assert (lookup dir rem = None) as -> by now apply lookup_None_iff.
    cbn [lookup]. rewrite String.eqb_refl.
    assert (lookup (fname f) sub = None) as ->.
    { apply lookup_None_iff, Hsub. now left. }
    unfold remove_entry. rewrite filter_app. cbn [filter fst].
    apply String.eqb_neq in Hne as Hne'. rewrite String.eqb_sym in Hne'.
    rewrite Hne'. cbn [negb].
    unfold set_entry. rewrite map_app. fold (set_entry dir (Folder (sub ++ [(fname f, File (st_size f))]))
                                               (filter (fun e => negb (fst e =? fname f)%string) rem)).
    rewrite set_entry_absent by (intros H; now apply filter_names_incl in H).
    cbn [map fst]. rewrite String.eqb_refl.
    rewrite IH.
    + rewrite filter_filter, <- app_assoc. cbn [map app existsb].
      f_equal. f_equal. apply filter_ext. intros e.
      now rewrite negb_orb.
    + intros H. now apply filter_names_incl in H.
    + now apply filter_names_NoDup.
    + assumption.
    + intros f' Hf'. apply filter_In. split; [apply Hin; now right|].
      cbn [fst file_entry]. apply negb_true_iff, String.eqb_neq. intros E.
      apply Hf1. rewrite <- E. now apply in_map.
    + intros f' Hf'. rewrite map_app, in_app_iff. cbn [map fst In].
      intros [H|[H|[]]]; [revert H; apply Hsub; now right|].
      apply Hf1. rewrite H. now apply in_map.
Qed.

Lemma place_bucket_fresh (es : listing) (b : bucket) :
  ~ In (bucket_dir b) (map fst es) -> NoDup (map fst es) ->
  NoDup (map fname (members b)) ->
  (forall f, In f (members b) -> In (file_entry f) es) ->
  place_bucket (Some es) b
  = Some (filter (fun e => negb (existsb (String.eqb (fst e)) (map fname (members b)))) es
          ++ [bucket_entry b]).
Proof.
  intros Hdir Hnd Hm Hin. unfold place_bucket, fs_mkdir.
  assert (lookup (bucket_dir b) es = None) as -> by now apply lookup_None_iff.
  rewrite place_members_into; try assumption; [reflexivity|].
  intros f _ [].
Qed.

Lemma place_buckets_fresh (bs : list bucket) :
  forall es : listing,
    NoDup (map bucket_dir bs) ->
    (forall b, In b bs -> ~ In (bucket_dir b) (map fst es)) ->
    NoDup (map fst es) ->
    NoDup (map fname (List.concat (map members bs))) ->
    (forall f, In f (List.concat (map members bs)) -> In (file_entry f) es) ->
    place_buckets bs es
    = Some (filter (fun e => negb (existsb (String.eqb (fst e))
                                     (map fname (List.concat (map members bs))))) es
            ++ map bucket_entry bs).
Proof.
  unfold place_buckets.
  induction bs as [|b bs IH]; intros es Hdirs Hfresh Hnd Hms Hin.
  - cbn [fold_left map List.concat]. rewrite app_nil_r, filter_all; reflexivity.
  - cbn [fold_left]. cbn [map List.concat] in Hms, Hin |- *.
    rewrite map_app in Hms. apply NoDup_cons_iff in Hdirs as [Hd1 Hd2].
    assert (forall f g, In f (members b) -> In g (List.concat (map members bs)) ->
                        fname f <> fname g) as Hnames.
    { intros f g Hf Hg E. revert Hms. clear -Hf Hg E.
      induction (members b) as [|h l IHl]; [destruct Hf|].
      simpl. intros H. apply NoDup_cons_iff in H as [Hh Hl].
      destruct Hf as [->|Hf]; [|now apply IHl].
      apply Hh, in_or_app. right. rewrite E. now apply in_map. }
    rewrite place_bucket_fresh.
    + rewrite IH.
      * rewrite filter_app, filter_filter, <- app_assoc. cbn [filter fst bucket_entry].
        assert (existsb (String.eqb (bucket_dir b))
                        (map fname (List.concat (map members bs))) = false) as ->.
        { apply not_true_is_false. intros H. apply existsb_eqb_In in H.
          apply in_map_iff in H as (f & Hf & Hfin).
          apply (Hfresh b (or_introl eq_refl)). rewrite <- Hf.
          apply (in_map fst _ _ (Hin f (in_or_app _ _ _ (or_intror Hfin)))). }
        cbn [negb app]. f_equal. f_equal. apply filter_ext. intros e.
        now rewrite map_app, existsb_app, negb_orb.
      * assumption.
      * intros b' Hb'. rewrite map_app, in_app_iff. cbn [map fst bucket_entry In].
        intros [H|[H|[]]].
        -- apply filter_names_incl in H. revert H. apply Hfresh. now right.
        -- apply Hd1. rewrite H. now apply in_map.
      * rewrite map_app. cbn [map fst bucket_entry].
        apply NoDup_snoc; [now apply filter_names_NoDup|].
        intros H. apply filter_names_incl in H. revert H. apply Hfresh. now left.
      * now apply NoDup_app_remove_l in Hms.
      * intros f Hf. apply in_or_app. left. apply filter_In.
        split; [apply Hin, in_or_app; now right|].
        apply negb_true_iff, not_true_is_false. intros H.
        apply existsb_eqb_In in H. apply in_map_iff in H as (g & Hg & Hgin).
        now apply (Hnames g f Hgin Hf).
    + apply Hfresh. now left.
    + assumption.
    + now apply NoDup_app_remove_r in Hms.
    + intros f Hf. apply Hin, in_or_app. now left.
Qed.

Lemma bucket_files_dirs_NoDup (base : string) (es : listing) :
  NoDup (map bucket_dir (bucket_files base es)).
Proof.
  rewrite bucket_files_dirs. unfold dirnames.
  apply Finite.Injective_map_NoDup; [|apply seq_NoDup].
  intros i j E. apply (bucket_dirname_inj base) in E. lia.
Qed.

Lemma bucket_files_concat (base : string) (es : listing) :
  List.concat (map members (bucket_files base es)) = sorted_files es.
Proof.
  destruct (sorted_files es) as [|f fs] eqn:E.
  - unfold bucket_files. now rewrite E.
  - rewrite bucket_files_pack by (rewrite E; discriminate).
    now rewrite pack_concat, E.
Qed.

Lemma sorted_files_In (f : file) (es : listing) :
  In f (sorted_files es) <-> In f (eligible es).
Proof.
  split; apply Permutation_in;
    [|apply Permutation_sym]; apply sorted_by_perm.
Qed.

Lemma eligible_entry_name (es : listing) (e : string * node) :
  NoDup (map fst es) -> In e es ->
  existsb (String.eqb (fst e)) (map fname (sorted_files es)) = is_eligible_entry e.
Proof.
  intros Hnd He. destruct e as [n x]. unfold is_eligible_entry. cbn [fst snd].
  destruct (existsb (String.eqb n) (map fname (sorted_files es))) eqn:Ex.
  - apply existsb_eqb_In in Ex. apply in_map_iff in Ex as (f & Hf & Hin).
    apply sorted_files_In, eligible_In in Hin as [Hin Hv]. rewrite Hf in Hin, Hv.
    rewrite (NoDup_names_functional es n x _ Hnd He Hin). now rewrite Hv.
  - destruct x as [sz|sub]; [|reflexivity].
    destruct (is_valid_ext n) eqn:Hv; [|reflexivity].
    assert (In n (map fname (sorted_files es))) as H.
    { apply in_map_iff. exists (mkfile n sz). split; [reflexivity|].
      apply sorted_files_In, eligible_In. now split. }
    apply existsb_eqb_In in H. congruence.
Qed.

Lemma eligible_app (a b : listing) : eligible (a ++ b) = eligible a ++ eligible b.
Proof.
  induction a as [|[n [sz|sub]] a IH]; simpl; [reflexivity| |assumption].
  destruct (is_valid_ext n); simpl; now rewrite IH.
Qed.

Lemma eligible_none_left (es : listing) (bs : list bucket) :
  eligible (filter (fun e => negb (is_eligible_entry e)) es ++ map bucket_entry bs)
  = [].
Proof.
  rewrite eligible_app.
  assert (eligible (map bucket_entry bs) = []) as ->
      by (induction bs as [|b bs IH]; simpl; [reflexivity | exact IH]).
  rewrite app_nil_r.
  induction es as [|[n [sz|sub]] es IH]; simpl; [reflexivity| |exact IH].
  unfold is_eligible_entry at 1. cbn [fst snd].
  destruct (is_valid_ext n) eqn:Hv; simpl; [exact IH|]. now rewrite Hv.
Qed.

(** X17.  What [bucket_files] does to a directory whose entries bear
    distinct names and in which no bucket directory of the pass exists
    yet: the pass completes; the entries that are not eligible files stay
    where they are, in their order; the bucket directories come after
    them, in the order in which they were opened, and each one holds the
    files put into it, under their names and with their content, and
    nothing else.  No eligible file is left in the directory. *)
Theorem bucket_files_moves (base : string) (es : listing) :
  NoDup (map fst es) ->
  Forall (fun b => ~ In (bucket_dir b) (map fst es)) (bucket_files base es) ->
  exists es',
    place_buckets (bucket_files base es) es = Some es'
    /\ es' = filter (fun e => negb (is_eligible_entry e)) es
             ++ map bucket_entry (bucket_files base es)
    /\ eligible es' = [].
Proof.
  intros Hnd Hfresh. rewrite Forall_forall in Hfresh.
  eexists. split; [|split; [reflexivity | apply eligible_none_left]].
  rewrite place_buckets_fresh; try assumption.
  - rewrite bucket_files_concat.
    rewrite (filter_ext_in
               (fun e => negb (existsb (String.eqb (fst e)) (map fname (sorted_files es))))
               (fun e => negb (is_eligible_entry e)) es); [reflexivity|].
    intros e He. now rewrite eligible_entry_name.
  - apply bucket_files_dirs_NoDup.
  - rewrite bucket_files_concat.
    apply (Permutation_NoDup
             (Permutation_map fname
                (Permutation_sym (sorted_by_perm name_key (eligible es))))).
    now apply eligible_names_NoDup.
  - rewrite bucket_files_concat. intros f Hf.
    now apply sorted_files_In, eligible_In in Hf as [Hf _].
Qed.

Lemma bucket_files_moves_witness :
  exists es',
    place_buckets
      (bucket_files "Songs" [("01TUNEDK.MID", File 10); ("notes.txt", File 5);
                             ("00AIRDKS.MID", File 700000)])
      [("01TUNEDK.MID", File 10); ("notes.txt", File 5); ("00AIRDKS.MID", File 700000)]
    = Some es'
    /\ es' = [("notes.txt", File 5);
              ("Songs_1", Folder []);
              ("Songs_2", Folder [("00AIRDKS.MID", File 700000)]);
              ("Songs_3", Folder [("01TUNEDK.MID", File 10)])].
Proof.
  destruct (bucket_files_moves "Songs"
              [("01TUNEDK.MID", File 10); ("notes.txt", File 5);
               ("00AIRDKS.MID", File 700000)])
    as (es' & H1 & H2 & _).
  - repeat constructor; simpl; intuition discriminate.
  - vm_compute. repeat constructor; intuition discriminate.
  - exists es'. split; [exact H1|]. rewrite H2. vm_compute. reflexivity.
Defined.

(** ** A second run *)

Lemma nothing_built_refl (st : run) : nothing_built st st.
Proof. repeat split. exists []. now rewrite app_nil_r. Qed.

Lemma nothing_built_trans (a b c : run) :
  nothing_built a b -> nothing_built b c -> nothing_built a c.
Proof.
  intros (C1 & M1 & e1 & L1 & I1 & D1) (C2 & M2 & e2 & L2 & I2 & D2).
  split; [congruence|]. split; [congruence|].
  exists (e1 ++ e2). rewrite built_images_app, created_dirs_app, I1, I2, D1, D2.
  split; [now rewrite L2, L1, app_assoc | split; reflexivity].
Qed.

Lemma nothing_built_emit (e : event) (st : run) :
  built_images [e] = [] -> created_dirs [e] = [] -> nothing_built st (emit e st).
Proof. intros H1 H2. repeat split. now exists [e]. Qed.

Lemma quiet_after (st st1 : run) (es : listing) (out : run * result listing) :
  nothing_built st st1 -> quiet st1 es out -> quiet st es out.
Proof.
  intros H [H1 H2]. split; [|exact H2]. now apply (nothing_built_trans st st1).
Qed.

Lemma fs_move_files (f dir : string) (es es' : listing) :
  fs_move f dir es = Some es' ->
  forall n sz, In (n, File sz) es' -> In (n, File sz) es /\ n <> f.
Proof.
  unfold fs_move.
  destruct (lookup f es) as [[sz0|?]|]; try discriminate.
  destruct (lookup dir es) as [[?|sub]|]; try discriminate.
  assert (forall x n sz,
             In (n, File sz) (set_entry dir (Folder x) (remove_entry f es)) ->
             In (n, File sz) es /\ n <> f) as H.
  { intros x n sz H. unfold set_entry in H.
    apply in_map_iff in H as ([m y] & E & H). cbn [fst] in E.
    destruct (m =? dir)%string; [discriminate|]. injection E as -> ->.
    unfold remove_entry in H. apply filter_In in H as [H Hn]. split; [exact H|].
    cbn [fst] in Hn. now apply negb_true_iff, String.eqb_neq in Hn. }
  destruct (lookup f sub) as [[?|inner]|]; [| |intros [= <-]; apply H].
  - intros [= <-]. apply H.
  - destruct (lookup f inner); [discriminate|]. intros [= <-]. apply H.
Qed.

Lemma place_members_files (dir : string) (fs : list file) :
  forall (rest : list string) (cur es' : listing),
    (forall n sz, In (n, File sz) cur -> is_valid_ext n = true ->
                  In n (map fname fs ++ rest)) ->
    fold_left (place_members dir) fs (Some cur) = Some es' ->
    forall n sz, In (n, File sz) es' -> is_valid_ext n = true -> In n rest.
Proof.
  induction fs as [|f fs IH]; intros rest cur es' Hcur Hf.
  - injection Hf as <-. exact Hcur.
  - cbn [fold_left] in Hf. unfold place_members at 2 in Hf.
    destruct (fs_move (fname f) dir cur) as [cur'|] eqn:M.
    2: { rewrite fold_option_none in Hf by reflexivity. discriminate. }
    apply (IH rest cur' es'); [|exact Hf].
    intros n sz Hin Hv. destruct (fs_move_files _ _ _ _ M n sz Hin) as [Hin' Hne].
    destruct (Hcur n sz Hin' Hv) as [E|H]; [congruence | exact H].
Qed.

Lemma place_buckets_files (bs : list bucket) :
  forall (cur es' : listing),
    (forall n sz, In (n, File sz) cur -> is_valid_ext n = true ->
                  In n (map fname (List.concat (map members bs)))) ->
    place_buckets bs cur = Some es' ->
    forall n sz, In (n, File sz) es' -> is_valid_ext n = true -> False.
Proof.
  unfold place_buckets.
  induction bs as [|b bs IH]; intros cur es' Hcur Hf.
  - injection Hf as <-. exact Hcur.
  - cbn [fold_left] in Hf. unfold place_bucket at 2 in Hf.
    destruct (fold_left (place_members (bucket_dir b)) (members b)
                (fs_mkdir (bucket_dir b) cur)) as [cur'|] eqn:E.
    2: { rewrite fold_option_none in Hf by reflexivity. discriminate. }
    apply (IH cur' es'); [|exact Hf].
    destruct (fs_mkdir (bucket_dir b) cur) as [cur0|] eqn:M.
    2: { rewrite fold_option_none in E by reflexivity. discriminate. }
    apply (place_members_files (bucket_dir b) (members b)
             (map fname (List.concat (map members bs))) cur0 cur'); [|exact E].
    intros n sz Hin Hv. cbn [map List.concat] in Hcur. rewrite map_app in Hcur.
    apply (Hcur n sz); [|exact Hv].
    unfold fs_mkdir in M.
    destruct (lookup (bucket_dir b) cur) as [[?|?]|]; try discriminate;
      injection M as <-; [exact Hin|].
    apply in_app_or in Hin as [Hin|[[=]|[]]]. exact Hin.
Qed.

Lemma eligible_nil_iff (es : listing) :
  eligible es = []
  <-> forall n sz, In (n, File sz) es -> is_valid_ext n = true -> False.
Proof.
  induction es as [|[m [sz0|sub]] es IH]; simpl.
  - split; [intros _ n sz [] | reflexivity].
  - destruct (is_valid_ext m) eqn:Hv.
    + split; [discriminate|]. intros H. exfalso. apply (H m sz0); auto.
    + rewrite IH. split; intros H n sz.
      * intros [[= <- <-]|Hin] Hn; [congruence | now apply (H n sz)].
      * intros Hin. apply (H n sz). now right.
  - rewrite IH. split; intros H n sz.
    + intros [[=]|Hin]. now apply (H n sz).
    + intros Hin. apply (H n sz). now right.
Qed.

Lemma bucket_files_no_eligible_left (base : string) (es es' : listing) :
  place_buckets (bucket_files base es) es = Some es' -> eligible es' = [].
Proof.
  intros H. apply eligible_nil_iff.
  apply (place_buckets_files (bucket_files base es) es es'); [|exact H].
  intros n sz Hin Hv. rewrite bucket_files_concat.
  apply (in_map fname _ (mkfile n sz)). apply sorted_files_In, eligible_In.
  now split.
Qed.

Lemma no_eligible_no_work (base : string) (es : listing) :
  eligible es = [] -> rename_files es = Some es /\ bucket_files base es = [].
Proof.
  intros H. unfold rename_files, bucket_files, sorted_files. now rewrite H.
Qed.

Lemma for_children_quiet
    (walk1 walk2 : PathLib.path -> listing -> run -> run * result listing)
    (directory : PathLib.path) :
  (forall child sub sta stb sub',
      walk1 child sub sta = (stb, Done sub') ->
      forall st2, quiet st2 sub' (walk2 child sub' st2)) ->
  forall es st st' es',
    for_children walk1 directory es st = (st', Done es') ->
    eligible es' = eligible es
    /\ forall st2, quiet st2 es' (for_children walk2 directory es' st2).
Proof.
  intros Hw. induction es as [|[n [sz|sub]] es IH]; intros st st' es' H.
  - injection H as <- <-. split; [reflexivity|]. intros st2.
    split; [apply nothing_built_refl | now left].
  - cbn [for_children] in H.
    destruct (for_children walk1 directory es st) as [st1 [es1| |]] eqn:F;
      try discriminate.
    injection H as <- <-. destruct (IH _ _ _ F) as [He Hq].
    split; [simpl; now rewrite He|].
    intros st2. cbn [for_children]. destruct (Hq st2) as [Hn Hr].
    destruct (for_children walk2 directory es1 st2) as [st3 r]. cbn [fst snd] in *.
    destruct Hr as [->| ->]; (split; [exact Hn|]); [now left | now right].
  - cbn [for_children] in H.
    destruct (walk1 (PathLib.joinpath directory n) sub st) as [sta [sub'| |]] eqn:W;
      try discriminate.
    destruct (for_children walk1 directory es sta) as [st1 [es1| |]] eqn:F;
      try discriminate.
    injection H as <- <-. destruct (IH _ _ _ F) as [He Hq].
    split; [simpl; exact He|].
    intros st2. cbn [for_children].
    destruct (Hw _ _ _ _ _ W st2) as [Hn Hr].
    destruct (walk2 (PathLib.joinpath directory n) sub' st2) as [st3 r].
    cbn [fst snd] in *. destruct Hr as [->| ->].
    + destruct (Hq st3) as [Hn' Hr'].
      destruct (for_children walk2 directory es1 st3) as [st4 r']. cbn [fst snd] in *.
      pose proof (nothing_built_trans _ _ _ Hn Hn') as Hnn.
      destruct Hr' as [->| ->]; (split; [exact Hnn|]); [now left | now right].
    + split; [exact Hn | now right].
Qed.

Lemma process_directory_again (tools tools2 : string -> bool) (root : PathLib.path)
    (fuel : nat) :
  forall directory es st st' es',
    process_directory fuel tools directory root es st = (st', Done es') ->
    forall fuel2 st2,
      quiet st2 es' (process_directory fuel2 tools2 directory root es' st2).
Proof.
  induction fuel as [|fuel IH]; intros directory es st st' es' H; [discriminate|].
  cbn [process_directory] in H.
  destruct (is_generated_dir directory root) eqn:G.
  - injection H as <- <-. intros [|fuel2] st2; cbn [process_directory].
    + split; [apply nothing_built_refl | now right].
    + rewrite G. split; [apply nothing_built_refl | now left].
  - destruct (rename_files es) as [es1|]; [|discriminate].
    destruct (place_buckets _ es1) as [es2|] eqn:P; [|discriminate].
    destruct (build_images tools directory root _ _) as [st3 [[]| |]];
      try discriminate.
    intros [|fuel2] st2; cbn [process_directory].
    + split; [apply nothing_built_refl | now right].
    + rewrite G.
      destruct (for_children_quiet
                  (fun child sub => process_directory fuel tools child root sub)
                  (fun child sub => process_directory fuel2 tools2 child root sub)
                  directory) with (1 := fun child sub sta stb sub' W st0 =>
                                          IH child sub sta stb sub' W fuel2 st0)
                                  (2 := H) as [He Hq].
      apply bucket_files_no_eligible_left in P. rewrite P in He.
      destruct (no_eligible_no_work (PathLib.name directory) es' He) as [-> ->].
      cbn [map place_buckets fold_left build_images].
      eapply quiet_after; [|apply Hq].
      eapply nothing_built_trans; [|apply nothing_built_emit; reflexivity].
      eapply nothing_built_trans; apply nothing_built_emit; reflexivity.
Qed.

(** X18.  A second run builds nothing.  Take the entries that a completed
    walk of a directory leaves behind and walk the directory again, with
    whatever outcome of the external tools: the second walk raises no
    exception, builds no image, returns no bucket directory, leaves the
    counter and the mapping as they were, and leaves the entries as they
    are. *)
Theorem second_run_builds_nothing (fuel fuel2 : nat) (tools tools2 : string -> bool)
    (directory root : PathLib.path) (es es' : listing) (st st' st2 : run) :
  process_directory fuel tools directory root es st = (st', Done es') ->
  let out := process_directory fuel2 tools2 directory root es' st2 in
  counter (fst out) = counter st2
  /\ mapping (fst out) = mapping st2
  /\ built_images (log (fst out)) = built_images (log st2)
  /\ created_dirs (log (fst out)) = created_dirs (log st2)
  /\ snd out <> Raised
  /\ ((listing_depth es' + 2 <= fuel2)%nat -> snd out = Done es').
Proof.
  intros H out.
  destruct (process_directory_again tools tools2 root fuel _ _ _ _ _ H fuel2 st2)
    as [(C & M & evs & L & I & D) R].
  fold out in C, M, L, R.
  split; [exact C|]. split; [exact M|].
  rewrite L, built_images_app, created_dirs_app, I, D, !app_nil_r.
  split; [reflexivity|]. split; [reflexivity|]. split.
  - destruct R as [-> | ->]; discriminate.
  - intros Hf. destruct R as [R|R]; [exact R|].
    exfalso. revert R. now apply process_directory_terminates.
Qed.

Lemma second_run_builds_nothing_witness :
  let first :=
    process_directory 10 (fun _ => true) example_root example_root example_tree
                      (mkrun 0 [] []) in
  let es' := match snd first with Done es' => es' | _ => [] end in
  let out :=
    process_directory 10 (fun _ => false) example_root example_root es'
                      (fst first) in
  counter (fst out) = counter (fst first) /\ snd out = Done es'.
Proof.
  intros first es' out.
  destruct (second_run_builds_nothing 10 10 (fun _ => true) (fun _ => false)
              example_root example_root example_tree es' (mkrun 0 [] [])
              (fst first) (fst first))
    as (C & _ & _ & _ & _ & R).
  - vm_compute. reflexivity.
  - split; [exact C|]. apply R. vm_compute. lia.
Defined.

(** ** The three ceilings *)

Lemma rounded_clusters_le (size : Z) :
  0 <= size -> rounded_clusters size <= size / SECTOR_SIZE + 1.
Proof.
  intros H. unfold rounded_clusters, SECTOR_SIZE.
  destruct (Z.eqb_spec ((size + 512 - 1) / 512) 0);
    Z.div_mod_to_equations; lia.
Qed.

Lemma total_clusters_bound (fs : list file) :
  Forall (fun g => 0 <= st_size g) fs ->
  0 <= total_bytes fs
  /\ total_clusters fs <= total_bytes fs / SECTOR_SIZE + total_count fs.
Proof.
  unfold total_count.
  induction fs as [|f fs IH]; intros H.
  - simpl. unfold SECTOR_SIZE. split; [lia|]. Z.div_mod_to_equations; lia.
  - apply Forall_cons_iff in H as [Hf Hfs]. destruct (IH Hfs) as [Hb Hc].
    pose proof (rounded_clusters_le (st_size f) Hf) as Hr.
    cbn [total_bytes total_clusters fold_right List.length].
    fold (total_bytes fs) (total_clusters fs).
    rewrite Nat2Z.inj_succ. unfold SECTOR_SIZE in *. split; [lia|].
    Z.div_mod_to_equations; lia.
Qed.

(** X19.  The cluster ceiling never decides.  For files whose sizes are not
    negative, the clusters of a list of files are at most its bytes over
    the sector size plus its number of files, so a list within the byte
    ceiling and the file ceiling takes at most 1260 clusters, below
    [MAX_CLUSTERS]; and the test of [bucket_files], taken on the totals of
    the files in the open bucket, is true exactly when the byte test or
    the file-count test is. *)
Theorem cluster_ceiling_never_decides (st : bstate) (ms : list file) (f : file) :
  Forall (fun g => 0 <= st_size g) (ms ++ [f]) ->
  used_clusters st = total_clusters ms ->
  used_bytes st = total_bytes ms ->
  file_count st = total_count ms ->
  (total_bytes (ms ++ [f]) <= MAX_PAYLOAD_BYTES ->
   total_count (ms ++ [f]) <= MAX_FILES_PER_DISK ->
   total_clusters (ms ++ [f]) <= 1260 < MAX_CLUSTERS)
  /\ needs_new_bucket st f
     = ((used_bytes st + st_size f >? MAX_PAYLOAD_BYTES)
        || (file_count st + 1 >? MAX_FILES_PER_DISK)).
Proof.
  intros Hpos Hc Hb Hn.
  destruct (total_clusters_bound _ Hpos) as [H0 Hbound].
  assert (total_bytes (ms ++ [f]) <= MAX_PAYLOAD_BYTES ->
          total_count (ms ++ [f]) <= MAX_FILES_PER_DISK ->
          total_clusters (ms ++ [f]) <= 1260 < MAX_CLUSTERS) as Hlim.
  { intros H1 H2. unfold MAX_PAYLOAD_BYTES, MAX_FILES_PER_DISK, SECTOR_SIZE in *.
    split; [|reflexivity]. Z.div_mod_to_equations; lia. }
  split; [exact Hlim|].
  unfold needs_new_bucket. rewrite Hc, Hb, Hn.
  rewrite total_clusters_snoc, total_bytes_snoc, total_count_snoc in Hlim.
  destruct (Z.gtb_spec (total_bytes ms + st_size f) MAX_PAYLOAD_BYTES);
    [now rewrite orb_true_r|].
  destruct (Z.gtb_spec (total_count ms + 1) MAX_FILES_PER_DISK);
    [now rewrite !orb_true_r|].
  rewrite !orb_false_r.
  destruct (Z.gtb_spec (total_clusters ms + rounded_clusters (st_size f)) MAX_CLUSTERS);
    [|reflexivity].
  unfold MAX_CLUSTERS, DATA_SECTORS, TOTAL_SECTORS, SYSTEM_SECTORS in *. lia.
Qed.

Lemma cluster_ceiling_never_decides_witness :
  needs_new_bucket (mkbstate [mkbucket "Songs_1" [mkfile "00AIRDKS.MID" 1000]]
                             1 "Songs_1" 2 1000 1)
                   (mkfile "01TUNEDK.MID" 700)
  = ((1000 + 700 >? MAX_PAYLOAD_BYTES) || (1 + 1 >? MAX_FILES_PER_DISK)).
Proof.
  apply (cluster_ceiling_never_decides
           (mkbstate [mkbucket "Songs_1" [mkfile "00AIRDKS.MID" 1000]]
                     1 "Songs_1" 2 1000 1)
           [mkfile "00AIRDKS.MID" 1000] (mkfile "01TUNEDK.MID" 700)).
  - repeat constructor; simpl; lia.
  - reflexivity.
  - reflexivity.
  - reflexivity.
Defined.

(** ** The order in which a directory lists its entries *)

Lemma eligible_perm (es es' : listing) :
  Permutation es es' -> Permutation (eligible es) (eligible es').
Proof.
  induction 1 as [|[n [sz|sub]] l l' P IH|[n [sz|sub]] [m [sz'|sub']] l|l l' l'' P IH P' IH'];
    simpl.
  - constructor.
  - destruct (is_valid_ext n); [now constructor | assumption].
  - assumption.
  - destruct (is_valid_ext n), (is_valid_ext m); try reflexivity. apply perm_swap.
  - reflexivity.
  - reflexivity.
  - reflexivity.
  - now transitivity (eligible l').
Qed.

Lemma NoDup_map_injective {A B : Type} (f : A -> B) (l : list A) (a b : A) :
  NoDup (map f l) -> In a l -> In b l -> f a = f b -> a = b.
Proof.
  induction l as [|x l IH]; simpl; intros H Ha Hb E; [contradiction|].
  apply NoDup_cons_iff in H as [Hx Hl].
  destruct Ha as [->|Ha], Hb as [->|Hb]; auto.
  - exfalso. apply Hx. rewrite E. now apply in_map.
  - exfalso. apply Hx. rewrite <- E. now apply in_map.
Qed.

(** X20.  The order in which [iterdir] lists the entries does not count
    when the names are made of ASCII characters and no two eligible files
    have the same lower-cased name: two listings of the same entries give
    the same sorted list of files, hence the same computed names and the
    same buckets. *)
Theorem listing_order_irrelevant (base : string) (es es' : listing) :
  Forall (fun e => Str.isascii (fst e) = true) es ->
  Permutation es es' ->
  NoDup (map name_key (eligible es)) ->
  sorted_files es' = sorted_files es
  /\ assigned_names es' = assigned_names es
  /\ bucket_files base es' = bucket_files base es.
Proof.
  intros _ P Hnd.
  assert (sorted_files es' = sorted_files es) as E.
  { unfold sorted_files. apply sorted_by_unique.
    - apply Sorted_StronglySorted; [apply key_le_trans | apply sorted_by_sorted].
    - rewrite sorted_by_perm. apply eligible_perm. now apply Permutation_sym.
    - intros a b Ha Hb. apply (NoDup_map_injective name_key (eligible es));
        [assumption| |];
        eapply Permutation_in; try eassumption; apply sorted_by_perm. }
  split; [exact E|].
  unfold assigned_names, bucket_files. now rewrite E.
Qed.

Lemma listing_order_irrelevant_witness :
  sorted_files [("b.mid", File 1); ("notes.txt", File 3); ("A.mid", File 2)]
  = sorted_files [("A.mid", File 2); ("b.mid", File 1); ("notes.txt", File 3)]
  /\ bucket_files "Songs" [("b.mid", File 1); ("notes.txt", File 3); ("A.mid", File 2)]
     = bucket_files "Songs" [("A.mid", File 2); ("b.mid", File 1); ("notes.txt", File 3)].
Proof.
  destruct (listing_order_irrelevant "Songs"
              [("A.mid", File 2); ("b.mid", File 1); ("notes.txt", File 3)]
              [("b.mid", File 1); ("notes.txt", File 3); ("A.mid", File 2)])
    as (H1 & _ & H3).
  - repeat constructor.
  - apply (Permutation_cons_app [("b.mid", File 1); ("notes.txt", File 3)] []).
    reflexivity.
  - vm_compute. repeat constructor; simpl; intuition discriminate.
  - split; assumption.
Defined.
